(** * v3math: a 3D vector library over single-precision floats

    Shallow embedding of [v3math.c].  Floats are IEEE-754 binary32 values,
    given by the Standard Library's executable specification [SpecFloat]
    at precision 24 and maximal exponent 128 (round to nearest, ties to
    even; one NaN).  Buffers ([float *]) are pointers into a block/offset
    memory, so that a call whose destination is one of its sources is a
    call with equal pointers.  The diagnostics printed on [stderr] are kept
    as the list of lines written so far. *)

From Stdlib Require Import ZArith Bool List String Ascii Lia.
From Stdlib Require Import SpecFloat.
From Stdlib Require Import Reals Lra Psatz.
Import ListNotations.

Local Open Scope Z_scope.

(** ** binary32 *)

Definition float : Set := spec_float.

Module F32.

Definition prec : Z := 24.
Definition emax : Z := 128.

Definition add : float -> float -> float := SFadd prec emax.
Definition sub : float -> float -> float := SFsub prec emax.
Definition mul : float -> float -> float := SFmul prec emax.
Definition div : float -> float -> float := SFdiv prec emax.
Definition sqrtf : float -> float := SFsqrt prec emax.
Definition fabsf : float -> float := SFabs.
Definition neg : float -> float := SFopp.

Definition eqb : float -> float -> bool := SFeqb.
Definition ltb : float -> float -> bool := SFltb.
Definition leb : float -> float -> bool := SFleb.
Definition gtb (x y : float) : bool :=
  match SFcompare x y with
  | Some Gt => true
  | _ => false
  end.

(** [isfinite] and [isnan] of <math.h>. *)
Definition isfinite (x : float) : bool :=
  match x with
  | S754_zero _ | S754_finite _ _ _ => true
  | S754_infinity _ | S754_nan => false
  end.

Definition isnan (x : float) : bool :=
  match x with
  | S754_nan => true
  | _ => false
  end.

(** A well-formed binary32 datum: the mantissa/exponent pair is the
    canonical one. *)
Definition valid (x : float) : bool := valid_binary prec emax x.

(** The literals of the source. *)
Definition zero : float := S754_zero false.            (* 0.0f *)
Definition one : float := S754_finite false 8388608 (-23).   (* 1.0f *)
Definition two : float := S754_finite false 8388608 (-22).   (* 2.0f *)
Definition neg_one : float := S754_finite true 8388608 (-23). (* -1.0f *)
Definition NAN : float := S754_nan.
Definition pinf : float := S754_infinity false.

(** A float is a zero of either sign. *)
Definition is_zero (x : float) : bool :=
  match x with
  | S754_zero _ => true
  | _ => false
  end.

End F32.

Declare Scope f32_scope.
Delimit Scope f32_scope with f32.
Infix "+" := F32.add : f32_scope.
Infix "-" := F32.sub : f32_scope.
Infix "*" := F32.mul : f32_scope.
Infix "/" := F32.div : f32_scope.
Infix "==" := F32.eqb (at level 70, no associativity) : f32_scope.
Infix "<" := F32.ltb : f32_scope.
Infix "<=" := F32.leb : f32_scope.
Infix ">" := F32.gtb : f32_scope.

(** ** Memory, pointers and the state of a run *)

Definition block : Set := Z.

Inductive ptr : Set :=
| NULL
| Ptr (b : block) (o : Z).

Definition ptr_eqb (p q : ptr) : bool :=
  match p, q with
  | NULL, NULL => true
  | Ptr b o, Ptr b' o' => (b =? b') && (o =? o')
  | _, _ => false
  end.

(** [p + i] on a [float *]. *)
Definition ptr_add (p : ptr) (i : Z) : ptr :=
  match p with
  | NULL => NULL
  | Ptr b o => Ptr b (o + i)
  end.

Definition heap_t : Type := block -> Z -> float.

Definition upd (h : heap_t) (b : block) (o : Z) (v : float) : heap_t :=
  fun b' o' => if (b' =? b) && (o' =? o) then v else h b' o'.

Record state : Type := mkState {
  heap : heap_t;          (* contents of every float cell *)
  nextblock : block;      (* blocks below it are allocated *)
  stderr : list string    (* lines printed by [v3_error] *)
}.

(** Computations of the library: a state monad. *)
Definition M (A : Type) : Type := state -> A * state.

Definition ret {A : Type} (x : A) : M A := fun st => (x, st).

Definition bind {A B : Type} (c : M A) (k : A -> M B) : M B :=
  fun st => let (x, st') := c st in k x st'.

Notation "x <- c ;; k" := (bind c (fun x => k))
  (at level 61, c at next level, right associativity).
Notation "c ;; k" := (bind c (fun _ => k))
  (at level 61, right associativity).

Definition exec {A : Type} (c : M A) (st : state) : state := snd (c st).
Definition eval {A : Type} (c : M A) (st : state) : A := fst (c st).

(** [p[i]] as an rvalue.  Every read of the library is behind a NULL
    test; the value given to a read through NULL is never used. *)
Definition load (p : ptr) (i : Z) : M float :=
  fun st =>
    match p with
    | NULL => (F32.NAN, st)
    | Ptr b o => (heap st b (o + i), st)
    end.

(** [p[i] = v]. *)
Definition store (p : ptr) (i : Z) (v : float) : M unit :=
  fun st =>
    match p with
    | NULL => (tt, st)
    | Ptr b o =>
        (tt, mkState (upd (heap st) b (o + i) v) (nextblock st) (stderr st))
    end.

(** A local array [float nn[3]]: a fresh block for the time of the body. *)
Definition with_local {A : Type} (body : ptr -> M A) : M A :=
  fun st =>
    let b := nextblock st in
    let (r, st') := body (Ptr b 0) (mkState (heap st) (b + 1) (stderr st)) in
    (r, mkState (heap st') b (stderr st')).

Definition newline : string := String (ascii_of_nat 10) EmptyString.

(** ** The library *)

(** [fprintf(stderr, "Error: %s\n", msg)] *)
Definition v3_error (msg : string) : M unit :=
  fun st =>
    (tt, mkState (heap st) (nextblock st)
           (stderr st ++ [("Error: " ++ msg ++ newline)%string])).

Definition v3_valid_ptr3 (p : ptr) : bool := negb (ptr_eqb p NULL).

Definition clampf (x lo hi : float) : float :=
  if (x < lo)%f32 then lo
  else if (x > hi)%f32 then hi
  else x.

Definition v3_from_points (dst a b : ptr) : M unit :=
  if negb (v3_valid_ptr3 dst) || negb (v3_valid_ptr3 a) || negb (v3_valid_ptr3 b)
  then v3_error "v3_from_points received NULL pointer"
  else
    ax <- load a 0 ;; ay <- load a 1 ;; az <- load a 2 ;;
    bx <- load b 0 ;; by_ <- load b 1 ;; bz <- load b 2 ;;
    store dst 0 (bx - ax)%f32 ;;
    store dst 1 (by_ - ay)%f32 ;;
    store dst 2 (bz - az)%f32.

Definition v3_add (dst a b : ptr) : M unit :=
  if negb (v3_valid_ptr3 dst) || negb (v3_valid_ptr3 a) || negb (v3_valid_ptr3 b)
  then v3_error "v3_add received NULL pointer"
  else
    ax <- load a 0 ;; ay <- load a 1 ;; az <- load a 2 ;;
    bx <- load b 0 ;; by_ <- load b 1 ;; bz <- load b 2 ;;
    store dst 0 (ax + bx)%f32 ;;
    store dst 1 (ay + by_)%f32 ;;
    store dst 2 (az + bz)%f32.

Definition v3_subtract (dst a b : ptr) : M unit :=
  if negb (v3_valid_ptr3 dst) || negb (v3_valid_ptr3 a) || negb (v3_valid_ptr3 b)
  then v3_error "v3_subtract received NULL pointer"
  else
    ax <- load a 0 ;; ay <- load a 1 ;; az <- load a 2 ;;
    bx <- load b 0 ;; by_ <- load b 1 ;; bz <- load b 2 ;;
    store dst 0 (ax - bx)%f32 ;;
    store dst 1 (ay - by_)%f32 ;;
    store dst 2 (az - bz)%f32.

Definition v3_dot_product (a b : ptr) : M float :=
  if negb (v3_valid_ptr3 a) || negb (v3_valid_ptr3 b)
  then v3_error "v3_dot_product received NULL pointer" ;; ret F32.NAN
  else
    a0 <- load a 0 ;; b0 <- load b 0 ;;
    a1 <- load a 1 ;; b1 <- load b 1 ;;
    a2 <- load a 2 ;; b2 <- load b 2 ;;
    ret (a0 * b0 + a1 * b1 + a2 * b2)%f32.

Definition v3_cross_product (dst a b : ptr) : M unit :=
  if negb (v3_valid_ptr3 dst) || negb (v3_valid_ptr3 a) || negb (v3_valid_ptr3 b)
  then v3_error "v3_cross_product received NULL pointer"
  else
    ax <- load a 0 ;; ay <- load a 1 ;; az <- load a 2 ;;
    bx <- load b 0 ;; by_ <- load b 1 ;; bz <- load b 2 ;;
    store dst 0 (ay * bz - az * by_)%f32 ;;
    store dst 1 (az * bx - ax * bz)%f32 ;;
    store dst 2 (ax * by_ - ay * bx)%f32.

Definition v3_scale (dst : ptr) (s : float) : M unit :=
  if negb (v3_valid_ptr3 dst)
  then v3_error "v3_scale received NULL pointer"
  else
    d0 <- load dst 0 ;; store dst 0 (d0 * s)%f32 ;;
    d1 <- load dst 1 ;; store dst 1 (d1 * s)%f32 ;;
    d2 <- load dst 2 ;; store dst 2 (d2 * s)%f32.

Definition v3_length (a : ptr) : M float :=
  if negb (v3_valid_ptr3 a)
  then v3_error "v3_length received NULL pointer" ;; ret F32.NAN
  else
    x <- load a 0 ;; y <- load a 1 ;; z <- load a 2 ;;
    ret (F32.sqrtf (x * x + y * y + z * z)%f32).

Definition v3_normalize (dst a : ptr) : M unit :=
  if negb (v3_valid_ptr3 dst) || negb (v3_valid_ptr3 a)
  then v3_error "v3_normalize received NULL pointer"
  else
    x <- load a 0 ;; y <- load a 1 ;; z <- load a 2 ;;
    let len := F32.sqrtf (x * x + y * y + z * z)%f32 in
    if (len == F32.zero)%f32 || negb (F32.isfinite len)
    then
      v3_error "v3_normalize cannot normalize zero-length or non-finite vector" ;;
      store dst 0 F32.zero ;; store dst 1 F32.zero ;; store dst 2 F32.zero
    else
      let inv := (F32.one / len)%f32 in
      store dst 0 (x * inv)%f32 ;;
      store dst 1 (y * inv)%f32 ;;
      store dst 2 (z * inv)%f32.

Definition v3_angle_quick (a b : ptr) : M float :=
  if negb (v3_valid_ptr3 a) || negb (v3_valid_ptr3 b)
  then v3_error "v3_angle_quick received NULL pointer" ;; ret F32.NAN
  else
    la <- v3_length a ;;
    lb <- v3_length b ;;
    if (la == F32.zero)%f32 || (lb == F32.zero)%f32
       || negb (F32.isfinite la) || negb (F32.isfinite lb)
    then
      v3_error "v3_angle_quick undefined for zero-length or non-finite vectors" ;;
      ret F32.NAN
    else
      d <- v3_dot_product a b ;;
      let cosv := (d / (la * lb))%f32 in
      ret (clampf cosv F32.neg_one F32.one).

Section LibM.

(** [acosf] of the C library: not part of this repository, and not
    fixed to the last bit by any standard; the library is verified for
    every implementation of it. *)
Variable acosf : float -> float.

Definition v3_angle (a b : ptr) : M float :=
  cosv <- v3_angle_quick a b ;;
  if negb (F32.isfinite cosv) then ret F32.NAN
  else ret (acosf cosv).

End LibM.

Definition v3_reflect (dst v n : ptr) : M unit :=
  if negb (v3_valid_ptr3 dst) || negb (v3_valid_ptr3 v) || negb (v3_valid_ptr3 n)
  then v3_error "v3_reflect received NULL pointer"
  else
    with_local (fun nn =>
      v3_normalize nn n ;;
      nn_len <- v3_length nn ;;
      if (nn_len == F32.zero)%f32 || negb (F32.isfinite nn_len)
      then
        v3_error "v3_reflect undefined because normal vector is zero-length" ;;
        v0 <- load v 0 ;; store dst 0 v0 ;;
        v1 <- load v 1 ;; store dst 1 v1 ;;
        v2 <- load v 2 ;; store dst 2 v2
      else
        vx <- load v 0 ;; vy <- load v 1 ;; vz <- load v 2 ;;
        nn0 <- load nn 0 ;; nn1 <- load nn 1 ;; nn2 <- load nn 2 ;;
        let dotvn := (vx * nn0 + vy * nn1 + vz * nn2)%f32 in
        nn0' <- load nn 0 ;;
        store dst 0 (vx - F32.two * dotvn * nn0')%f32 ;;
        nn1' <- load nn 1 ;;
        store dst 1 (vy - F32.two * dotvn * nn1')%f32 ;;
        nn2' <- load nn 2 ;;
        store dst 2 (vz - F32.two * dotvn * nn2')%f32).

Definition v3_equals (a b : ptr) (tolerance : float) : M bool :=
  if negb (v3_valid_ptr3 a) || negb (v3_valid_ptr3 b) then ret false
  else
    let tolerance :=
      if (tolerance < F32.zero)%f32 then F32.neg tolerance else tolerance in
    a0 <- load a 0 ;; b0 <- load b 0 ;;
    a1 <- load a 1 ;; b1 <- load b 1 ;;
    a2 <- load a 2 ;; b2 <- load b 2 ;;
    ret ((F32.fabsf (a0 - b0) <= tolerance)%f32
         && (F32.fabsf (a1 - b1) <= tolerance)%f32
         && (F32.fabsf (a2 - b2) <= tolerance)%f32).

(** ** Reading and writing whole vectors *)

Definition vec3 : Set := (float * float * float)%type.

Definition load3 (st : state) (p : ptr) : vec3 :=
  (eval (load p 0) st, eval (load p 1) st, eval (load p 2) st).

Definition store3 (dst : ptr) (v : vec3) : M unit :=
  let '(x, y, z) := v in
  store dst 0 x ;; store dst 1 y ;; store dst 2 z.

(** Two 3-float buffers that share no cell. *)
Definition separate (p q : ptr) : Prop :=
  match p, q with
  | Ptr b o, Ptr b' o' => b <> b' \/ o + 3 <= o' \/ o' + 3 <= o
  | _, _ => False
  end.

(** Two buffers as a C caller has them: the same array or two arrays. *)
Definition same_or_separate (p q : ptr) : Prop := p = q \/ separate p q.

(** A pointer to a buffer that exists in state [st]. *)
Definition valid_ptr (st : state) (p : ptr) : Prop :=
  match p with
  | NULL => False
  | Ptr b _ => b < nextblock st
  end.

(** What each operation computes on values. *)
Definition from_points_val (a b : vec3) : vec3 :=
  let '(ax, ay, az) := a in
  let '(bx, by_, bz) := b in
  ((bx - ax)%f32, (by_ - ay)%f32, (bz - az)%f32).

Definition add_val (a b : vec3) : vec3 :=
  let '(ax, ay, az) := a in
  let '(bx, by_, bz) := b in
  ((ax + bx)%f32, (ay + by_)%f32, (az + bz)%f32).

Definition subtract_val (a b : vec3) : vec3 :=
  let '(ax, ay, az) := a in
  let '(bx, by_, bz) := b in
  ((ax - bx)%f32, (ay - by_)%f32, (az - bz)%f32).

Definition cross_val (a b : vec3) : vec3 :=
  let '(ax, ay, az) := a in
  let '(bx, by_, bz) := b in
  ((ay * bz - az * by_)%f32, (az * bx - ax * bz)%f32, (ax * by_ - ay * bx)%f32).

Definition dot_val (a b : vec3) : float :=
  let '(a0, a1, a2) := a in
  let '(b0, b1, b2) := b in
  (a0 * b0 + a1 * b1 + a2 * b2)%f32.

Definition length_val (a : vec3) : float :=
  let '(x, y, z) := a in
  F32.sqrtf (x * x + y * y + z * z)%f32.

(** The test of [v3_normalize], [v3_angle_quick] and [v3_reflect] on a
    computed length: [len == 0.0f || !isfinite(len)]. *)
Definition degenerate (len : float) : bool :=
  (len == F32.zero)%f32 || negb (F32.isfinite len).

Definition zero3 : vec3 := (F32.zero, F32.zero, F32.zero).

Definition normalize_val (a : vec3) : vec3 :=
  let '(x, y, z) := a in
  let len := length_val a in
  if degenerate len then zero3
  else
    let inv := (F32.one / len)%f32 in
    ((x * inv)%f32, (y * inv)%f32, (z * inv)%f32).

Definition reflect_val (v n : vec3) : vec3 :=
  let nn := normalize_val n in
  if degenerate (length_val nn) then v
  else
    let '(vx, vy, vz) := v in
    let '(nn0, nn1, nn2) := nn in
    let dotvn := (vx * nn0 + vy * nn1 + vz * nn2)%f32 in
    ((vx - F32.two * dotvn * nn0)%f32,
     (vy - F32.two * dotvn * nn1)%f32,
     (vz - F32.two * dotvn * nn2)%f32).

Definition angle_quick_val (a b : vec3) : float :=
  let la := length_val a in
  let lb := length_val b in
  if degenerate la || degenerate lb then F32.NAN
  else clampf (dot_val a b / (la * lb))%f32 F32.neg_one F32.one.

(** The diagnostics of the degenerate cases. *)
Definition normalize_msg : string :=
  "v3_normalize cannot normalize zero-length or non-finite vector".

Definition reflect_msg : string :=
  "v3_reflect undefined because normal vector is zero-length".

Definition angle_quick_msg : string :=
  "v3_angle_quick undefined for zero-length or non-finite vectors".

(** The line [v3_error] prints for a message. *)
Definition error_line (msg : string) : string :=
  ("Error: " ++ msg ++ newline)%string.

(** ** Fixtures of the test program *)

(** Small integers as floats, as the literals of [v3test.c] are. *)
Definition of_Z (n : Z) : float := binary_normalize F32.prec F32.emax n 0 false.

(** A heap that holds the given vectors in blocks 0, 1, 2, ... *)
Fixpoint heap_of (vs : list vec3) (b : block) (o : Z) : float :=
  match vs with
  | [] => F32.zero
  | (x, y, z) :: vs' =>
      if b =? 0 then
        (if o =? 0 then x else if o =? 1 then y else if o =? 2 then z
         else F32.zero)
      else heap_of vs' (b - 1) o
  end.

Definition state_of (vs : list vec3) : state :=
  mkState (heap_of vs) (Z.of_nat (List.length vs)) [].

Definition vec_of_Z (x y z : Z) : vec3 := (of_Z x, of_Z y, of_Z z).

(** A vector of three zeros, of any signs. *)
Definition is_zero3 (v : vec3) : bool :=
  let '(x, y, z) := v in F32.is_zero x && F32.is_zero y && F32.is_zero z.

(** A vector with an infinite or NaN component. *)
Definition has_nonfinite (v : vec3) : bool :=
  let '(x, y, z) := v in
  negb (F32.isfinite x) || negb (F32.isfinite y) || negb (F32.isfinite z).

Definition has_nan (v : vec3) : bool :=
  let '(x, y, z) := v in F32.isnan x || F32.isnan y || F32.isnan z.

(** ** The real number a float stands for *)

(** The value of a finite float; zeros, and by convention infinities and
    NaN, are sent to 0. *)
Definition F2R (x : float) : R :=
  match x with
  | S754_finite s m e => (IZR (cond_Zopp s (Zpos m)) * powerRZ 2 e)%R
  | _ => 0%R
  end.

(** [2^k] as a float, for [-126 <= k <= 127]. *)
Definition pow2 (k : Z) : float := S754_finite false 8388608 (k - 23).

(** [v3_scale] on values. *)
Definition scale_val (v : vec3) (s : float) : vec3 :=
  let '(x, y, z) := v in ((x * s)%f32, (y * s)%f32, (z * s)%f32).

(** All three components are well-formed binary32 data. *)
Definition valid3 (v : vec3) : bool :=
  let '(x, y, z) := v in F32.valid x && F32.valid y && F32.valid z.

(** All three components are zeros or finite numbers. *)
Definition finite3 (v : vec3) : bool :=
  let '(x, y, z) := v in F32.isfinite x && F32.isfinite y && F32.isfinite z.

(** [lo <= x <= hi] by the comparisons of the machine. *)
Definition between (lo hi x : float) : bool := (lo <= x)%f32 && (x <= hi)%f32.

(** The tolerance [1e-4f] of the test program, as the nearest float. *)
Definition tol_1e_4 : float := S754_finite false 13743895 (-37).

(** ** The rounding of [SpecFloat] at binary32 *)

Definition fexp32 : Z -> Z := fexp F32.prec F32.emax.

Definition bra : bool -> Z -> Z -> location -> float :=
  binary_round_aux F32.prec F32.emax.

(** The float made of a rounded mantissa and its exponent. *)
Definition bra_result (s : bool) (m e : Z) : float :=
  match m with
  | Z0 => S754_zero s
  | Zpos p => if e <=? 104 then S754_finite s p e else S754_infinity s
  | Zneg _ => S754_nan
  end.

(** The mantissa [binary_round_aux] gets from [m] with location [l] by
    dropping [n] bits (none if [n <= 0]) and rounding to nearest, ties
    to even. *)
Definition rnd_shift (m : Z) (l : location) (n : Z) : Z :=
  let mrs := fst (shr (shr_record_of_loc m l) 0 n) in
  round_nearest_even (shr_m mrs) (loc_of_shr_record mrs).

(** A finite float has at most 24 bits in an exponent of the format. *)
Definition bounded32 (x : float) : Prop :=
  match x with
  | S754_finite _ m e => Zpos m < 16777216 /\ -149 <= e <= 104
  | _ => True
  end.

(** A zero, or a finite float below [2^64] in magnitude: its square does
    not overflow. *)
Definition small (x : float) : Prop :=
  match x with
  | S754_zero _ => True
  | S754_finite _ m e => Zpos m < 16777216 /\ e <= 40
  | _ => False
  end.

(** The least length [v3_length] can return besides 0: the square root
    of the least positive float [2^-149]. *)
Definition min_len : float := S754_finite false 11863283 (-98).

(** A positive normal float in [[2^-74, 2^64)]. *)
Definition normal_len (x : float) : Prop :=
  match x with
  | S754_finite false m e => 8388608 <= Zpos m < 16777216 /\ -97 <= e <= 40
  | _ => False
  end.

(** [x * 2^j], when nothing is lost. *)
Definition shift_exp (j : Z) (x : float) : float :=
  match x with
  | S754_finite s m e => S754_finite s m (e + j)
  | _ => x
  end.

(** A zero, or a normal float of magnitude in [[2^-63, 2^60)]: neither
    its square nor a sum of three such squares leaves the normal range. *)
Definition scalable (x : float) : Prop :=
  match x with
  | S754_zero _ => True
  | S754_finite _ m e => 8388608 <= Zpos m < 16777216 /\ -86 <= e <= 36
  | _ => False
  end.

Definition scalable3 (v : vec3) : Prop :=
  let '(x, y, z) := v in scalable x /\ scalable y /\ scalable z.

(** The mantissa of a square root: the integer root of [m * 2^sh],
    rounded up when the remainder says the root is above the midpoint. *)
Definition sqrt_mant (m : positive) (sh : Z) : Z :=
  let (q, r) := Z.sqrtrem (Zpos m * 2 ^ sh) in
  round_nearest_even q
    (if r =? 0 then loc_Exact else loc_Inexact (if r <=? q then Lt else Gt)).

(** A positive normal float with exponent field in [[lo, hi]]. *)
Definition normal_pos (lo hi : Z) (x : float) : Prop :=
  match x with
  | S754_finite false m e => 8388608 <= Zpos m < 16777216 /\ lo <= e <= hi
  | _ => False
  end.

Definition shift_exp3 (j : Z) (v : vec3) : vec3 :=
  let '(x, y, z) := v in (shift_exp j x, shift_exp j y, shift_exp j z).

(** [+0], or a positive normal float with exponent field up to [hi]. *)
Definition zero_or_normal (hi : Z) (x : float) : Prop :=
  x = F32.zero \/ normal_pos (-149) hi x.

(** ** Rounding errors, in real numbers *)

Definition bpow (e : Z) : R := powerRZ 2 e.

(** One unit in the last place of a normal float, relative to it, and
    the spacing of the subnormal floats: every rounding is off by at most
    [u32] times the exact value, or by at most [eta32]. *)
Definition u32 : R := bpow (-23).
Definition eta32 : R := bpow (-149).

(** The value of a float up to its sign. *)
Definition F2R_abs (x : float) : R :=
  match x with
  | S754_finite _ m e => (IZR (Zpos m) * bpow e)%R
  | _ => 0%R
  end.

(** A zero or a positive finite float. *)
Definition nonneg_finite (x : float) : Prop :=
  match x with
  | S754_zero _ | S754_finite false _ _ => True
  | _ => False
  end.

(** ** Vectors compared in real numbers *)

(** Every component is at most [r] in magnitude. *)
Definition within3 (v : vec3) (r : R) : Prop :=
  let '(x, y, z) := v in
  (Rabs (F2R x) <= r /\ Rabs (F2R y) <= r /\ Rabs (F2R z) <= r)%R.

(** The components of [a] and [b] differ by at most [eps]. *)
Definition close3 (a b : vec3) (eps : R) : Prop :=
  let '(a0, a1, a2) := a in
  let '(b0, b1, b2) := b in
  (Rabs (F2R a0 - F2R b0) <= eps /\ Rabs (F2R a1 - F2R b1) <= eps
   /\ Rabs (F2R a2 - F2R b2) <= eps)%R.

(** ** Notions for the further properties *)

(** The tolerance [v3_equals] compares with: the one it is given, made
    non-negative. *)
Definition abs_tol (t : float) : float :=
  if (t < F32.zero)%f32 then F32.neg t else t.

(** [v3_equals] on values. *)
Definition equals_val (a b : vec3) (t : float) : bool :=
  let '(a0, a1, a2) := a in
  let '(b0, b1, b2) := b in
  (F32.fabsf (a0 - b0) <= abs_tol t)%f32
  && (F32.fabsf (a1 - b1) <= abs_tol t)%f32
  && (F32.fabsf (a2 - b2) <= abs_tol t)%f32.

(** Componentwise [==]. *)
Definition eqb3 (a b : vec3) : bool :=
  let '(a0, a1, a2) := a in
  let '(b0, b1, b2) := b in
  (a0 == b0)%f32 && (a1 == b1)%f32 && (a2 == b2)%f32.

(** The sign bit of a float; the NaN of the model carries none. *)
Definition sign_bit (x : float) : bool :=
  match x with
  | S754_zero s | S754_infinity s | S754_finite s _ _ => s
  | S754_nan => false
  end.

Definition sign_bit3 (v : vec3) : bool * bool * bool :=
  let '(x, y, z) := v in (sign_bit x, sign_bit y, sign_bit z).

(** The cell at offset [o] of block [b] is one of the three of buffer [p]. *)
Definition in_buffer (p : ptr) (b : block) (o : Z) : Prop :=
  match p with
  | NULL => False
  | Ptr b' o' => b = b' /\ o' <= o < o' + 3
  end.

(** The diagnostic of a NULL argument. *)
Definition null_msg (fn : string) : string :=
  (fn ++ " received NULL pointer")%string.

(** A run that only printed the diagnostic [msg]. *)
Definition only_reports (msg : string) (st st' : state) : Prop :=
  heap st' = heap st /\ nextblock st' = nextblock st
  /\ stderr st' = stderr st ++ [error_line msg].

(** [x + 0.0f]: [x], but for [-0], which becomes [+0]. *)
Definition plus_zero (x : float) : float :=
  match x with
  | S754_zero _ => F32.zero
  | _ => x
  end.

(** Every component is below [2^-75] in magnitude: its square is less
    than half the least positive float. *)
Definition tiny3 (v : vec3) : bool :=
  let '(x, y, z) := v in
  (F32.fabsf x < pow2 (-75))%f32 && (F32.fabsf y < pow2 (-75))%f32
  && (F32.fabsf z < pow2 (-75))%f32.

(** * Proofs *)

Arguments F32.add : simpl never.
Arguments F32.sub : simpl never.
Arguments F32.mul : simpl never.
Arguments F32.div : simpl never.
Arguments F32.sqrtf : simpl never.
Arguments F32.eqb : simpl never.
Arguments F32.isfinite : simpl never.
Arguments upd : simpl never.

(** ** Memory *)

Lemma upd_same (h : heap_t) (b : block) (o : Z) (v : float) :
  upd h b o v b o = v.
Proof. unfold upd. now rewrite !Z.eqb_refl. Qed.

Lemma upd_other (h : heap_t) (b b' : block) (o o' : Z) (v : float) :
  b' <> b \/ o' <> o -> upd h b o v b' o' = h b' o'.
Proof.
  intros H. unfold upd.
  destruct (Z.eqb_spec b' b), (Z.eqb_spec o' o); simpl; try reflexivity.
  lia.
Qed.

Ltac upd_simpl :=
  repeat first
    [ rewrite upd_same
    | rewrite upd_other by (first [right; lia | left; lia | lia]) ].

Lemma load3_store3 (st : state) (b : block) (o : Z) (v : vec3) :
  load3 (exec (store3 (Ptr b o) v) st) (Ptr b o) = v.
Proof.
  destruct v as [[x y] z].
  unfold load3, store3, exec, eval, bind, store, load; simpl.
  replace (o + 0) with o by lia.
  now upd_simpl.
Qed.

Lemma load3_store3_separate (st : state) (dst p : ptr) (v : vec3) :
  separate dst p -> load3 (exec (store3 dst v) st) p = load3 st p.
Proof.
  destruct dst as [|b o], p as [|b' o']; simpl; try contradiction.
  intros H. destruct v as [[x y] z].
  unfold load3, store3, exec, eval, bind, store, load; simpl.
  destruct (Z.eq_dec b' b) as [->|Hb].
  - assert (o + 3 <= o' \/ o' + 3 <= o) by lia. now upd_simpl.
  - now rewrite !upd_other by (left; exact Hb).
Qed.

Lemma stderr_store3 (st : state) (dst : ptr) (v : vec3) :
  stderr (exec (store3 dst v) st) = stderr st.
Proof. destruct dst, v as [[x y] z]; reflexivity. Qed.

Lemma nextblock_store3 (st : state) (dst : ptr) (v : vec3) :
  nextblock (exec (store3 dst v) st) = nextblock st.
Proof. destruct dst, v as [[x y] z]; reflexivity. Qed.

Lemma load3_v3_error (st : state) (msg : string) (p : ptr) :
  load3 (exec (v3_error msg) st) p = load3 st p.
Proof. destruct p; reflexivity. Qed.

(** ** Each operation reads its sources before it writes *)

Lemma v3_from_points_exec (st : state) (dst a b : ptr) :
  dst <> NULL -> a <> NULL -> b <> NULL ->
  exec (v3_from_points dst a b) st
  = exec (store3 dst (from_points_val (load3 st a) (load3 st b))) st.
Proof. destruct dst, a, b; intros; try congruence; reflexivity. Qed.

Lemma v3_add_exec (st : state) (dst a b : ptr) :
  dst <> NULL -> a <> NULL -> b <> NULL ->
  exec (v3_add dst a b) st
  = exec (store3 dst (add_val (load3 st a) (load3 st b))) st.
Proof. destruct dst, a, b; intros; try congruence; reflexivity. Qed.

Lemma v3_subtract_exec (st : state) (dst a b : ptr) :
  dst <> NULL -> a <> NULL -> b <> NULL ->
  exec (v3_subtract dst a b) st
  = exec (store3 dst (subtract_val (load3 st a) (load3 st b))) st.
Proof. destruct dst, a, b; intros; try congruence; reflexivity. Qed.

Lemma v3_cross_product_exec (st : state) (dst a b : ptr) :
  dst <> NULL -> a <> NULL -> b <> NULL ->
  exec (v3_cross_product dst a b) st
  = exec (store3 dst (cross_val (load3 st a) (load3 st b))) st.
Proof. destruct dst, a, b; intros; try congruence; reflexivity. Qed.

Lemma v3_length_run (st : state) (a : ptr) :
  a <> NULL -> v3_length a st = (length_val (load3 st a), st).
Proof. destruct a; intros; try congruence; reflexivity. Qed.

Lemma v3_dot_product_run (st : state) (a b : ptr) :
  a <> NULL -> b <> NULL ->
  v3_dot_product a b st = (dot_val (load3 st a) (load3 st b), st).
Proof. destruct a, b; intros; try congruence; reflexivity. Qed.

Lemma v3_normalize_exec (st : state) (dst a : ptr) :
  dst <> NULL -> a <> NULL ->
  exec (v3_normalize dst a) st
  = exec (store3 dst (normalize_val (load3 st a)))
      (if degenerate (length_val (load3 st a))
       then exec (v3_error normalize_msg) st else st).
Proof.
  destruct dst as [|bd od], a as [|ba oa]; intros; try congruence.
  unfold v3_normalize, normalize_val, load3, eval, exec, bind, load; simpl.
  unfold degenerate, length_val.
  destruct (_ || _); reflexivity.
Qed.

Lemma run_unit (c : M unit) (st : state) : c st = (tt, exec c st).
Proof. unfold exec. now destruct (c st) as [[] st']. Qed.

(** ** [v3_reflect] *)

Lemma load3_other_block (st : state) (b : block) (o : Z) (v : vec3) (p : ptr) :
  valid_ptr st p -> nextblock st <= b ->
  load3 (exec (store3 (Ptr b o) v) st) p = load3 st p.
Proof.
  intros Hp Hb. apply load3_store3_separate.
  destruct p as [|b' o']; simpl in *; [contradiction | left; lia].
Qed.

Lemma v3_reflect_spec (st : state) (dst v n : ptr) :
  valid_ptr st dst -> valid_ptr st v -> valid_ptr st n ->
  same_or_separate dst v ->
  let st' := exec (v3_reflect dst v n) st in
  let nn := normalize_val (load3 st n) in
  load3 st' dst = reflect_val (load3 st v) (load3 st n)
  /\ stderr st'
     = stderr st
       ++ (if degenerate (length_val (load3 st n))
           then [error_line normalize_msg] else [])
       ++ (if degenerate (length_val nn) then [error_line reflect_msg] else []).
Proof.
  intros Hd Hv Hn Hsep.
  destruct dst as [|bd od], v as [|bv ov], n as [|bn on]; simpl in Hd, Hv, Hn;
    try contradiction.
  assert (Hcopy : (bd = bv /\ od = ov) \/ bd <> bv \/ od + 3 <= ov \/ ov + 3 <= od).
  { destruct Hsep as [E|S]; [inversion E; auto | right; exact S]. }
  clear Hsep.
  cbv zeta.
  unfold reflect_val, normalize_val, length_val, load3, eval, load, degenerate.
  cbn [fst snd].
  unfold v3_reflect, with_local, exec, v3_normalize, v3_length, bind, load, store, ret, v3_error.
  cbn -[Z.add Z.eqb String.append].
  set (len := F32.sqrtf _).
  destruct ((len == F32.zero)%f32 || negb (F32.isfinite len)) eqn:C1;
    cbn -[Z.add Z.eqb String.append]; upd_simpl;
    match goal with
    | |- context [negb (F32.isfinite ?l)] => set (len2 := l)
    end;
    destruct ((len2 == F32.zero)%f32 || negb (F32.isfinite len2)) eqn:C2;
    cbn -[Z.add Z.eqb String.append];
    (split;
     [ destruct Hcopy as [[-> ->]|Hcopy]; upd_simpl; try reflexivity
     | unfold error_line, normalize_msg, reflect_msg;
       rewrite <- ?app_assoc, ?app_nil_r; reflexivity ]).
  all: destruct (Z.eq_dec bd bv) as [->|Hb]; upd_simpl; try reflexivity.
Qed.

(** ** What a caller reads back from the destination *)

Lemma v3_from_points_result (st : state) (dst a b : ptr) :
  dst <> NULL -> a <> NULL -> b <> NULL ->
  load3 (exec (v3_from_points dst a b) st) dst
  = from_points_val (load3 st a) (load3 st b).
Proof.
  intros Hd Ha Hb. rewrite v3_from_points_exec by assumption.
  destruct dst; [congruence | apply load3_store3].
Qed.

Lemma v3_add_result (st : state) (dst a b : ptr) :
  dst <> NULL -> a <> NULL -> b <> NULL ->
  load3 (exec (v3_add dst a b) st) dst = add_val (load3 st a) (load3 st b).
Proof.
  intros Hd Ha Hb. rewrite v3_add_exec by assumption.
  destruct dst; [congruence | apply load3_store3].
Qed.

Lemma v3_subtract_result (st : state) (dst a b : ptr) :
  dst <> NULL -> a <> NULL -> b <> NULL ->
  load3 (exec (v3_subtract dst a b) st) dst
  = subtract_val (load3 st a) (load3 st b).
Proof.
  intros Hd Ha Hb. rewrite v3_subtract_exec by assumption.
  destruct dst; [congruence | apply load3_store3].
Qed.

Lemma v3_cross_product_result (st : state) (dst a b : ptr) :
  dst <> NULL -> a <> NULL -> b <> NULL ->
  load3 (exec (v3_cross_product dst a b) st) dst
  = cross_val (load3 st a) (load3 st b).
Proof.
  intros Hd Ha Hb. rewrite v3_cross_product_exec by assumption.
  destruct dst; [congruence | apply load3_store3].
Qed.

Lemma v3_normalize_result (st : state) (dst a : ptr) :
  dst <> NULL -> a <> NULL ->
  load3 (exec (v3_normalize dst a) st) dst = normalize_val (load3 st a).
Proof.
  intros Hd Ha. rewrite v3_normalize_exec by assumption.
  destruct dst; [congruence | apply load3_store3].
Qed.

Lemma v3_normalize_stderr (st : state) (dst a : ptr) :
  dst <> NULL -> a <> NULL ->
  stderr (exec (v3_normalize dst a) st)
  = stderr st ++ (if degenerate (length_val (load3 st a))
                  then [error_line normalize_msg] else []).
Proof.
  intros Hd Ha. rewrite v3_normalize_exec by assumption.
  rewrite stderr_store3.
  destruct (degenerate _); [reflexivity | now rewrite app_nil_r].
Qed.

Lemma valid_ptr_not_null (st : state) (p : ptr) : valid_ptr st p -> p <> NULL.
Proof. destruct p; simpl; [contradiction | discriminate]. Qed.

Create HintDb v3.
#[local] Hint Resolve valid_ptr_not_null : v3.

(** C1.  Overlap safety.  Take any call of [v3_from_points], [v3_add],
    [v3_subtract], [v3_cross_product], [v3_reflect] or [v3_normalize]
    whose destination is one of its source buffers, or both, or neither,
    and a second call on three distinct buffers whose sources hold the
    same values: the two destinations hold the same values afterwards. *)
Theorem overlap_safety (st st' : state) (dst a b dst' a' b' : ptr) :
  valid_ptr st dst -> valid_ptr st a -> valid_ptr st b ->
  valid_ptr st' dst' -> valid_ptr st' a' -> valid_ptr st' b' ->
  same_or_separate dst a -> same_or_separate dst b ->
  separate dst' a' -> separate dst' b' ->
  load3 st a = load3 st' a' -> load3 st b = load3 st' b' ->
  load3 (exec (v3_from_points dst a b) st) dst
  = load3 (exec (v3_from_points dst' a' b') st') dst'
  /\ load3 (exec (v3_add dst a b) st) dst
     = load3 (exec (v3_add dst' a' b') st') dst'
  /\ load3 (exec (v3_subtract dst a b) st) dst
     = load3 (exec (v3_subtract dst' a' b') st') dst'
  /\ load3 (exec (v3_cross_product dst a b) st) dst
     = load3 (exec (v3_cross_product dst' a' b') st') dst'
  /\ load3 (exec (v3_normalize dst a) st) dst
     = load3 (exec (v3_normalize dst' a') st') dst'
  /\ load3 (exec (v3_reflect dst a b) st) dst
     = load3 (exec (v3_reflect dst' a' b') st') dst'.
Proof.
  intros Hd Ha Hb Hd' Ha' Hb' Sa Sb Sa' Sb' Ea Eb.
  rewrite !v3_from_points_result, !v3_add_result, !v3_subtract_result,
    !v3_cross_product_result, !v3_normalize_result by eauto with v3.
  rewrite Ea, Eb.
  repeat (split; [reflexivity|]).
  destruct (v3_reflect_spec st dst a b) as [-> _]; try assumption.
  destruct (v3_reflect_spec st' dst' a' b') as [-> _]; try assumption.
  - right; assumption.
  - now rewrite Ea, Eb.
Qed.

(** The overlap test of [test_v3_cross_product]: [a = (1,0,0)],
    [y = (0,1,0)], destination [a] itself, against a call with a third
    buffer as destination. *)
Lemma overlap_safety_witness :
  let st := state_of [vec_of_Z 1 0 0; vec_of_Z 0 1 0] in
  let st' := state_of [vec_of_Z 1 0 0; vec_of_Z 0 1 0; vec_of_Z 7 7 7] in
  load3 (exec (v3_cross_product (Ptr 0 0) (Ptr 0 0) (Ptr 1 0)) st) (Ptr 0 0)
  = load3 (exec (v3_cross_product (Ptr 2 0) (Ptr 0 0) (Ptr 1 0)) st') (Ptr 2 0)
  /\ load3 (exec (v3_reflect (Ptr 0 0) (Ptr 0 0) (Ptr 1 0)) st) (Ptr 0 0)
     = load3 (exec (v3_reflect (Ptr 2 0) (Ptr 0 0) (Ptr 1 0)) st') (Ptr 2 0).
Proof.
  intros st st'.
  assert (H : valid_ptr st (Ptr 0 0) /\ valid_ptr st (Ptr 1 0)
              /\ valid_ptr st' (Ptr 2 0) /\ valid_ptr st' (Ptr 0 0)
              /\ valid_ptr st' (Ptr 1 0)) by (simpl; lia).
  destruct H as (V0 & V1 & V2' & V0' & V1').
  assert (S01 : same_or_separate (Ptr 0 0) (Ptr 1 0)) by (right; left; lia).
  assert (S20 : separate (Ptr 2 0) (Ptr 0 0)) by (left; lia).
  assert (S21 : separate (Ptr 2 0) (Ptr 1 0)) by (left; lia).
  destruct (overlap_safety st st' (Ptr 0 0) (Ptr 0 0) (Ptr 1 0)
              (Ptr 2 0) (Ptr 0 0) (Ptr 1 0) V0 V0 V1 V2' V0' V1'
              (or_introl eq_refl) S01 S20 S21 eq_refl eq_refl)
    as (_ & _ & _ & Hc & _ & Hr).
  split; assumption.
Defined.

(** C7.  [v3_from_points(dst, a, b)] and [v3_subtract(dst, b, a)] leave
    the same memory behind, whatever the pointers; on buffers that exist
    both leave [b - a], component by component, in [dst]. *)
Theorem from_points_is_subtract (st : state) (dst a b : ptr) :
  heap (exec (v3_from_points dst a b) st) = heap (exec (v3_subtract dst b a) st)
  /\ (dst <> NULL -> a <> NULL -> b <> NULL ->
      load3 (exec (v3_from_points dst a b) st) dst
      = load3 (exec (v3_subtract dst b a) st) dst
      /\ load3 (exec (v3_subtract dst b a) st) dst
         = subtract_val (load3 st b) (load3 st a)).
Proof.
  split.
  - destruct dst, a, b; reflexivity.
  - intros Hd Ha Hb.
    rewrite v3_from_points_result, v3_subtract_result by assumption.
    destruct (load3 st a) as [[ax ay] az], (load3 st b) as [[bx by_] bz].
    split; reflexivity.
Qed.

(** The fixture of [test_v3_from_points]: [a = (1,2,3)], [b = (4,6,3)],
    displacement [(3,4,0)]. *)
Lemma from_points_is_subtract_witness :
  let st := state_of [vec_of_Z 1 2 3; vec_of_Z 4 6 3; vec_of_Z 0 0 0] in
  load3 (exec (v3_from_points (Ptr 2 0) (Ptr 0 0) (Ptr 1 0)) st) (Ptr 2 0)
  = load3 (exec (v3_subtract (Ptr 2 0) (Ptr 1 0) (Ptr 0 0)) st) (Ptr 2 0)
  /\ load3 (exec (v3_subtract (Ptr 2 0) (Ptr 1 0) (Ptr 0 0)) st) (Ptr 2 0)
     = subtract_val (vec_of_Z 4 6 3) (vec_of_Z 1 2 3).
Proof.
  intros st.
  exact (proj2 (from_points_is_subtract st (Ptr 2 0) (Ptr 0 0) (Ptr 1 0))
           ltac:(discriminate) ltac:(discriminate) ltac:(discriminate)).
Defined.

(** ** Special values through the arithmetic *)

Lemma add_nonfinite_l (x y : float) :
  F32.isfinite x = false -> F32.isfinite (x + y)%f32 = false.
Proof.
  unfold F32.isfinite, F32.add.
  destruct x as [| [] | |], y as [| [] | |]; simpl; congruence.
Qed.

Lemma add_nonfinite_r (x y : float) :
  F32.isfinite y = false -> F32.isfinite (x + y)%f32 = false.
Proof.
  unfold F32.isfinite, F32.add.
  destruct x as [| [] | |], y as [| [] | |]; simpl; congruence.
Qed.

Lemma mul_self_nonfinite (x : float) :
  F32.isfinite x = false -> F32.isfinite (x * x)%f32 = false.
Proof.
  unfold F32.isfinite, F32.mul, F32.sqrtf.
  destruct x as [| [] | |]; simpl; congruence.
Qed.

Lemma sqrtf_nonfinite (x : float) :
  F32.isfinite x = false -> F32.isfinite (F32.sqrtf x) = false.
Proof.
  unfold F32.isfinite, F32.mul, F32.sqrtf.
  destruct x as [| [] | |]; simpl; congruence.
Qed.

Lemma length_val_nonfinite (v : vec3) :
  has_nonfinite v = true -> F32.isfinite (length_val v) = false.
Proof.
  destruct v as [[x y] z]. unfold has_nonfinite, length_val. intros H.
  apply sqrtf_nonfinite.
  apply orb_true_iff in H. destruct H as [H|H].
  - apply add_nonfinite_l. apply orb_true_iff in H. destruct H as [H|H].
    + apply add_nonfinite_l, mul_self_nonfinite. now apply negb_true_iff.
    + apply add_nonfinite_r, mul_self_nonfinite. now apply negb_true_iff.
  - apply add_nonfinite_r, mul_self_nonfinite. now apply negb_true_iff.
Qed.

Lemma length_val_zero3 (v : vec3) :
  is_zero3 v = true -> length_val v = F32.zero \/ length_val v = S754_zero true.
Proof.
  destruct v as [[x y] z].
  destruct x as [[]| | |], y as [[]| | |], z as [[]| | |]; simpl;
    try discriminate; intros _; vm_compute; auto.
Qed.

Lemma degenerate_zero3 (v : vec3) :
  is_zero3 v = true -> degenerate (length_val v) = true.
Proof.
  intros H. destruct (length_val_zero3 v H) as [-> | ->]; reflexivity.
Qed.

Lemma degenerate_nonfinite (v : vec3) :
  has_nonfinite v = true -> degenerate (length_val v) = true.
Proof.
  intros H. unfold degenerate.
  rewrite (length_val_nonfinite v H). apply orb_true_r.
Qed.

Lemma normalize_val_degenerate (v : vec3) :
  degenerate (length_val v) = true -> normalize_val v = zero3.
Proof.
  destruct v as [[x y] z]. unfold normalize_val. now intros ->.
Qed.

(** C2.  When the length of the source is zero or not finite -- the
    vector is all zeros, or has an infinite or NaN component, or the
    length [v3_length] computes for it is zero, infinite or NaN --
    [v3_normalize] returns, prints its diagnostic and leaves
    [(0,0,0)] in the destination. *)
Theorem normalize_degenerate (st : state) (dst a : ptr) :
  dst <> NULL -> a <> NULL ->
  is_zero3 (load3 st a) = true
  \/ has_nonfinite (load3 st a) = true
  \/ degenerate (eval (v3_length a) st) = true ->
  let st' := exec (v3_normalize dst a) st in
  load3 st' dst = zero3
  /\ stderr st' = stderr st ++ [error_line normalize_msg].
Proof.
  intros Hd Ha H st'.
  assert (D : degenerate (length_val (load3 st a)) = true).
  { destruct H as [H | [H | H]].
    - now apply degenerate_zero3.
    - now apply degenerate_nonfinite.
    - unfold eval in H. now rewrite v3_length_run in H. }
  subst st'. split.
  - rewrite v3_normalize_result by assumption.
    now apply normalize_val_degenerate.
  - rewrite v3_normalize_stderr by assumption. now rewrite D.
Qed.

(** [test_v3_normalize]: the zero vector is normalised to the zero
    vector. *)
Lemma normalize_degenerate_witness :
  let st := state_of [vec_of_Z 0 0 0; vec_of_Z 5 5 5] in
  load3 (exec (v3_normalize (Ptr 1 0) (Ptr 0 0)) st) (Ptr 1 0) = zero3
  /\ stderr (exec (v3_normalize (Ptr 1 0) (Ptr 0 0)) st)
     = [error_line normalize_msg].
Proof.
  intros st.
  exact (normalize_degenerate st (Ptr 1 0) (Ptr 0 0)
           ltac:(discriminate) ltac:(discriminate) (or_introl eq_refl)).
Defined.

(** C3.  When the normal has a zero or non-finite length, or in any
    other way normalises to a vector of zeros, [v3_reflect] returns,
    prints its diagnostic and leaves [v] as it was in the destination. *)
Theorem reflect_degenerate_normal (st : state) (dst v n : ptr) :
  valid_ptr st dst -> valid_ptr st v -> valid_ptr st n ->
  same_or_separate dst v ->
  degenerate (eval (v3_length n) st) = true
  \/ is_zero3 (normalize_val (load3 st n)) = true ->
  let st' := exec (v3_reflect dst v n) st in
  load3 st' dst = load3 st v
  /\ stderr st'
     = stderr st
       ++ (if degenerate (eval (v3_length n) st)
           then [error_line normalize_msg] else [])
       ++ [error_line reflect_msg].
Proof.
  intros Hd Hv Hn Hs H st'.
  assert (L : eval (v3_length n) st = length_val (load3 st n)).
  { unfold eval. rewrite v3_length_run; eauto with v3. }
  rewrite L in *.
  assert (D : degenerate (length_val (normalize_val (load3 st n))) = true).
  { apply degenerate_zero3. destruct H as [H | H]; [|exact H].
    now rewrite normalize_val_degenerate. }
  destruct (v3_reflect_spec st dst v n Hd Hv Hn Hs) as [R E].
  subst st'. split.
  - rewrite R. unfold reflect_val. now rewrite D.
  - rewrite E. now rewrite D.
Qed.

Lemma reflect_degenerate_normal_witness :
  let st := state_of [vec_of_Z 1 (-1) 0; vec_of_Z 0 0 0; vec_of_Z 9 9 9] in
  load3 (exec (v3_reflect (Ptr 2 0) (Ptr 0 0) (Ptr 1 0)) st) (Ptr 2 0)
  = vec_of_Z 1 (-1) 0
  /\ stderr (exec (v3_reflect (Ptr 2 0) (Ptr 0 0) (Ptr 1 0)) st)
     = [error_line normalize_msg; error_line reflect_msg].
Proof.
  intros st.
  assert (V : valid_ptr st (Ptr 2 0) /\ valid_ptr st (Ptr 0 0)
              /\ valid_ptr st (Ptr 1 0)) by (simpl; lia).
  destruct V as (V2 & V0 & V1).
  assert (S : same_or_separate (Ptr 2 0) (Ptr 0 0)) by (right; left; lia).
  exact (reflect_degenerate_normal st (Ptr 2 0) (Ptr 0 0) (Ptr 1 0)
           V2 V0 V1 S (or_introl eq_refl)).
Defined.

(** ** Failure of [v3_angle_quick] and [v3_angle] *)

Lemma v3_angle_quick_run (st : state) (a b : ptr) :
  a <> NULL -> b <> NULL ->
  v3_angle_quick a b st
  = if degenerate (length_val (load3 st a))
       || degenerate (length_val (load3 st b))
    then (F32.NAN, exec (v3_error angle_quick_msg) st)
    else (angle_quick_val (load3 st a) (load3 st b), st).
Proof.
  destruct a as [|ba oa], b as [|bb ob]; intros; try congruence.
  unfold v3_angle_quick, angle_quick_val. simpl (negb _ || _). cbv iota.
  unfold bind. rewrite !v3_length_run by discriminate.
  unfold degenerate.
  set (la := length_val _). set (lb := length_val _).
  replace ((la == F32.zero)%f32 || negb (F32.isfinite la)
           || ((lb == F32.zero)%f32 || negb (F32.isfinite lb)))
    with ((la == F32.zero)%f32 || (lb == F32.zero)%f32
          || negb (F32.isfinite la) || negb (F32.isfinite lb))
    by (destruct (la == F32.zero)%f32, (lb == F32.zero)%f32,
          (F32.isfinite la), (F32.isfinite lb); reflexivity).
  destruct (_ || _ || _ || _); [reflexivity|].
  now rewrite v3_dot_product_run by discriminate.
Qed.

Section Angle.

Variable acosf : float -> float.

(** C4.  Whenever [v3_angle_quick] returns its failure value NaN,
    [v3_angle] returns NaN as well, in the state [v3_angle_quick]
    left; the result does not go through [acosf], whatever [acosf]
    would make of a NaN. *)
Theorem angle_propagates_failure (st : state) (a b : ptr) :
  F32.isnan (eval (v3_angle_quick a b) st) = true ->
  v3_angle acosf a b st = (F32.NAN, exec (v3_angle_quick a b) st).
Proof.
  unfold v3_angle, bind, eval, exec.
  destruct (v3_angle_quick a b st) as [cosv st1]. simpl.
  destruct cosv; simpl; intros H; try discriminate. reflexivity.
Qed.

End Angle.

(** The angle with the zero vector: [v3_angle_quick] fails, and so does
    [v3_angle], here with an [acosf] that would answer 1 on any input. *)
Lemma angle_propagates_failure_witness :
  let st := state_of [vec_of_Z 1 0 0; vec_of_Z 0 0 0] in
  F32.isnan (eval (v3_angle_quick (Ptr 0 0) (Ptr 1 0)) st) = true
  /\ v3_angle (fun _ => F32.one) (Ptr 0 0) (Ptr 1 0) st
     = (F32.NAN, exec (v3_angle_quick (Ptr 0 0) (Ptr 1 0)) st).
Proof.
  intros st. split.
  - reflexivity.
  - exact (angle_propagates_failure (fun _ => F32.one) st (Ptr 0 0) (Ptr 1 0)
             eq_refl).
Defined.

(** ** [v3_equals] and NaN *)

Lemma close_nan (x y t : float) :
  F32.isnan x = true \/ F32.isnan y = true ->
  (F32.fabsf (x - y) <= t)%f32 = false.
Proof.
  unfold F32.isnan, F32.fabsf, F32.sub, F32.leb.
  destruct x as [| | |], y as [| | |]; simpl; intros [H|H];
    try discriminate; reflexivity.
Qed.

(** C9.  [v3_equals] answers false as soon as one of the six compared
    components is a NaN, for every tolerance; so a vector with a NaN
    component is not equal to itself. *)
Theorem equals_rejects_nan (st : state) (a b : ptr) (tol : float) :
  (has_nan (load3 st a) || has_nan (load3 st b) = true ->
   eval (v3_equals a b tol) st = false)
  /\ (has_nan (load3 st a) = true -> eval (v3_equals a a tol) st = false).
Proof.
  assert (G : forall p q, has_nan (load3 st p) || has_nan (load3 st q) = true ->
                     eval (v3_equals p q tol) st = false).
  { intros [|bp op] [|bq oq]; try reflexivity.
    unfold has_nan, load3, v3_equals, eval, bind, load, ret.
    cbn -[Z.add F32.isnan F32.fabsf F32.leb F32.ltb F32.neg].
    set (t := if (tol < F32.zero)%f32 then _ else _).
    intros H.
    repeat (apply orb_true_iff in H; destruct H as [H|H]);
      match type of H with
      | F32.isnan ?c = true =>
          match goal with
          | |- context [(F32.fabsf (c - ?d) <= t)%f32] =>
              rewrite (close_nan c d t (or_introl H))
          | |- context [(F32.fabsf (?d - c) <= t)%f32] =>
              rewrite (close_nan d c t (or_intror H))
          end
      end;
      rewrite ?andb_false_r; reflexivity. }
  split.
  - apply G.
  - intros H. apply G. now rewrite H.
Qed.

Lemma equals_rejects_nan_witness :
  let st := state_of [(F32.one, F32.NAN, F32.zero)] in
  has_nan (load3 st (Ptr 0 0)) = true
  /\ eval (v3_equals (Ptr 0 0) (Ptr 0 0) F32.pinf) st = false.
Proof.
  intros st. split.
  - reflexivity.
  - exact (proj2 (equals_rejects_nan st (Ptr 0 0) (Ptr 0 0) F32.pinf) eq_refl).
Defined.

(** ** Overflow of the squares *)

Lemma F2R_int (s : bool) (m : positive) (e : Z) :
  0 <= e -> F2R (S754_finite s m e) = IZR (cond_Zopp s (Zpos m) * 2 ^ e).
Proof.
  intros He. unfold F2R. rewrite mult_IZR. f_equal.
  rewrite <- (Z2Nat.id e He) at 1. rewrite <- pow_powerRZ.
  change 2%R with (IZR 2). rewrite pow_IZR. now rewrite Z2Nat.id.
Qed.

(** C10.  [v3_length] squares in single precision: on
    [(3*2^100, 4*2^100, 12*2^100)], whose components are finite and
    whose Euclidean norm [13*2^100] is a finite float, already the first
    square is [+infinity], and so is the length returned. *)
Theorem length_overflows :
  exists x y z r : float,
    valid3 (x, y, z) = true /\ finite3 (x, y, z) = true
    /\ F32.valid r = true /\ F32.isfinite r = true
    /\ (0 <= F2R r)%R
    /\ (F2R r * F2R r = F2R x * F2R x + F2R y * F2R y + F2R z * F2R z)%R
    /\ (x * x)%f32 = F32.pinf
    /\ v3_length (Ptr 0 0) (state_of [(x, y, z)])
       = (F32.pinf, state_of [(x, y, z)]).
Proof.
  exists (S754_finite false 12582912 78), (S754_finite false 8388608 79),
    (S754_finite false 12582912 80), (S754_finite false 13631488 80).
  repeat split; try reflexivity.
  - rewrite F2R_int by lia. apply IZR_le. vm_compute. discriminate.
  - rewrite !F2R_int by lia. rewrite <- !mult_IZR, <- !plus_IZR.
    f_equal.
Qed.

(** ** Where the squares overflow, the policies take over *)

(** C5, as stated, fails: [a = (2^64, 0, 0)] and [b = (1, 0, 0)] have
    finite components and nonzero lengths, but [a[0]*a[0]] overflows, the
    computed length of [a] is [+infinity], and [v3_angle_quick] prints
    its diagnostic and returns NaN, which is not in [[-1, 1]]. *)
Lemma angle_quick_bounds_counterexample :
  let st := state_of [(pow2 64, F32.zero, F32.zero); vec_of_Z 1 0 0] in
  let a := Ptr 0 0 in
  let b := Ptr 1 0 in
  valid3 (load3 st a) = true /\ valid3 (load3 st b) = true
  /\ finite3 (load3 st a) = true /\ finite3 (load3 st b) = true
  /\ (eval (v3_length a) st == F32.zero)%f32 = false
  /\ (eval (v3_length b) st == F32.zero)%f32 = false
  /\ is_zero3 (load3 st a) = false /\ is_zero3 (load3 st b) = false
  /\ eval (v3_angle_quick a b) st = F32.NAN
  /\ between F32.neg_one F32.one (eval (v3_angle_quick a b) st) = false.
Proof.
  cbv zeta. repeat split; reflexivity.
Qed.

(** C6, as stated, fails on the same vector: [v3_normalize] takes
    [(2^64, 0, 0)] for a vector without a finite length and answers
    [(0, 0, 0)], whose length is 0, not 1. *)
Lemma normalize_unit_counterexample :
  let st := state_of [(pow2 64, F32.zero, F32.zero); vec_of_Z 0 0 0] in
  let v := Ptr 0 0 in
  let dst := Ptr 1 0 in
  let len := eval (v3_normalize dst v ;; v3_length dst) st in
  valid3 (load3 st v) = true /\ finite3 (load3 st v) = true
  /\ (eval (v3_length v) st == F32.zero)%f32 = false
  /\ is_zero3 (load3 st v) = false
  /\ len = F32.zero
  /\ (F32.fabsf (len - F32.one) <= tol_1e_4)%f32 = false
  /\ ~ (Rabs (F2R len - 1) <= 1 / 10000)%R.
Proof.
  cbv zeta. repeat split; try reflexivity.
  change (eval _ _) with F32.zero. simpl F2R. intros H.
  unfold Rabs in H. destruct (Rcase_abs (0 - 1)) in H; lra.
Qed.

(** C8, as stated, fails: with [v = (0,-1,0)], [n = (0,1,0)] and
    [k = 2^64 > 0], the scaled normal [(0, 2^64, 0)] has no finite
    computed length, [v3_reflect] falls back to [v], and the two results
    are [(0,1,0)] and [(0,-1,0)]. *)
Lemma reflect_scale_counterexample :
  let st := state_of [vec_of_Z 0 (-1) 0; vec_of_Z 0 1 0; vec_of_Z 0 0 0] in
  let v := Ptr 0 0 in
  let n := Ptr 1 0 in
  let dst := Ptr 2 0 in
  let k := pow2 64 in
  (F32.zero < k)%f32 = true
  /\ load3 (exec (v3_reflect dst v n) st) dst = vec_of_Z 0 1 0
  /\ load3 (exec (v3_scale n k ;; v3_reflect dst v n) st) dst = vec_of_Z 0 (-1) 0
  /\ load3 (exec (v3_scale n k ;; v3_reflect dst v n) st) dst
     <> load3 (exec (v3_reflect dst v n) st) dst.
Proof.
  cbv zeta. repeat split; try reflexivity.
  vm_compute. discriminate.
Qed.

(** Away from overflow the two results still differ in the last bits when
    the scale is not a power of two: [v = (1,2,3)], [n = (1,1,0)],
    [k = 3]. *)
Lemma reflect_scale_rounding :
  let st := state_of [vec_of_Z 1 2 3; vec_of_Z 1 1 0; vec_of_Z 0 0 0] in
  let v := Ptr 0 0 in
  let n := Ptr 1 0 in
  let dst := Ptr 2 0 in
  load3 (exec (v3_reflect dst v n) st) dst
  = (S754_finite true 16777214 (-23), S754_finite true 16777212 (-24),
     S754_finite false 12582912 (-22))
  /\ load3 (exec (v3_scale n (of_Z 3) ;; v3_reflect dst v n) st) dst
     = (S754_finite true 8388610 (-22), S754_finite true 8388612 (-23),
        S754_finite false 12582912 (-22)).
Proof. cbv zeta. split; reflexivity. Qed.

(** Underflow breaks the property as well: for [v = (14000000 * 2^-98, 0, 0)],
    about [4.4e-23], the square is rounded to the subnormal [2^-149], the
    computed length is finite and not zero, and the normalised vector has
    length about 1.18. *)
Lemma normalize_unit_underflow :
  let st := state_of [(S754_finite false 14000000 (-98), F32.zero, F32.zero);
                      vec_of_Z 0 0 0] in
  let v := Ptr 0 0 in
  let dst := Ptr 1 0 in
  let len := eval (v3_normalize dst v ;; v3_length dst) st in
  valid3 (load3 st v) = true
  /\ degenerate (eval (v3_length v) st) = false
  /\ len = S754_finite false 9899495 (-23)
  /\ (F32.fabsf (len - F32.one) <= tol_1e_4)%f32 = false.
Proof. cbv zeta. repeat split; reflexivity. Qed.

(** Underflow breaks C8 as well, with nothing reported: for
    [n = (14000000 * 2^-24, 0, 0)], about 0.83, and [k = 2^-74] the square
    of the scaled component is rounded to the subnormal [2^-149], its
    computed length, about [2^-74.5], is finite and not zero, the
    normalised normal has length about 1.18, and [v = (1,0,0)] is
    reflected to about [(-1.785, 0, 0)] instead of [(-1, 0, 0)]. *)
Lemma reflect_scale_underflow :
  let st := state_of [vec_of_Z 1 0 0;
                      (S754_finite false 14000000 (-24), F32.zero, F32.zero);
                      vec_of_Z 0 0 0] in
  let v := Ptr 0 0 in
  let n := Ptr 1 0 in
  let dst := Ptr 2 0 in
  let k := pow2 (-74) in
  (F32.zero < k)%f32 = true
  /\ load3 (exec (v3_reflect dst v n) st) dst = vec_of_Z (-1) 0 0
  /\ eval (v3_scale n k ;; v3_length n) st = min_len
  /\ load3 (exec (v3_scale n k ;; v3_reflect dst v n) st) dst
     = (S754_finite true 14976414 (-23), F32.zero, F32.zero)
  /\ stderr (exec (v3_scale n k ;; v3_reflect dst v n) st) = [].
Proof. cbv zeta. repeat split; reflexivity. Qed.

(** The last-bit differences grow with [v]: for [v = 2^30 * (1,2,3)],
    [n = (1,1,0)] and [k = 3] the first components of the two results
    are 768 apart, so no tolerance that ignores the size of [v] fits. *)
Lemma reflect_scale_large :
  let st := state_of [(pow2 30, pow2 31, S754_finite false 12582912 8);
                      vec_of_Z 1 1 0; vec_of_Z 0 0 0] in
  let v := Ptr 0 0 in
  let n := Ptr 1 0 in
  let dst := Ptr 2 0 in
  load3 (exec (v3_reflect dst v n) st) dst
  = (S754_finite true 16777214 7, S754_finite true 16777212 6,
     S754_finite false 12582912 8)
  /\ load3 (exec (v3_scale n (of_Z 3) ;; v3_reflect dst v n) st) dst
     = (S754_finite true 8388610 8, S754_finite true 8388612 7,
        S754_finite false 12582912 8)
  /\ (F2R (S754_finite true 16777214 7) - F2R (S754_finite true 8388610 8)
      = 768)%R.
Proof.
  cbv zeta. repeat split; try reflexivity.
  simpl. lra.
Qed.

(** Overflow inside the reflection itself: for [v = (11863283 * 2^104, 0, 0)],
    about [2^127.5], and [n = (1,1,0)] the product [2 * (v . nn)] is the
    largest float, and the result is finite; with [n] scaled by 3 the
    normalised normal is one unit in the last place larger, the product
    overflows, and the result is [(-inf, -inf, NaN)]. *)
Lemma reflect_scale_overflow :
  let st := state_of [(S754_finite false 11863283 104, F32.zero, F32.zero);
                      vec_of_Z 1 1 0; vec_of_Z 0 0 0] in
  let v := Ptr 0 0 in
  let n := Ptr 1 0 in
  let dst := Ptr 2 0 in
  load3 (exec (v3_reflect dst v n) st) dst
  = (pow2 104, S754_finite true 11863282 104, F32.zero)
  /\ load3 (exec (v3_scale n (of_Z 3) ;; v3_reflect dst v n) st) dst
     = (S754_infinity true, S754_infinity true, F32.NAN)
  /\ stderr (exec (v3_scale n (of_Z 3) ;; v3_reflect dst v n) st) = [].
Proof. cbv zeta. repeat split; reflexivity. Qed.

(** ** Rounding to binary32 *)

Lemma fexp32_eq (x : Z) : fexp32 x = Z.max (x - 24) (-149).
Proof. reflexivity. Qed.

Lemma digits2_pos_bounds (p : positive) :
  2 ^ (Zpos (digits2_pos p) - 1) <= Zpos p < 2 ^ Zpos (digits2_pos p).
Proof.
  induction p as [p IH | p IH |]; simpl digits2_pos;
    try (rewrite Pos2Z.inj_succ;
         set (d := Zpos (digits2_pos p)) in *;
         assert (E : 2 ^ d = 2 * 2 ^ (d - 1))
           by (rewrite <- Z.pow_succ_r by lia; f_equal; lia);
         replace (Z.succ d - 1) with d by lia;
         rewrite Z.pow_succ_r by lia; lia).
  simpl. lia.
Qed.

Lemma Zdigits2_bounds (m : Z) :
  0 < m -> 2 ^ (Zdigits2 m - 1) <= m < 2 ^ Zdigits2 m.
Proof.
  destruct m as [|p|p]; try lia. intros _. apply digits2_pos_bounds.
Qed.

Lemma Zdigits2_pos (m : Z) : 0 < m -> 0 < Zdigits2 m.
Proof. destruct m; simpl; lia. Qed.

Lemma Zdigits2_unique (m d : Z) :
  2 ^ (d - 1) <= m < 2 ^ d -> 0 < d -> Zdigits2 m = d.
Proof.
  intros [Hl Hu] Hd.
  assert (Hm : 0 < m) by (pose proof (Z.pow_pos_nonneg 2 (d - 1)); lia).
  destruct (Zdigits2_bounds m Hm) as [Bl Bu].
  pose proof (Zdigits2_pos m Hm) as Dp.
  destruct (Z.lt_trichotomy (Zdigits2 m) d) as [T | [T | T]]; [|exact T|].
  - assert (2 ^ Zdigits2 m <= 2 ^ (d - 1)) by (apply Z.pow_le_mono_r; lia). lia.
  - assert (2 ^ d <= 2 ^ (Zdigits2 m - 1)) by (apply Z.pow_le_mono_r; lia). lia.
Qed.

Lemma Zdigits2_le (m d : Z) : 0 < m -> m < 2 ^ d -> 0 <= d -> Zdigits2 m <= d.
Proof.
  intros Hm Hu Hd. destruct (Zdigits2_bounds m Hm) as [Bl _].
  pose proof (Zdigits2_pos m Hm).
  destruct (Z_le_gt_dec (Zdigits2 m) d) as [T|T]; [exact T|].
  assert (2 ^ d <= 2 ^ (Zdigits2 m - 1)) by (apply Z.pow_le_mono_r; lia). lia.
Qed.

Lemma Zdigits2_ge (m d : Z) : 2 ^ (d - 1) <= m -> 0 < d -> d <= Zdigits2 m.
Proof.
  intros Hl Hd.
  assert (Hm : 0 < m) by (pose proof (Z.pow_pos_nonneg 2 (d - 1)); lia).
  destruct (Zdigits2_bounds m Hm) as [_ Bu].
  destruct (Z_le_gt_dec d (Zdigits2 m)) as [T|T]; [exact T|].
  assert (2 ^ Zdigits2 m <= 2 ^ (d - 1)) by (apply Z.pow_le_mono_r; lia). lia.
Qed.

Lemma shr_1_m (mrs : shr_record) :
  0 <= shr_m mrs -> shr_m (shr_1 mrs) = shr_m mrs / 2.
Proof.
  destruct mrs as [m r s]; simpl.
  destruct m as [|[p|p|]|p]; intros H; try lia; try reflexivity;
    rewrite <- Z.div2_div; reflexivity.
Qed.

Lemma iter_pos_shr_1_m (p : positive) (mrs : shr_record) :
  0 <= shr_m mrs ->
  shr_m (SpecFloat.iter_pos shr_1 p mrs) = shr_m mrs / 2 ^ Zpos p.
Proof.
  revert mrs. induction p as [p IH | p IH |]; intros mrs H; simpl SpecFloat.iter_pos.
  - assert (H1 : 0 <= shr_m (shr_1 mrs))
      by (rewrite shr_1_m by assumption; apply Z.div_pos; lia).
    assert (H2 : 0 <= shr_m (SpecFloat.iter_pos shr_1 p (shr_1 mrs)))
      by (rewrite IH by assumption; apply Z.div_pos; lia).
    rewrite IH, IH, shr_1_m by assumption.
    rewrite !Z.div_div by lia. f_equal.
    replace (Zpos p~1) with (1 + Zpos p + Zpos p) by lia.
    rewrite !Z.pow_add_r by lia. change (2 ^ 1) with 2. ring.
  - assert (H2 : 0 <= shr_m (SpecFloat.iter_pos shr_1 p mrs))
      by (rewrite IH by assumption; apply Z.div_pos; lia).
    rewrite IH, IH by assumption.
    rewrite !Z.div_div by lia. f_equal.
    replace (Zpos p~0) with (Zpos p + Zpos p) by lia.
    rewrite !Z.pow_add_r by lia. change (2 ^ 1) with 2. ring.
  - now apply shr_1_m.
Qed.

Lemma shr_spec (mrs : shr_record) (e n : Z) :
  0 <= shr_m mrs ->
  shr_m (fst (shr mrs e n)) = shr_m mrs / 2 ^ Z.max 0 n
  /\ snd (shr mrs e n) = e + Z.max 0 n.
Proof.
  intros H. destruct n as [|p|p]; simpl.
  - rewrite Z.div_1_r. lia.
  - rewrite iter_pos_shr_1_m by assumption. split; reflexivity.
  - rewrite Z.div_1_r. lia.
Qed.

Lemma round_nearest_even_cases (m : Z) (l : location) :
  round_nearest_even m l = m \/ round_nearest_even m l = m + 1.
Proof.
  destruct l as [|[]]; simpl; auto. destruct (Z.even m); auto.
Qed.

Lemma shr_m_of_loc (m : Z) (l : location) : shr_m (shr_record_of_loc m l) = m.
Proof. destruct l as [|[]]; reflexivity. Qed.

Lemma loc_of_shr_of_loc (m : Z) (l : location) :
  loc_of_shr_record (shr_record_of_loc m l) = l.
Proof. destruct l as [|[]]; reflexivity. Qed.

Lemma shr_fst_indep (mrs : shr_record) (e e' n : Z) :
  fst (shr mrs e n) = fst (shr mrs e' n).
Proof. destruct n; reflexivity. Qed.

Lemma rnd_shift_cases (m : Z) (l : location) (n : Z) :
  0 <= m ->
  rnd_shift m l n = m / 2 ^ Z.max 0 n \/ rnd_shift m l n = m / 2 ^ Z.max 0 n + 1.
Proof.
  intros Hm. unfold rnd_shift.
  destruct (shr_spec (shr_record_of_loc m l) 0 n) as [M _];
    [rewrite shr_m_of_loc; exact Hm|].
  rewrite shr_m_of_loc in M. rewrite <- M.
  apply round_nearest_even_cases.
Qed.

Lemma rnd_shift_noshift (m : Z) (l : location) (n : Z) :
  n <= 0 -> rnd_shift m l n = round_nearest_even m l.
Proof.
  intros Hn. unfold rnd_shift.
  destruct n; try lia; simpl; now rewrite shr_m_of_loc, loc_of_shr_of_loc.
Qed.

Lemma rnd_shift_nonneg (m : Z) (l : location) (n : Z) :
  0 <= m -> 0 <= rnd_shift m l n.
Proof.
  intros Hm.
  assert (0 <= m / 2 ^ Z.max 0 n) by (apply Z.div_pos; lia).
  destruct (rnd_shift_cases m l n Hm); lia.
Qed.

(** The two steps of [binary_round_aux]: drop the bits below the
    exponent of the format and round to a neighbour; drop one more bit
    if the rounding carried. *)
Lemma bra_eq (s : bool) (m e : Z) (l : location) :
  0 <= m ->
  bra s m e l
  = let n1 := fexp32 (Zdigits2 m + e) - e in
    let e1 := e + Z.max 0 n1 in
    let m1 := rnd_shift m l n1 in
    let e2 := Z.max e1 (fexp32 (Zdigits2 m1 + e1)) in
    bra_result s (m1 / 2 ^ (e2 - e1)) e2.
Proof.
  intros Hm. cbv zeta.
  unfold bra, binary_round_aux, shr_fexp.
  fold fexp32.
  set (n1 := fexp32 (Zdigits2 m + e) - e).
  unfold rnd_shift.
  rewrite (shr_fst_indep _ 0 e).
  destruct (shr_spec (shr_record_of_loc m l) e n1) as [M1 E1];
    [rewrite shr_m_of_loc; exact Hm|].
  destruct (shr (shr_record_of_loc m l) e n1) as [mrs1 e1] eqn:S1.
  simpl in M1, E1. rewrite shr_m_of_loc in M1. simpl fst.
  rewrite <- E1.
  set (m1 := round_nearest_even (shr_m mrs1) (loc_of_shr_record mrs1)).
  assert (Hm1 : 0 <= m1).
  { assert (0 <= shr_m mrs1) by (rewrite M1; apply Z.div_pos; lia).
    subst m1.
    destruct (round_nearest_even_cases (shr_m mrs1) (loc_of_shr_record mrs1));
      lia. }
  set (n2 := fexp32 (Zdigits2 m1 + e1) - e1).
  destruct (shr_spec (shr_record_of_loc m1 loc_Exact) e1 n2) as [M2 E2];
    [exact Hm1|].
  destruct (shr (shr_record_of_loc m1 loc_Exact) e1 n2) as [mrs2 e2] eqn:S2.
  simpl in M2, E2.
  replace (Z.max e1 (fexp32 (Zdigits2 m1 + e1))) with e2 by (subst n2; lia).
  replace (e2 - e1) with (Z.max 0 n2) by lia.
  rewrite <- M2. reflexivity.
Qed.

Lemma bra_eq2 (s : bool) (m e : Z) (l : location) :
  0 < m ->
  let n1 := fexp32 (Zdigits2 m + e) - e in
  let e1 := e + Z.max 0 n1 in
  let m1 := rnd_shift m l n1 in
  0 <= m1 <= 16777216 /\ -149 <= e1
  /\ bra s m e l
     = if m1 =? 16777216 then bra_result s 8388608 (e1 + 1)
       else bra_result s m1 e1.
Proof.
  intros Hm. rewrite bra_eq by lia. cbv zeta.
  set (n1 := fexp32 (Zdigits2 m + e) - e).
  set (e1 := e + Z.max 0 n1).
  set (m1 := rnd_shift m l n1).
  destruct (Zdigits2_bounds m Hm) as [Dl Du].
  pose proof (Zdigits2_pos m Hm) as Dp.
  assert (Hn1 : n1 = Z.max (Zdigits2 m - 24) (-149 - e)).
  { subst n1. rewrite fexp32_eq. lia. }
  assert (He1 : -149 <= e1) by (subst e1; lia).
  assert (Hq : m / 2 ^ Z.max 0 n1 < 16777216).
  { apply Z.div_lt_upper_bound; [apply Z.pow_pos_nonneg; lia|].
    change 16777216 with (2 ^ 24). rewrite <- Z.pow_add_r by lia.
    apply Z.lt_le_trans with (1 := Du). apply Z.pow_le_mono_r; lia. }
  assert (Hq0 : 0 <= m / 2 ^ Z.max 0 n1) by (apply Z.div_pos; lia).
  assert (Hm1 : 0 <= m1 <= 16777216).
  { subst m1. destruct (rnd_shift_cases m l n1); lia. }
  split; [exact Hm1|]. split; [exact He1|].
  destruct (Z.eqb_spec m1 16777216) as [E|N].
  - rewrite E. change (Zdigits2 16777216) with 25.
    rewrite fexp32_eq.
    replace (Z.max e1 (Z.max (25 + e1 - 24) (-149))) with (e1 + 1) by lia.
    replace (e1 + 1 - e1) with 1 by lia. reflexivity.
  - assert (D1 : Zdigits2 m1 <= 24).
    { destruct (Z.eq_dec m1 0) as [->|]; [simpl; lia|].
      apply Zdigits2_le; lia. }
    rewrite fexp32_eq.
    replace (Z.max e1 (Z.max (Zdigits2 m1 + e1 - 24) (-149))) with e1 by lia.
    rewrite Z.sub_diag, Z.div_1_r. reflexivity.
Qed.

Lemma bra_result_not_nan (s : bool) (m e : Z) :
  0 <= m -> F32.isnan (bra_result s m e) = false.
Proof.
  intros Hm. destruct m; simpl; try lia; trivial. now destruct (_ <=? _).
Qed.

Lemma bra_not_nan (s : bool) (m e : Z) (l : location) :
  0 <= m -> F32.isnan (bra s m e l) = false.
Proof.
  intros Hm. rewrite bra_eq by assumption. cbv zeta.
  apply bra_result_not_nan. apply Z.div_pos.
  - now apply rnd_shift_nonneg.
  - apply Z.pow_pos_nonneg; lia.
Qed.

Lemma bra_result_finite (s : bool) (m e : Z) :
  0 <= m -> e <= 104 -> F32.isfinite (bra_result s m e) = true.
Proof.
  intros Hm He. destruct m; simpl; try lia; trivial.
  destruct (Z.leb_spec e 104); [reflexivity | lia].
Qed.

Lemma bra_result_overflow (s : bool) (m e : Z) :
  0 < m -> 104 < e -> bra_result s m e = S754_infinity s.
Proof.
  intros Hm He. destruct m; simpl; try lia.
  destruct (Z.leb_spec e 104); [lia | reflexivity].
Qed.

Lemma bra_result_bounded (s : bool) (m e : Z) :
  m < 16777216 -> -149 <= e -> bounded32 (bra_result s m e).
Proof.
  intros Hm He. destruct m; simpl; trivial.
  destruct (Z.leb_spec e 104); simpl; trivial. lia.
Qed.

Lemma bra_bounded (s : bool) (m e : Z) (l : location) :
  0 <= m -> bounded32 (bra s m e l).
Proof.
  intros Hm. destruct (Z.eq_dec m 0) as [->|N].
  - rewrite bra_eq by lia. cbv zeta.
    set (n1 := fexp32 _ - e). set (m1 := rnd_shift 0 l n1).
    assert (0 <= m1 <= 1).
    { subst m1. destruct (rnd_shift_cases 0 l n1) as [-> | ->]; [lia| |];
        rewrite Z.div_0_l; try lia;
        apply Z.pow_nonzero; lia. }
    set (e1 := e + Z.max 0 n1).
    set (e2 := Z.max e1 _).
    assert (-149 <= e2) by (subst e2; rewrite fexp32_eq; lia).
    apply bra_result_bounded; [|assumption].
    assert (P : 0 < 2 ^ (e2 - e1)) by (apply Z.pow_pos_nonneg; lia).
    assert (m1 / 2 ^ (e2 - e1) <= m1); [|lia].
    apply Z.div_le_upper_bound; [exact P | nia].
  - destruct (bra_eq2 s m e l) as (B & E & ->); [lia|].
    destruct (Z.eqb_spec (rnd_shift m l (fexp32 (Zdigits2 m + e) - e)) 16777216).
    + apply bra_result_bounded; lia.
    + apply bra_result_bounded; lia.
Qed.

Lemma bra_sign (s : bool) (m e : Z) (l : location) (s' : bool) (m' : positive) (e' : Z) :
  0 <= m -> bra s m e l = S754_finite s' m' e' -> s' = s.
Proof.
  intros Hm. rewrite bra_eq by assumption. cbv zeta.
  unfold bra_result. destruct (_ / _); try discriminate.
  destruct (_ <=? _); try discriminate. congruence.
Qed.

(** A product below [2^128 - 2^105] is finite. *)
Lemma bra_no_overflow (s : bool) (m e : Z) (l : location) :
  0 < m <= 281474943156225 -> e <= 80 ->
  F32.isfinite (bra s m e l) = true.
Proof.
  intros [Hm Hu] He.
  destruct (bra_eq2 s m e l Hm) as (B & E & ->).
  set (n1 := fexp32 (Zdigits2 m + e) - e) in *.
  set (m1 := rnd_shift m l n1) in *.
  assert (D : Zdigits2 m <= 48) by (apply Zdigits2_le; lia).
  pose proof (Zdigits2_pos m Hm) as Dp.
  assert (Hn1 : n1 = Z.max (Zdigits2 m - 24) (-149 - e))
    by (subst n1; rewrite fexp32_eq; lia).
  destruct (Z.eqb_spec m1 16777216) as [C|C].
  - apply bra_result_finite; [lia|].
    destruct (Z_le_gt_dec (e + Z.max 0 n1) 103) as [L|G]; [lia|].
    exfalso.
    assert (n1 = 24) by lia.
    assert (m / 2 ^ Z.max 0 n1 < 16777215).
    { apply Z.div_lt_upper_bound; [apply Z.pow_pos_nonneg; lia|].
      replace (Z.max 0 n1) with 24 by lia. change (2 ^ 24) with 16777216. lia. }
    subst m1. destruct (rnd_shift_cases m l n1); lia.
  - apply bra_result_finite; lia.
Qed.

Lemma mul_small_finite (x y : float) :
  small x -> small y -> F32.isfinite (x * y)%f32 = true.
Proof.
  destruct x as [sx| | |sx mx ex], y as [sy| | |sy my ey]; simpl;
    try contradiction; trivial.
  intros [Hx Ex] [Hy Ey].
  change (F32.isfinite (bra (xorb sx sy) (Zpos (mx * my)) (ex + ey) loc_Exact) = true).
  apply bra_no_overflow; [|lia].
  rewrite Pos2Z.inj_mul. split; [lia|]. nia.
Qed.

Lemma valid_finite_inv (s : bool) (m : positive) (e : Z) :
  F32.valid (S754_finite s m e) = true ->
  Z.max (Zpos (digits2_pos m) + e - 24) (-149) = e /\ e <= 104
  /\ Zpos m < 16777216.
Proof.
  unfold F32.valid, valid_binary, SpecFloat.bounded, canonical_mantissa.
  fold fexp32. rewrite fexp32_eq.
  intros H. apply andb_true_iff in H. destruct H as [H1 H2].
  apply Z.eqb_eq in H1. apply Z.leb_le in H2.
  change (F32.emax - F32.prec) with 104 in H2.
  split; [exact H1|]. split; [exact H2|].
  destruct (digits2_pos_bounds m) as [_ U].
  apply Z.lt_le_trans with (1 := U).
  change 16777216 with (2 ^ 24). apply Z.pow_le_mono_r; lia.
Qed.

Lemma square_finite_small (x : float) :
  F32.valid x = true -> F32.isfinite (x * x)%f32 = true -> small x.
Proof.
  destruct x as [sx| | |sx mx ex]; simpl; trivial; try discriminate.
  intros V. destruct (valid_finite_inv sx mx ex V) as (C & L & B).
  intros F. split; [exact B|].
  destruct (Z_le_gt_dec ex 40) as [T|T]; [exact T|]. exfalso.
  change (F32.isfinite (bra (xorb sx sx) (Zpos (mx * mx)) (ex + ex) loc_Exact) = true) in F.
  destruct (digits2_pos_bounds mx) as [Dl Du].
  assert (D : Zpos (digits2_pos mx) = 24) by lia.
  rewrite D in Dl. change (2 ^ (24 - 1)) with 8388608 in Dl.
  set (M := Zpos (mx * mx)) in *.
  assert (HM : 70368744177664 <= M < 281474976710656)
    by (subst M; rewrite Pos2Z.inj_mul; nia).
  assert (DM : 47 <= Zdigits2 M)
    by (apply Zdigits2_ge; [change (2 ^ (47 - 1)) with 70368744177664|]; lia).
  assert (DM' : Zdigits2 M <= 48)
    by (apply Zdigits2_le; [|change (2 ^ 48) with 281474976710656|]; lia).
  destruct (bra_eq2 (xorb sx sx) M (ex + ex) loc_Exact) as (Bm & E & R); [lia|].
  set (n1 := fexp32 (Zdigits2 M + (ex + ex)) - (ex + ex)) in *.
  set (m1 := rnd_shift M loc_Exact n1) in *.
  assert (Hn1 : n1 = Zdigits2 M - 24) by (subst n1; rewrite fexp32_eq; lia).
  assert (P : 0 < m1).
  { assert (8388608 <= M / 2 ^ Z.max 0 n1).
    { apply Z.div_le_lower_bound; [apply Z.pow_pos_nonneg; lia|].
      destruct (Zdigits2_bounds M) as [Ql _]; [lia|].
      apply Z.le_trans with (2 := Ql).
      change 8388608 with (2 ^ 23). rewrite <- Z.pow_add_r by lia.
      apply Z.pow_le_mono_r; lia. }
    subst m1. destruct (rnd_shift_cases M loc_Exact n1); lia. }
  rewrite R in F.
  destruct (Z.eqb_spec m1 16777216);
    rewrite bra_result_overflow in F by lia; discriminate.
Qed.

(** ** The range of a computed length *)

Lemma div2_bounds (x : Z) : 2 * Z.div2 x <= x <= 2 * Z.div2 x + 1.
Proof.
  rewrite (Z.div2_odd x) at 2 3. destruct (Z.odd x); simpl Z.b2z; lia.
Qed.

(** The square root of a positive float: the exponent is half the
    exponent of the argument, the mantissa has exactly 24 bits. *)
Lemma sqrtf_eq (m : positive) (e : Z) :
  bounded32 (S754_finite false m e) ->
  let h := Z.div2 (Zpos (digits2_pos m) + e + 1) in
  exists mq : positive,
    8388608 <= Zpos mq < 16777216
    /\ Zpos mq = sqrt_mant m (e - 2 * (h - 24))
    /\ F32.sqrtf (S754_finite false m e) = S754_finite false mq (h - 24)
    /\ 23 <= e - 2 * (h - 24)
    /\ exists q, 8388608 <= q
         /\ q * q <= Zpos m * 2 ^ (e - 2 * (h - 24)) < (q + 1) * (q + 1)
         /\ (Zpos mq = q \/ Zpos mq = q + 1).
Proof.
  intros B. simpl in B. destruct B as [Hm He]. cbv zeta.
  unfold F32.sqrtf, SFsqrt, SFsqrt_core_binary, sqrt_mant.
  fold fexp32. cbn [Zdigits2].
  set (d := Zpos (digits2_pos m)) in *.
  destruct (digits2_pos_bounds m) as [Dl Du]. fold d in Dl, Du.
  assert (Dp : 1 <= d <= 24).
  { split; [lia|]. apply Zdigits2_le with (m := Zpos m); lia. }
  change (IntDef.Z.div2 (d + e + 1)) with (Z.div2 (d + e + 1)).
  set (h := Z.div2 (d + e + 1)).
  set (g := IntDef.Z.div2 e).
  assert (Hh : 2 * h <= d + e + 1 <= 2 * h + 1) by apply div2_bounds.
  assert (Hg : 2 * g <= e <= 2 * g + 1) by apply div2_bounds.
  rewrite fexp32_eq.
  change (IntDef.Z.min (Z.max (h - 24) (-149)) g)
    with (Z.min (Z.max (h - 24) (-149)) g).
  replace (Z.min (Z.max (h - 24) (-149)) g) with (h - 24) by lia.
  set (sh := e - 2 * (h - 24)).
  assert (Hs : sh = 47 - d \/ sh = 48 - d) by lia.
  assert (Hm' : match sh with
                | 0 => Z.pos m
                | Z.pos _ => IntDef.Z.shiftl (Z.pos m) sh
                | Z.neg _ => 0
                end = Zpos m * 2 ^ sh).
  { destruct sh eqn:Esh; try lia.
    change (IntDef.Z.shiftl (Z.pos m) (Z.pos p))
      with (Z.shiftl (Z.pos m) (Z.pos p)).
    rewrite Z.shiftl_mul_pow2 by lia. reflexivity. }
  rewrite Hm'. clear Hm'.
  set (m' := Zpos m * 2 ^ sh).
  change IntDef.Z.sqrtrem with Z.sqrtrem.
  assert (Bm' : 70368744177664 <= m' <= 281474959933440).
  { assert (P1 : 2 ^ (d - 1) * 2 = 2 ^ d)
      by (replace d with (Z.succ (d - 1)) at 2 by lia;
          rewrite Z.pow_succ_r by lia; ring).
    assert (P2 : 0 < 2 ^ sh) by (apply Z.pow_pos_nonneg; lia).
    assert (P3 : 2 ^ d * 2 ^ sh = 2 ^ (d + sh)) by (rewrite Z.pow_add_r; lia).
    assert (P4 : 16777216 <= 2 ^ (48 - d))
      by (change 16777216 with (2 ^ 24); apply Z.pow_le_mono_r; lia).
    subst m'. destruct Hs as [Hs|Hs].
    - replace (d + sh) with 47 in P3 by lia.
      change (2 ^ 47) with 140737488355328 in P3. nia.
    - replace (d + sh) with 48 in P3 by lia.
      change (2 ^ 48) with 281474976710656 in P3.
      rewrite Hs in *. nia. }
  pose proof (Z.sqrtrem_spec m') as Sq.
  destruct (Z.sqrtrem m') as [q r].
  destruct Sq as [Eq Hr]; [lia|].
  assert (Bq : 8388608 <= q < 16777216) by nia.
  set (l := if r =? 0 then loc_Exact
            else loc_Inexact (if r <=? q then Lt else Gt)).
  assert (Br : 8388608 <= round_nearest_even q l < 16777216).
  { subst l. destruct (Z.eqb_spec r 0); [simpl; lia|].
    destruct (Z.leb_spec r q); simpl; [lia|]. nia. }
  fold bra.
  assert (Dq : Zdigits2 q = 24) by (apply Zdigits2_unique; simpl; lia).
  destruct (bra_eq2 false q (h - 24) l) as (_ & _ & ->); [lia|].
  rewrite Dq, fexp32_eq.
  replace (Z.max (24 + (h - 24) - 24) (-149) - (h - 24)) with 0 by lia.
  rewrite rnd_shift_noshift by lia.
  destruct (Z.eqb_spec (round_nearest_even q l) 16777216); [lia|].
  unfold bra_result.
  destruct (round_nearest_even q l) as [|mq|mq] eqn:Er; try lia.
  exists mq. split; [lia|]. split; [reflexivity|].
  split.
  { destruct (Z.leb_spec (h - 24 + Z.max 0 0) 104); [|lia]. f_equal. lia. }
  split; [lia|].
  exists q. split; [lia|]. split; [fold sh; fold m'; nia|].
  rewrite <- Er. apply round_nearest_even_cases.
Qed.

Lemma sqrtf_range (m : positive) (e : Z) :
  bounded32 (S754_finite false m e) ->
  F32.sqrtf (S754_finite false m e) = min_len
  \/ normal_len (F32.sqrtf (S754_finite false m e)).
Proof.
  intros B.
  destruct (Z.eq_dec (Zpos (digits2_pos m) + e) (-148)) as [T|T].
  { left. destruct B as [Hm He].
    assert (digits2_pos m = 1%positive /\ e = -149) as [D ->] by lia.
    assert (m = 1%positive) by (destruct m; simpl in D; lia || reflexivity).
    subst m. reflexivity. }
  right. destruct (sqrtf_eq m e B) as (mq & Bq & _ & -> & _).
  destruct B as [Hm He].
  pose proof (div2_bounds (Zpos (digits2_pos m) + e + 1)) as Hh.
  assert (Zpos (digits2_pos m) <= 24)
    by (apply Zdigits2_le with (m := Zpos m); lia).
  unfold normal_len. lia.
Qed.

(** ** [v3_angle_quick] away from its failure path *)

Lemma mul_pos_finite (mx my : positive) (ex ey : Z) :
  8388608 <= Zpos mx < 16777216 -> 8388608 <= Zpos my < 16777216 ->
  -195 <= ex + ey <= 80 ->
  exists m e, (S754_finite false mx ex * S754_finite false my ey)%f32
              = S754_finite false m e.
Proof.
  intros Bx By Be.
  change (exists m e, bra false (Zpos (mx * my)) (ex + ey) loc_Exact
                      = S754_finite false m e).
  set (M := Zpos (mx * my)).
  assert (HM : 70368744177664 <= M <= 281474943156225)
    by (subst M; rewrite Pos2Z.inj_mul; nia).
  destruct (bra_eq2 false M (ex + ey) loc_Exact) as (Bm & E & R); [lia|].
  pose proof (bra_no_overflow false M (ex + ey) loc_Exact
                ltac:(lia) ltac:(lia)) as F.
  set (n1 := fexp32 (Zdigits2 M + (ex + ey)) - (ex + ey)) in *.
  set (m1 := rnd_shift M loc_Exact n1) in *.
  assert (P : 0 < m1).
  { assert (DM : 47 <= Zdigits2 M)
      by (apply Zdigits2_ge; [change (2 ^ (47 - 1)) with 70368744177664|]; lia).
    assert (Hn1 : n1 = Z.max (Zdigits2 M - 24) (-149 - (ex + ey)))
      by (subst n1; rewrite fexp32_eq; lia).
    assert (1 <= M / 2 ^ Z.max 0 n1).
    { apply Z.div_le_lower_bound; [apply Z.pow_pos_nonneg; lia|].
      rewrite Z.mul_1_r.
      destruct (Zdigits2_bounds M) as [Ql _]; [lia|].
      destruct (Z_le_gt_dec (Zdigits2 M - 24) (-149 - (ex + ey))).
      - apply Z.le_trans with (2 ^ 46).
        + apply Z.pow_le_mono_r; lia.
        + change (2 ^ 46) with 70368744177664; lia.
      - apply Z.le_trans with (2 := Ql). apply Z.pow_le_mono_r; lia. }
    subst m1. destruct (rnd_shift_cases M loc_Exact n1); lia. }
  rewrite R in F |- *.
  destruct (Z.eqb_spec m1 16777216); unfold bra_result in *.
  - destruct (_ <=? _); [eauto | discriminate].
  - destruct m1; try lia. destruct (_ <=? _); [eauto | discriminate].
Qed.

(** The product [la * lb] of two computed lengths, both finite and not
    zero, neither underflows to zero nor overflows. *)
Lemma mul_len_finite (x y : float) :
  x = min_len \/ normal_len x -> y = min_len \/ normal_len y ->
  exists m e, (x * y)%f32 = S754_finite false m e.
Proof.
  intros [-> | Hx] [-> | Hy].
  - eexists; eexists; reflexivity.
  - destruct y as [| | |[] my ey]; try contradiction. destruct Hy.
    apply mul_pos_finite; lia.
  - destruct x as [| | |[] mx ex]; try contradiction. destruct Hx.
    apply mul_pos_finite; lia.
  - destruct x as [| | |[] mx ex]; try contradiction. destruct Hx.
    destruct y as [| | |[] my ey]; try contradiction. destruct Hy.
    apply mul_pos_finite; lia.
Qed.

Lemma binary_normalize_not_nan (m e : Z) (sz : bool) :
  F32.isnan (binary_normalize F32.prec F32.emax m e sz) = false.
Proof.
  destruct m as [|p|p]; simpl; trivial;
    unfold binary_round; destruct (shl_align _ _ _) as [mz ez];
    apply bra_not_nan; lia.
Qed.

Lemma add_finite_not_nan (x y : float) :
  F32.isfinite x = true -> F32.isfinite y = true ->
  F32.isnan (x + y)%f32 = false.
Proof.
  destruct x as [[]| | |sx mx ex], y as [[]| | |sy my ey]; simpl;
    try discriminate; trivial; intros _ _.
  apply binary_normalize_not_nan.
Qed.

Lemma add_not_nan_finite (x y : float) :
  F32.isnan x = false -> F32.isfinite y = true ->
  F32.isnan (x + y)%f32 = false.
Proof.
  intros Hx Hy. destruct (F32.isfinite x) eqn:Fx.
  - now apply add_finite_not_nan.
  - destruct x as [| [] | |], y as [| | |]; simpl in *; try discriminate; trivial.
Qed.

Lemma mul_finite_not_nan (x y : float) :
  F32.isfinite x = true -> F32.isfinite y = true ->
  F32.isnan (x * y)%f32 = false.
Proof.
  destruct x as [| | |sx mx ex], y as [| | |sy my ey]; simpl;
    try discriminate; trivial; intros _ _.
  apply bra_not_nan. lia.
Qed.

Lemma div_not_nan (x : float) (s : bool) (m : positive) (e : Z) :
  F32.isnan x = false -> F32.isnan (x / S754_finite s m e)%f32 = false.
Proof.
  destruct x as [| | |sx mx ex]; simpl; try discriminate; trivial; intros _.
  unfold F32.div, SFdiv, SFdiv_core_binary.
  set (m' := match _ with 0 => _ | Z.pos _ => _ | Z.neg _ => _ end).
  assert (Hm' : 0 <= m').
  { subst m'. destruct (_ - _ - _) eqn:Es; try lia.
    change (IntDef.Z.shiftl (Z.pos mx) (Z.pos p)) with (Z.shiftl (Z.pos mx) (Z.pos p)).
    rewrite Z.shiftl_mul_pow2 by lia.
    assert (0 < 2 ^ Zpos p) by (apply Z.pow_pos_nonneg; lia). nia. }
  change IntDef.Z.div_eucl with Z.div_eucl.
  pose proof (Z.div_pos m' (Zpos m) Hm' ltac:(lia)) as Q.
  unfold Z.div in Q. destruct (Z.div_eucl m' (Zpos m)) as [q r].
  apply bra_not_nan. exact Q.
Qed.

Lemma add_finite_inv (x y : float) :
  F32.isfinite (x + y)%f32 = true ->
  F32.isfinite x = true /\ F32.isfinite y = true.
Proof.
  intros H. split.
  - destruct (F32.isfinite x) eqn:E; trivial.
    now rewrite (add_nonfinite_l x y E) in H.
  - destruct (F32.isfinite y) eqn:E; trivial.
    now rewrite (add_nonfinite_r x y E) in H.
Qed.

Lemma binary_normalize_bounded (m e : Z) (sz : bool) :
  bounded32 (binary_normalize F32.prec F32.emax m e sz).
Proof.
  destruct m as [|p|p]; simpl; trivial;
    unfold binary_round; destruct (shl_align _ _ _) as [mz ez];
    apply bra_bounded; lia.
Qed.

Lemma mul_bounded (x y : float) : bounded32 (x * y)%f32.
Proof.
  destruct x as [| | |sx mx ex], y as [| | |sy my ey]; simpl; trivial.
  apply bra_bounded. lia.
Qed.

Lemma add_bounded (x y : float) :
  bounded32 x -> bounded32 y -> bounded32 (x + y)%f32.
Proof.
  destruct x as [[]| [] | |sx mx ex], y as [[]| [] | |sy my ey]; simpl; trivial.
  all: intros _ _; apply binary_normalize_bounded.
Qed.

Lemma SFcompare_antisym (x y : float) :
  SFcompare y x = option_map CompOpp (SFcompare x y).
Proof.
  destruct x as [sx|sx| |sx mx ex], y as [sy|sy| |sy my ey]; simpl; trivial;
    try (destruct sx; reflexivity); try (destruct sy; reflexivity);
    try (destruct sx, sy; reflexivity).
  f_equal. destruct sx, sy; simpl; trivial;
    rewrite (Z.compare_antisym ex ey);
    destruct (ex ?= ey); simpl; trivial;
    rewrite (Pos.compare_cont_antisym mx my Eq); simpl;
    rewrite ?CompOpp_involutive; reflexivity.
Qed.

Lemma SFcompare_none (x y : float) :
  F32.isnan x = false -> F32.isnan y = false -> SFcompare x y <> None.
Proof.
  destruct x as [sx|sx| |sx mx ex], y as [sy|sy| |sy my ey]; simpl;
    discriminate.
Qed.

(** [clampf] sends everything but NaN into [[lo, hi]] (here for the
    bounds of the source, -1 and 1). *)
Lemma clampf_range (x : float) :
  F32.isnan x = false ->
  between F32.neg_one F32.one (clampf x F32.neg_one F32.one) = true.
Proof.
  intros Hx. unfold clampf, between, F32.ltb, F32.gtb, F32.leb, SFltb, SFleb.
  pose proof (SFcompare_none x F32.neg_one Hx eq_refl) as N1.
  pose proof (SFcompare_none x F32.one Hx eq_refl) as N2.
  destruct (SFcompare x F32.neg_one) as [[]|] eqn:C1; try congruence;
    try reflexivity;
    (destruct (SFcompare x F32.one) as [[]|] eqn:C2; try congruence;
     try reflexivity);
    rewrite (SFcompare_antisym x F32.neg_one), C1, ?C2; reflexivity.
Qed.

(** A computed length that is finite and not zero comes from components
    that are zeros or below [2^64], and lies in [[2^-74.5, 2^64)]. *)
Lemma length_val_regular (v : vec3) :
  valid3 v = true -> degenerate (length_val v) = false ->
  (length_val v = min_len \/ normal_len (length_val v))
  /\ small (fst (fst v)) /\ small (snd (fst v)) /\ small (snd v).
Proof.
  destruct v as [[x y] z]. unfold valid3, degenerate, length_val. simpl fst; simpl snd.
  intros V D.
  apply andb_true_iff in V. destruct V as [V Vz].
  apply andb_true_iff in V. destruct V as [Vx Vy].
  apply orb_false_iff in D. destruct D as [Dz Df].
  apply negb_false_iff in Df.
  set (s := (x * x + y * y + z * z)%f32) in *.
  assert (Bs : bounded32 s)
    by (subst s; repeat apply add_bounded; apply mul_bounded).
  assert (Fs : F32.isfinite s = true).
  { destruct (F32.isfinite s) eqn:E; trivial.
    now rewrite (sqrtf_nonfinite s E) in Df. }
  split.
  - destruct s as [ss| | |[] ms es]; try discriminate.
    now apply sqrtf_range.
  - subst s. apply add_finite_inv in Fs. destruct Fs as [Fxy Fz].
    apply add_finite_inv in Fxy. destruct Fxy as [Fx Fy].
    repeat split; now apply square_finite_small.
Qed.

Lemma dot_val_not_nan (a b : vec3) :
  small (fst (fst a)) -> small (snd (fst a)) -> small (snd a) ->
  small (fst (fst b)) -> small (snd (fst b)) -> small (snd b) ->
  F32.isnan (dot_val a b) = false.
Proof.
  destruct a as [[a0 a1] a2], b as [[b0 b1] b2]. simpl fst; simpl snd.
  intros A0 A1 A2 B0 B1 B2. unfold dot_val.
  apply add_not_nan_finite; [apply add_finite_not_nan|];
    now apply mul_small_finite.
Qed.

Lemma angle_quick_val_range (a b : vec3) :
  valid3 a = true -> valid3 b = true ->
  degenerate (length_val a) = false -> degenerate (length_val b) = false ->
  between F32.neg_one F32.one (angle_quick_val a b) = true.
Proof.
  intros Va Vb Da Db.
  destruct (length_val_regular a Va Da) as (La & A0 & A1 & A2).
  destruct (length_val_regular b Vb Db) as (Lb & B0 & B1 & B2).
  unfold angle_quick_val. rewrite Da, Db. simpl orb. cbv iota.
  apply clampf_range.
  destruct (mul_len_finite _ _ La Lb) as (m & e & ->).
  apply div_not_nan. now apply dot_val_not_nan.
Qed.

(** C5, amended.  Whenever the lengths [v3_length] computes for [a] and
    [b] are finite and not zero, [v3_angle_quick] prints nothing and
    returns a number of [[-1, 1]]: neither [la * lb] nor the dot product
    can be NaN, zero over zero or infinity over infinity, and [clampf]
    brings every other quotient into the interval. *)
Theorem angle_quick_bounds (st : state) (a b : ptr) :
  a <> NULL -> b <> NULL ->
  valid3 (load3 st a) = true -> valid3 (load3 st b) = true ->
  degenerate (eval (v3_length a) st) = false ->
  degenerate (eval (v3_length b) st) = false ->
  between F32.neg_one F32.one (eval (v3_angle_quick a b) st) = true
  /\ exec (v3_angle_quick a b) st = st.
Proof.
  intros Ha Hb Va Vb Da Db.
  unfold eval, exec in *.
  rewrite v3_length_run in Da, Db by assumption. cbn [fst] in Da, Db.
  rewrite v3_angle_quick_run by assumption.
  rewrite Da, Db. cbn [orb fst snd]. split; [|reflexivity].
  now apply angle_quick_val_range.
Qed.

(** [test_v3_angle_quick_and_angle]: the cosine between [(1,0,0)] and
    [(-1,0,0)]. *)
Lemma angle_quick_bounds_witness :
  let st := state_of [vec_of_Z 1 0 0; vec_of_Z (-1) 0 0] in
  between F32.neg_one F32.one (eval (v3_angle_quick (Ptr 0 0) (Ptr 1 0)) st)
  = true
  /\ exec (v3_angle_quick (Ptr 0 0) (Ptr 1 0)) st = st.
Proof.
  intros st.
  exact (angle_quick_bounds st (Ptr 0 0) (Ptr 1 0)
           ltac:(discriminate) ltac:(discriminate)
           eq_refl eq_refl eq_refl eq_refl).
Defined.

(** ** Scaling by a power of two *)

Lemma shr_1_double (m : Z) :
  0 <= m ->
  shr_1 (Build_shr_record (m * 2) false false) = Build_shr_record m false false.
Proof.
  intros Hm. destruct m as [|p|p]; try lia; try reflexivity.
  rewrite Z.mul_comm. reflexivity.
Qed.

Lemma iter_pos_shr_1_exact (p : positive) (m : Z) :
  0 <= m ->
  SpecFloat.iter_pos shr_1 p (Build_shr_record (m * 2 ^ Zpos p) false false)
  = Build_shr_record m false false.
Proof.
  revert m. induction p as [p IH | p IH |]; intros m Hm.
  - replace (m * 2 ^ Zpos p~1) with (m * 2 ^ Zpos p * 2 ^ Zpos p * 2)
      by (replace (Zpos p~1) with (Zpos p + Zpos p + 1) by lia;
          rewrite !Z.pow_add_r by lia; change (2 ^ 1) with 2; ring).
    assert (0 < 2 ^ Zpos p) by (apply Z.pow_pos_nonneg; lia).
    cbn [SpecFloat.iter_pos].
    rewrite shr_1_double by nia. rewrite IH by nia. now rewrite IH.
  - replace (m * 2 ^ Zpos p~0) with (m * 2 ^ Zpos p * 2 ^ Zpos p)
      by (replace (Zpos p~0) with (Zpos p + Zpos p) by lia;
          rewrite !Z.pow_add_r by lia; ring).
    assert (0 < 2 ^ Zpos p) by (apply Z.pow_pos_nonneg; lia).
    cbn [SpecFloat.iter_pos].
    rewrite IH by nia. now rewrite IH.
  - change (2 ^ 1) with 2. cbn [SpecFloat.iter_pos]. now apply shr_1_double.
Qed.

Lemma rnd_shift_exact (m k : Z) :
  0 <= m -> 0 <= k -> rnd_shift (m * 2 ^ k) loc_Exact k = m.
Proof.
  intros Hm Hk. unfold rnd_shift.
  destruct k as [|p|p]; try lia.
  - simpl. now rewrite Z.mul_1_r.
  - cbn [shr fst shr_record_of_loc]. rewrite iter_pos_shr_1_exact by assumption.
    reflexivity.
Qed.

Lemma bra_result_shift (s : bool) (m e j : Z) :
  0 <= m -> e <= 104 -> e + j <= 104 ->
  bra_result s m (e + j) = shift_exp j (bra_result s m e).
Proof.
  intros Hm He Hj. destruct m; simpl; try lia; trivial.
  destruct (Z.leb_spec e 104), (Z.leb_spec (e + j) 104); try lia. reflexivity.
Qed.

(** Rounding commutes with a change of exponent that stays in the
    normal range. *)
Lemma bra_shift (s : bool) (m e j : Z) (l : location) :
  0 < m -> 24 <= Zdigits2 m ->
  -125 <= Zdigits2 m + e <= 127 -> -125 <= Zdigits2 m + e + j <= 127 ->
  bra s m (e + j) l = shift_exp j (bra s m e l).
Proof.
  intros Hm Hd He Hj.
  destruct (bra_eq2 s m e l Hm) as (B & _ & ->).
  destruct (bra_eq2 s m (e + j) l Hm) as (_ & _ & ->).
  rewrite !fexp32_eq.
  pose proof (Zdigits2_pos m Hm) as Dp.
  replace (Z.max (Zdigits2 m + (e + j) - 24) (-149) - (e + j))
    with (Zdigits2 m - 24) by lia.
  replace (Z.max (Zdigits2 m + e - 24) (-149) - e)
    with (Zdigits2 m - 24) in * by lia.
  set (m1 := rnd_shift m l (Zdigits2 m - 24)) in *.
  assert (0 <= m1) by (apply rnd_shift_nonneg; lia).
  destruct (Z.eqb_spec m1 16777216).
  - replace (e + j + Z.max 0 (Zdigits2 m - 24) + 1)
      with (e + Z.max 0 (Zdigits2 m - 24) + 1 + j) by lia.
    apply bra_result_shift; lia.
  - replace (e + j + Z.max 0 (Zdigits2 m - 24))
      with (e + Z.max 0 (Zdigits2 m - 24) + j) by lia.
    apply bra_result_shift; lia.
Qed.

Lemma mul_pow2 (s : bool) (m : positive) (e j : Z) :
  8388608 <= Zpos m < 16777216 -> -149 <= e + j <= 104 ->
  (S754_finite s m e * pow2 j)%f32 = S754_finite s m (e + j).
Proof.
  intros Bm Be.
  change (bra (xorb s false) (Zpos (m * 8388608)) (e + (j - 23)) loc_Exact
          = S754_finite s m (e + j)).
  rewrite Pos2Z.inj_mul. change (Zpos 8388608) with (2 ^ 23).
  set (M := Zpos m * 2 ^ 23).
  assert (HM : 70368744177664 <= M < 140737488355328)
    by (subst M; change (2 ^ 23) with 8388608; lia).
  assert (D : Zdigits2 M = 47) by (apply Zdigits2_unique; simpl; lia).
  destruct (bra_eq2 (xorb s false) M (e + (j - 23)) loc_Exact) as (_ & _ & ->);
    [lia|].
  rewrite D, fexp32_eq.
  replace (Z.max (47 + (e + (j - 23)) - 24) (-149) - (e + (j - 23)))
    with 23 by lia.
  subst M. rewrite rnd_shift_exact by lia.
  destruct (Z.eqb_spec (Zpos m) 16777216); [lia|].
  unfold bra_result.
  destruct (Z.leb_spec (e + (j - 23) + Z.max 0 23) 104); [|lia].
  rewrite xorb_false_r. f_equal. lia.
Qed.

Lemma mul_shift (sx sy : bool) (mx my : positive) (ex ey j j' : Z) :
  8388608 <= Zpos mx < 16777216 -> 8388608 <= Zpos my < 16777216 ->
  -172 <= ex + ey <= 79 -> -172 <= ex + ey + (j + j') <= 79 ->
  (S754_finite sx mx (ex + j) * S754_finite sy my (ey + j'))%f32
  = shift_exp (j + j') (S754_finite sx mx ex * S754_finite sy my ey)%f32.
Proof.
  intros Bx By Be Bj.
  change (bra (xorb sx sy) (Zpos (mx * my)) (ex + j + (ey + j')) loc_Exact
          = shift_exp (j + j')
              (bra (xorb sx sy) (Zpos (mx * my)) (ex + ey) loc_Exact)).
  replace (ex + j + (ey + j')) with (ex + ey + (j + j')) by lia.
  set (M := Zpos (mx * my)).
  assert (HM : 70368744177664 <= M < 281474976710656)
    by (subst M; rewrite Pos2Z.inj_mul; nia).
  assert (DM : 47 <= Zdigits2 M)
    by (apply Zdigits2_ge; [change (2 ^ (47 - 1)) with 70368744177664|]; lia).
  assert (DM' : Zdigits2 M <= 48)
    by (apply Zdigits2_le; [|change (2 ^ 48) with 281474976710656|]; lia).
  apply bra_shift; lia.
Qed.

(** The product of two normal floats, when it is normal itself. *)
Lemma mul_normal (sx sy : bool) (mx my : positive) (ex ey : Z) :
  8388608 <= Zpos mx < 16777216 -> 8388608 <= Zpos my < 16777216 ->
  -172 <= ex + ey <= 79 ->
  exists m e,
    (S754_finite sx mx ex * S754_finite sy my ey)%f32
    = S754_finite (xorb sx sy) m e
    /\ 8388608 <= Zpos m < 16777216
    /\ ex + ey + 23 <= e <= ex + ey + 25.
Proof.
  intros Bx By Be.
  change (exists m e,
    bra (xorb sx sy) (Zpos (mx * my)) (ex + ey) loc_Exact
    = S754_finite (xorb sx sy) m e
    /\ 8388608 <= Zpos m < 16777216
    /\ ex + ey + 23 <= e <= ex + ey + 25).
  set (M := Zpos (mx * my)).
  assert (HM : 70368744177664 <= M < 281474976710656)
    by (subst M; rewrite Pos2Z.inj_mul; nia).
  assert (DM : 47 <= Zdigits2 M)
    by (apply Zdigits2_ge; [change (2 ^ (47 - 1)) with 70368744177664|]; lia).
  assert (DM' : Zdigits2 M <= 48)
    by (apply Zdigits2_le; [|change (2 ^ 48) with 281474976710656|]; lia).
  destruct (bra_eq2 (xorb sx sy) M (ex + ey) loc_Exact) as (B & _ & ->); [lia|].
  set (n1 := fexp32 (Zdigits2 M + (ex + ey)) - (ex + ey)) in *.
  assert (Hn1 : n1 = Zdigits2 M - 24) by (subst n1; rewrite fexp32_eq; lia).
  set (m1 := rnd_shift M loc_Exact n1) in *.
  assert (L : 8388608 <= m1).
  { assert (8388608 <= M / 2 ^ Z.max 0 n1).
    { apply Z.div_le_lower_bound; [apply Z.pow_pos_nonneg; lia|].
      destruct (Zdigits2_bounds M) as [Ql _]; [lia|].
      apply Z.le_trans with (2 := Ql).
      change 8388608 with (2 ^ 23). rewrite <- Z.pow_add_r by lia.
      apply Z.pow_le_mono_r; lia. }
    subst m1. destruct (rnd_shift_cases M loc_Exact n1); lia. }
  destruct (Z.eqb_spec m1 16777216) as [C|C]; unfold bra_result.
  - destruct (Z.leb_spec (ex + ey + Z.max 0 n1 + 1) 104); [|lia].
    eexists; eexists; split; [reflexivity|lia].
  - destruct m1 as [|p|p] eqn:E1; try lia.
    destruct (Z.leb_spec (ex + ey + Z.max 0 n1) 104); [|lia].
    eexists; eexists; split; [reflexivity|lia].
Qed.

Lemma pos_iter_xO (d m : positive) :
  Zpos (Pos.iter xO m d) = Zpos m * 2 ^ Zpos d.
Proof.
  induction d as [|d IH] using Pos.peano_ind.
  - simpl. lia.
  - rewrite Pos.iter_succ, Pos2Z.inj_xO, IH, Pos2Z.inj_succ.
    rewrite Z.pow_succ_r by lia. ring.
Qed.

Lemma shl_align_fst (m : positive) (e ez : Z) :
  ez <= e -> Zpos (fst (shl_align m e ez)) = Zpos m * 2 ^ (e - ez).
Proof.
  intros H. unfold shl_align.
  destruct (ez - e) as [|d|d] eqn:E; try lia; cbn [fst].
  - replace (e - ez) with 0 by lia. simpl. lia.
  - rewrite pos_iter_xO. f_equal. f_equal. lia.
Qed.

(** The sum of two positive normal floats, as one rounding of the exact
    sum written at the smaller exponent. *)
Lemma add_pos_eq (mx my : positive) (ex ey : Z) :
  8388608 <= Zpos mx -> 8388608 <= Zpos my ->
  (S754_finite false mx ex + S754_finite false my ey)%f32
  = bra false (Zpos mx * 2 ^ (ex - Z.min ex ey) + Zpos my * 2 ^ (ey - Z.min ex ey))
      (Z.min ex ey) loc_Exact.
Proof.
  intros Bx By.
  unfold F32.add, SFadd. cbn [cond_Zopp].
  rewrite !shl_align_fst by lia.
  set (ez := Z.min ex ey).
  assert (Px : 1 <= 2 ^ (ex - ez))
    by (assert (0 < 2 ^ (ex - ez)) by (apply Z.pow_pos_nonneg; lia); lia).
  assert (Py : 1 <= 2 ^ (ey - ez))
    by (assert (0 < 2 ^ (ey - ez)) by (apply Z.pow_pos_nonneg; lia); lia).
  set (S := Zpos mx * 2 ^ (ex - ez) + Zpos my * 2 ^ (ey - ez)).
  assert (HS : 16777216 <= S) by (subst S; nia).
  destruct S as [|p|p] eqn:ES; try lia.
  unfold binary_normalize, binary_round, shl_align. fold fexp32.
  assert (D : 25 <= Zpos (digits2_pos p)).
  { apply (Zdigits2_ge (Zpos p) 25); [change (2 ^ (25 - 1)) with 16777216|]; lia. }
  rewrite fexp32_eq.
  destruct (Z.max (Zpos (digits2_pos p) + ez - 24) (-149) - ez) eqn:E; try lia;
    reflexivity.
Qed.

(** Rounding a mantissa of at least 24 bits in the normal range gives a
    normal float. *)
Lemma bra_normal (s : bool) (m e : Z) (l : location) :
  0 < m -> 24 <= Zdigits2 m -> -125 <= Zdigits2 m + e <= 127 ->
  exists m' e',
    bra s m e l = S754_finite s m' e'
    /\ 8388608 <= Zpos m' < 16777216
    /\ Zdigits2 m + e - 24 <= e' <= Zdigits2 m + e - 23.
Proof.
  intros Hm Hd He.
  destruct (bra_eq2 s m e l Hm) as (B & _ & ->).
  set (n1 := fexp32 (Zdigits2 m + e) - e) in *.
  assert (Hn1 : n1 = Zdigits2 m - 24) by (subst n1; rewrite fexp32_eq; lia).
  set (m1 := rnd_shift m l n1) in *.
  assert (L : 8388608 <= m1).
  { assert (8388608 <= m / 2 ^ Z.max 0 n1).
    { apply Z.div_le_lower_bound; [apply Z.pow_pos_nonneg; lia|].
      destruct (Zdigits2_bounds m Hm) as [Ql _].
      apply Z.le_trans with (2 := Ql).
      change 8388608 with (2 ^ 23). rewrite <- Z.pow_add_r by lia.
      apply Z.pow_le_mono_r; lia. }
    subst m1. destruct (rnd_shift_cases m l n1); lia. }
  destruct (Z.eqb_spec m1 16777216) as [C|C]; unfold bra_result.
  - destruct (Z.leb_spec (e + Z.max 0 n1 + 1) 104); [|lia].
    eexists; eexists; split; [reflexivity|lia].
  - destruct m1 as [|p|p] eqn:E1; try lia.
    destruct (Z.leb_spec (e + Z.max 0 n1) 104); [|lia].
    eexists; eexists; split; [reflexivity|lia].
Qed.

Lemma add_pos_digits (mx my : positive) (ex ey : Z) :
  8388608 <= Zpos mx < 16777216 -> 8388608 <= Zpos my < 16777216 ->
  let ez := Z.min ex ey in
  let S := Zpos mx * 2 ^ (ex - ez) + Zpos my * 2 ^ (ey - ez) in
  0 < S
  /\ 24 + Z.max ex ey <= Zdigits2 S + ez <= 25 + Z.max ex ey.
Proof.
  intros Bx By ez S.
  set (a := ex - ez). set (b := ey - ez).
  assert (Ha : 0 <= a) by (subst a ez; lia).
  assert (Hb : 0 <= b) by (subst b ez; lia).
  set (c := Z.max a b).
  assert (Pa : 0 < 2 ^ a) by (apply Z.pow_pos_nonneg; lia).
  assert (Pb : 0 < 2 ^ b) by (apply Z.pow_pos_nonneg; lia).
  assert (Pc : 0 < 2 ^ c) by (apply Z.pow_pos_nonneg; lia).
  assert (La : 2 ^ a <= 2 ^ c) by (apply Z.pow_le_mono_r; lia).
  assert (Lb : 2 ^ b <= 2 ^ c) by (apply Z.pow_le_mono_r; lia).
  assert (Lc : 2 ^ c <= 2 ^ a \/ 2 ^ c <= 2 ^ b).
  { destruct (Z.max_spec a b) as [[_ E]|[_ E]]; fold c in E; rewrite E; lia. }
  assert (HS : 8388608 * 2 ^ c <= S < 33554432 * 2 ^ c).
  { subst S. fold a b. split; [|nia]. destruct Lc; nia. }
  split; [lia|].
  assert (D : 24 + c <= Zdigits2 S <= 25 + c).
  { split.
    - apply Zdigits2_ge; [|lia].
      replace (24 + c - 1) with (23 + c) by lia.
      rewrite Z.pow_add_r by lia. change (2 ^ 23) with 8388608. lia.
    - apply Zdigits2_le; [lia| |lia].
      rewrite Z.pow_add_r by lia. change (2 ^ 25) with 33554432. lia. }
  subst c a b ez. lia.
Qed.

Lemma add_pos_normal (mx my : positive) (ex ey : Z) :
  8388608 <= Zpos mx < 16777216 -> 8388608 <= Zpos my < 16777216 ->
  -149 <= Z.max ex ey <= 102 ->
  normal_pos (Z.max ex ey) (Z.max ex ey + 2)
    (S754_finite false mx ex + S754_finite false my ey)%f32.
Proof.
  intros Bx By Be.
  rewrite add_pos_eq by lia.
  destruct (add_pos_digits mx my ex ey Bx By) as [P D]. cbv zeta in P, D.
  set (S := _ + _) in *.
  destruct (bra_normal false S (Z.min ex ey) loc_Exact) as (m & e & -> & Bm & E);
    try lia.
  unfold normal_pos. lia.
Qed.

Lemma add_pos_shift (mx my : positive) (ex ey j : Z) :
  8388608 <= Zpos mx < 16777216 -> 8388608 <= Zpos my < 16777216 ->
  -149 <= Z.max ex ey <= 102 -> -149 <= Z.max ex ey + j <= 102 ->
  (S754_finite false mx (ex + j) + S754_finite false my (ey + j))%f32
  = shift_exp j (S754_finite false mx ex + S754_finite false my ey)%f32.
Proof.
  intros Bx By Be Bj.
  rewrite !add_pos_eq by lia.
  rewrite Z.add_min_distr_r.
  replace (ex + j - (Z.min ex ey + j)) with (ex - Z.min ex ey) by lia.
  replace (ey + j - (Z.min ex ey + j)) with (ey - Z.min ex ey) by lia.
  destruct (add_pos_digits mx my ex ey Bx By) as [P D]. cbv zeta in P, D.
  apply bra_shift; lia.
Qed.

Lemma div2_add_even (x j : Z) : Z.div2 (x + 2 * j) = Z.div2 x + j.
Proof.
  pose proof (div2_bounds x). pose proof (div2_bounds (x + 2 * j)). lia.
Qed.

Lemma sqrtf_shift (m : positive) (e j : Z) :
  bounded32 (S754_finite false m e) ->
  bounded32 (S754_finite false m (e + 2 * j)) ->
  F32.sqrtf (S754_finite false m (e + 2 * j))
  = shift_exp j (F32.sqrtf (S754_finite false m e)).
Proof.
  intros B B'.
  destruct (sqrtf_eq m e B) as (mq & _ & Eq & -> & _).
  destruct (sqrtf_eq m (e + 2 * j) B') as (mq' & _ & Eq' & -> & _).
  cbv zeta in *.
  replace (Zpos (digits2_pos m) + (e + 2 * j) + 1)
    with (Zpos (digits2_pos m) + e + 1 + 2 * j) in * by lia.
  rewrite div2_add_even in *.
  set (h := Z.div2 (Zpos (digits2_pos m) + e + 1)) in *.
  replace (e + 2 * j - 2 * (h + j - 24)) with (e - 2 * (h - 24)) in Eq' by lia.
  assert (mq' = mq) by congruence. subst mq'.
  simpl. f_equal. lia.
Qed.

(** [1.0f / len] for a normal positive [len]. *)
Lemma div_one_eq (m : positive) (e : Z) :
  8388608 <= Zpos m < 16777216 -> -149 <= e <= 102 ->
  (F32.one / S754_finite false m e)%f32
  = bra false (140737488355328 / Zpos m) (-47 - e)
      (new_location (Zpos m) (140737488355328 mod Zpos m)).
Proof.
  intros Bm Be.
  unfold F32.div, F32.one, SFdiv, SFdiv_core_binary.
  fold fexp32. cbn [Zdigits2 xorb]. change (Zpos (digits2_pos 8388608)) with 24.
  assert (D : Zpos (digits2_pos m) = 24)
    by (apply (Zdigits2_unique (Zpos m) 24); simpl; lia).
  rewrite D, fexp32_eq.
  change IntDef.Z.min with Z.min.
  replace (Z.min (Z.max (24 + -23 - (24 + e) - 24) (-149)) (-23 - e))
    with (-47 - e) by lia.
  replace (-23 - e - (-47 - e)) with 24 by lia.
  change (IntDef.Z.shiftl 8388608 24) with 140737488355328.
  change IntDef.Z.div_eucl with Z.div_eucl.
  unfold Z.div, Z.modulo.
  destruct (Z.div_eucl 140737488355328 (Zpos m)) as [q r]. reflexivity.
Qed.

Lemma div_one_quotient (m : positive) :
  8388608 <= Zpos m < 16777216 ->
  let q := 140737488355328 / Zpos m in
  0 < q /\ 24 <= Zdigits2 q <= 25.
Proof.
  intros Bm q.
  assert (L : 8388608 <= q)
    by (subst q; apply Z.div_le_lower_bound; lia).
  assert (U : q <= 16777216)
    by (subst q; apply Z.div_le_upper_bound; lia).
  split; [lia|]. split.
  - apply Zdigits2_ge; simpl; lia.
  - apply Zdigits2_le; simpl; lia.
Qed.

Lemma div_one_normal (m : positive) (e : Z) :
  8388608 <= Zpos m < 16777216 -> -98 <= e <= 40 ->
  normal_pos (-47 - e) (-45 - e) (F32.one / S754_finite false m e)%f32.
Proof.
  intros Bm Be. rewrite div_one_eq by lia.
  destruct (div_one_quotient m Bm) as [Q D]. cbv zeta in Q, D.
  destruct (bra_normal false (140737488355328 / Zpos m) (-47 - e)
              (new_location (Zpos m) (140737488355328 mod Zpos m)))
    as (m' & e' & -> & Bm' & E); try lia.
  unfold normal_pos. lia.
Qed.

Lemma div_one_shift (m : positive) (e j : Z) :
  8388608 <= Zpos m < 16777216 -> -98 <= e <= 40 -> -98 <= e + j <= 40 ->
  (F32.one / S754_finite false m (e + j))%f32
  = shift_exp (- j) (F32.one / S754_finite false m e)%f32.
Proof.
  intros Bm Be Bj. rewrite !div_one_eq by lia.
  destruct (div_one_quotient m Bm) as [Q D]. cbv zeta in Q, D.
  replace (-47 - (e + j)) with (-47 - e + - j) by lia.
  apply bra_shift; lia.
Qed.

Lemma scale_val_pow2 (v : vec3) (j : Z) :
  scalable3 v -> scalable3 (shift_exp3 j v) ->
  scale_val v (pow2 j) = shift_exp3 j v.
Proof.
  assert (G : forall x, scalable x -> scalable (shift_exp j x) ->
                   (x * pow2 j)%f32 = shift_exp j x).
  { intros [s| | |s m e]; simpl; try contradiction.
    - intros _ _. unfold F32.mul, pow2. simpl. now rewrite xorb_false_r.
    - intros [Bm Be] [_ Bj]. apply mul_pow2; lia. }
  destruct v as [[x y] z]. simpl.
  intros (Sx & Sy & Sz) (Tx & Ty & Tz).
  now rewrite !G.
Qed.

Lemma square_shift (x : float) (j : Z) :
  scalable x -> scalable (shift_exp j x) ->
  (shift_exp j x * shift_exp j x)%f32 = shift_exp (2 * j) (x * x)%f32
  /\ zero_or_normal 97 (x * x)%f32
  /\ zero_or_normal 97 (shift_exp (2 * j) (x * x)%f32).
Proof.
  destruct x as [s| | |s m e]; cbn [scalable shift_exp]; try contradiction.
  - intros _ _. split; [reflexivity|]. split; left; now destruct s.
  - intros [Bm Be] [_ Bj].
    assert (E : (S754_finite s m (e + j) * S754_finite s m (e + j))%f32
                = shift_exp (2 * j) (S754_finite s m e * S754_finite s m e)%f32)
      by (replace (2 * j) with (j + j) by lia; apply mul_shift; lia).
    split; [exact E|]. rewrite <- E.
    destruct (mul_normal s s m m e e Bm Bm ltac:(lia)) as (m1 & e1 & -> & B1 & E1).
    destruct (mul_normal s s m m (e + j) (e + j) Bm Bm ltac:(lia))
      as (m2 & e2 & -> & B2 & E2).
    rewrite xorb_nilpotent. split; right; unfold normal_pos; lia.
Qed.

Lemma zero_or_normal_weaken (hi hi' : Z) (x : float) :
  hi <= hi' -> zero_or_normal hi x -> zero_or_normal hi' x.
Proof.
  intros H [-> | N]; [now left | right].
  destruct x as [| | |[] m e]; try contradiction. unfold normal_pos in *. lia.
Qed.

Lemma zero_or_normal_shift (hi j : Z) (x : float) :
  zero_or_normal hi x -> zero_or_normal hi (shift_exp j x) ->
  x = F32.zero
  \/ exists m e, x = S754_finite false m e
                 /\ 8388608 <= Zpos m < 16777216
                 /\ -149 <= e <= hi /\ -149 <= e + j <= hi.
Proof.
  intros [-> | N] T; [now left|]. right.
  destruct x as [| | |[] m e]; try contradiction.
  destruct T as [T | T]; [discriminate|].
  simpl in N, T. exists m, e. repeat split; lia.
Qed.

Lemma add_sq_shift (hi j : Z) (x y : float) :
  hi <= 100 ->
  zero_or_normal hi x -> zero_or_normal hi (shift_exp j x) ->
  zero_or_normal hi y -> zero_or_normal hi (shift_exp j y) ->
  (shift_exp j x + shift_exp j y)%f32 = shift_exp j (x + y)%f32
  /\ zero_or_normal (hi + 2) (x + y)%f32
  /\ zero_or_normal (hi + 2) (shift_exp j (x + y)%f32).
Proof.
  intros Hhi Nx Tx Ny Ty.
  destruct (zero_or_normal_shift hi j x Nx Tx) as [-> | (mx & ex & -> & Bx & Ex & Jx)];
  destruct (zero_or_normal_shift hi j y Ny Ty) as [-> | (my & ey & -> & By & Ey & Jy)].
  - split; [reflexivity|]. split; left; reflexivity.
  - split; [reflexivity|].
    split; right; cbv [F32.add SFadd F32.zero shift_exp normal_pos]; lia.
  - split; [reflexivity|].
    split; right; cbv [F32.add SFadd F32.zero shift_exp normal_pos]; lia.
  - assert (E : (shift_exp j (S754_finite false mx ex)
                 + shift_exp j (S754_finite false my ey))%f32
                = shift_exp j (S754_finite false mx ex + S754_finite false my ey)%f32)
      by (cbn [shift_exp]; apply add_pos_shift; lia).
    split; [exact E|].
    assert (N := add_pos_normal mx my ex ey Bx By).
    assert (N' := add_pos_normal mx my (ex + j) (ey + j) Bx By).
    specialize (N ltac:(lia)). specialize (N' ltac:(lia)).
    cbn [shift_exp] in E. rewrite E in N'. clear E.
    set (r := (S754_finite false mx ex + S754_finite false my ey)%f32) in *.
    destruct r as [| | |[] m e]; try contradiction.
    unfold normal_pos in *. cbn [shift_exp] in *.
    split; right; unfold normal_pos; cbn [shift_exp]; lia.
Qed.

Lemma sqrtf_sq_shift (s : float) (j : Z) :
  zero_or_normal 101 s -> zero_or_normal 101 (shift_exp (2 * j) s) ->
  F32.sqrtf (shift_exp (2 * j) s) = shift_exp j (F32.sqrtf s)
  /\ (F32.sqrtf s = F32.zero
      \/ normal_pos (-98) 40 (F32.sqrtf s)
         /\ normal_pos (-98) 40 (shift_exp j (F32.sqrtf s))).
Proof.
  intros N T.
  destruct (zero_or_normal_shift 101 (2 * j) s N T)
    as [-> | (m & e & -> & Bm & Be & Bj)].
  - split; [reflexivity | now left].
  - assert (B : bounded32 (S754_finite false m e)) by (unfold bounded32; lia).
    assert (B' : bounded32 (S754_finite false m (e + 2 * j)))
      by (unfold bounded32; lia).
    cbn [shift_exp].
    assert (E := sqrtf_shift m e j B B').
    split; [exact E|]. right. rewrite <- E.
    assert (D : Zpos (digits2_pos m) = 24)
      by (apply (Zdigits2_unique (Zpos m) 24); simpl; lia).
    destruct (sqrtf_eq m e B) as (mq & Bq & _ & -> & _).
    destruct (sqrtf_eq m (e + 2 * j) B') as (mq' & Bq' & _ & -> & _).
    cbv zeta. rewrite D.
    pose proof (div2_bounds (24 + e + 1)).
    pose proof (div2_bounds (24 + (e + 2 * j) + 1)).
    split; unfold normal_pos; lia.
Qed.

Lemma length_val_shift (v : vec3) (j : Z) :
  scalable3 v -> scalable3 (shift_exp3 j v) ->
  length_val (shift_exp3 j v) = shift_exp j (length_val v)
  /\ (length_val v = F32.zero
      \/ normal_pos (-98) 40 (length_val v)
         /\ normal_pos (-98) 40 (shift_exp j (length_val v))).
Proof.
  destruct v as [[x y] z]. cbn [scalable3 shift_exp3 length_val].
  intros (Sx & Sy & Sz) (Tx & Ty & Tz).
  destruct (square_shift x j Sx Tx) as (-> & Nx & Nx').
  destruct (square_shift y j Sy Ty) as (-> & Ny & Ny').
  destruct (square_shift z j Sz Tz) as (-> & Nz & Nz').
  destruct (add_sq_shift 97 (2 * j) (x * x)%f32 (y * y)%f32) as (-> & Nxy & Nxy');
    try assumption; try lia.
  destruct (add_sq_shift 99 (2 * j) (x * x + y * y)%f32 (z * z)%f32)
    as (-> & Ns & Ns');
    try assumption; try lia;
    try (apply zero_or_normal_weaken with (hi := 97); [lia | assumption]).
  apply sqrtf_sq_shift; assumption.
Qed.

Lemma mul_shift_cancel (x : float) (j : Z) (m : positive) (e : Z) :
  (shift_exp j x * S754_finite false m (e + - j))%f32
  = (x * S754_finite false m e)%f32.
Proof.
  destruct x as [| | |sx mx ex]; try reflexivity.
  unfold F32.mul, SFmul, shift_exp.
  replace (ex + j + (e + - j)) with (ex + e) by lia. reflexivity.
Qed.

(** Scaling by a power of two changes nothing in the normalised vector,
    as long as the squares stay in the normal range. *)
Lemma normalize_val_shift (v : vec3) (j : Z) :
  scalable3 v -> scalable3 (shift_exp3 j v) ->
  normalize_val (shift_exp3 j v) = normalize_val v.
Proof.
  intros S T.
  destruct (length_val_shift v j S T) as (E & L).
  destruct v as [[x y] z]. cbn [shift_exp3] in *.
  unfold normalize_val. rewrite E.
  destruct L as [-> | [N N']]; [reflexivity|].
  destruct (length_val (x, y, z)) as [| | |[] ml el]; try contradiction.
  cbn [shift_exp] in *.
  change (degenerate (S754_finite false ml (el + j))) with false.
  change (degenerate (S754_finite false ml el)) with false.
  cbv iota.
  destruct N as [Bm Be]. destruct N' as [_ Bj].
  rewrite div_one_shift by lia.
  pose proof (div_one_normal ml el Bm Be) as I.
  destruct (F32.one / S754_finite false ml el)%f32 as [| | |[] mi ei];
    try contradiction.
  cbn [shift_exp]. now rewrite !mul_shift_cancel.
Qed.

Lemma exec_seq {A : Type} (c : M unit) (k : M A) (st : state) :
  exec (c ;; k) st = exec k (exec c st).
Proof. unfold exec, bind. now destruct (c st). Qed.

Lemma v3_scale_exec (st : state) (dst : ptr) (s : float) :
  dst <> NULL ->
  exec (v3_scale dst s) st = exec (store3 dst (scale_val (load3 st dst) s)) st.
Proof.
  destruct dst as [|b o]; [congruence|]. intros _.
  unfold v3_scale, scale_val, store3, load3, exec, eval, bind, load, store.
  cbn -[Z.add Z.eqb]. upd_simpl. reflexivity.
Qed.

Lemma reflect_val_normal (v n n' : vec3) :
  normalize_val n' = normalize_val n -> reflect_val v n' = reflect_val v n.
Proof. unfold reflect_val. now intros ->. Qed.

(** X25.  Scaling the normal in place by a power of two [2^j] leaves
    the result of [v3_reflect] unchanged, bit for bit, whenever the
    components of the normal are zeros or of magnitude in
    [[2^-63, 2^60)], before and after the scaling. *)
Theorem reflect_scale_pow2 (st : state) (dst v n : ptr) (j : Z) :
  valid_ptr st dst -> valid_ptr st v -> valid_ptr st n ->
  same_or_separate dst v -> separate n v ->
  F32.valid (pow2 j) = true ->
  scalable3 (load3 st n) -> scalable3 (shift_exp3 j (load3 st n)) ->
  load3 (exec (v3_scale n (pow2 j) ;; v3_reflect dst v n) st) dst
  = load3 (exec (v3_reflect dst v n) st) dst.
Proof.
  intros Hd Hv Hn Sdv Snv _ S T.
  rewrite exec_seq, v3_scale_exec by eauto with v3.
  set (st1 := exec (store3 n _) st).
  assert (N1 : nextblock st1 = nextblock st) by apply nextblock_store3.
  assert (Hd1 : valid_ptr st1 dst) by (destruct dst; simpl in *; lia).
  assert (Hv1 : valid_ptr st1 v) by (destruct v; simpl in *; lia).
  assert (Hn1 : valid_ptr st1 n) by (destruct n; simpl in *; lia).
  destruct (v3_reflect_spec st1 dst v n Hd1 Hv1 Hn1 Sdv) as [-> _].
  destruct (v3_reflect_spec st dst v n Hd Hv Hn Sdv) as [-> _].
  assert (Ev : load3 st1 v = load3 st v)
    by (subst st1; now apply load3_store3_separate).
  assert (En : load3 st1 n = scale_val (load3 st n) (pow2 j)).
  { subst st1. destruct n; [contradiction | apply load3_store3]. }
  rewrite Ev, En. apply reflect_val_normal.
  rewrite scale_val_pow2 by assumption.
  now apply normalize_val_shift.
Qed.

(** [test_v3_reflect] with the normal [(0,1,0)] scaled by [2^3]. *)
Lemma reflect_scale_pow2_witness :
  let st := state_of [vec_of_Z 0 (-1) 0; vec_of_Z 0 1 0; vec_of_Z 0 0 0] in
  load3 (exec (v3_scale (Ptr 1 0) (pow2 3) ;; v3_reflect (Ptr 2 0) (Ptr 0 0) (Ptr 1 0)) st)
    (Ptr 2 0)
  = load3 (exec (v3_reflect (Ptr 2 0) (Ptr 0 0) (Ptr 1 0)) st) (Ptr 2 0).
Proof.
  intros st.
  assert (V : valid_ptr st (Ptr 2 0) /\ valid_ptr st (Ptr 0 0)
              /\ valid_ptr st (Ptr 1 0)) by (simpl; lia).
  destruct V as (V2 & V0 & V1).
  assert (S20 : same_or_separate (Ptr 2 0) (Ptr 0 0)) by (right; left; lia).
  assert (S10 : separate (Ptr 1 0) (Ptr 0 0)) by (left; lia).
  assert (Sc : scalable3 (load3 st (Ptr 1 0)))
    by (repeat split; vm_compute; (exact I || reflexivity || discriminate)).
  assert (Sc' : scalable3 (shift_exp3 3 (load3 st (Ptr 1 0))))
    by (repeat split; vm_compute; (exact I || reflexivity || discriminate)).
  exact (reflect_scale_pow2 st (Ptr 2 0) (Ptr 0 0) (Ptr 1 0) 3
           V2 V0 V1 S20 S10 eq_refl Sc Sc').
Defined.

(** ** Powers of two and values *)

Local Open Scope R_scope.

Lemma bpow_pos (e : Z) : 0 < bpow e.
Proof. apply powerRZ_lt. lra. Qed.

Lemma bpow_add (a b : Z) : bpow (a + b) = bpow a * bpow b.
Proof. apply powerRZ_add. lra. Qed.

Lemma bpow_IZR (k : Z) : (0 <= k)%Z -> bpow k = IZR (2 ^ k).
Proof.
  intros Hk. unfold bpow.
  rewrite <- (Z2Nat.id k Hk) at 1. rewrite <- pow_powerRZ.
  change 2 with (IZR 2). rewrite pow_IZR. now rewrite Z2Nat.id.
Qed.

Lemma bpow_ge_1 (k : Z) : (0 <= k)%Z -> 1 <= bpow k.
Proof.
  intros Hk. rewrite bpow_IZR by assumption. apply IZR_le.
  assert (0 < 2 ^ k)%Z by (apply Z.pow_pos_nonneg; lia). lia.
Qed.

Lemma bpow_le (a b : Z) : (a <= b)%Z -> bpow a <= bpow b.
Proof.
  intros H. replace b with (a + (b - a))%Z by lia. rewrite bpow_add.
  pose proof (bpow_pos a). pose proof (bpow_ge_1 (b - a) ltac:(lia)). nra.
Qed.

Lemma bpow_lt (a b : Z) : (a < b)%Z -> bpow a < bpow b.
Proof.
  intros H. replace b with (a + 1 + (b - a - 1))%Z by lia.
  rewrite !bpow_add.
  pose proof (bpow_pos a). pose proof (bpow_ge_1 (b - a - 1) ltac:(lia)).
  replace (bpow 1) with 2 by (unfold bpow; simpl; lra). nra.
Qed.

Lemma bpow_lt_inv (a b : Z) : bpow a < bpow b -> (a < b)%Z.
Proof.
  intros H. destruct (Z_lt_le_dec a b) as [L|L]; [exact L|].
  apply bpow_le in L. lra.
Qed.

Lemma bpow_0 : bpow 0 = 1.
Proof. reflexivity. Qed.

Lemma F2R_abs_nonneg (x : float) : 0 <= F2R_abs x.
Proof.
  destruct x as [| | |s m e]; simpl; try lra.
  pose proof (bpow_pos e). assert (0 < IZR (Zpos m)) by (apply IZR_lt; lia).
  nra.
Qed.

Lemma F2R_sign (x : float) : F2R x = F2R_abs x \/ F2R x = - F2R_abs x.
Proof.
  destruct x as [| | |[] m e]; simpl; try (left; lra).
  - right. change (Z.neg m) with (- Zpos m)%Z. rewrite opp_IZR. unfold bpow. lra.
  - left. reflexivity.
Qed.

Lemma F2R_sqr (x : float) : F2R x * F2R x = F2R_abs x * F2R_abs x.
Proof. destruct (F2R_sign x) as [-> | ->]; ring. Qed.

Lemma F2R_pos (m : positive) (e : Z) :
  F2R (S754_finite false m e) = IZR (Zpos m) * bpow e.
Proof. reflexivity. Qed.

(** Digits against the real value. *)
Lemma value_lt_digits (m e k : Z) :
  (0 < m)%Z -> IZR m * bpow e < bpow k -> (Zdigits2 m + e <= k)%Z /\ (e < k)%Z.
Proof.
  intros Hm H.
  destruct (Zdigits2_bounds m Hm) as [Dl _].
  pose proof (Zdigits2_pos m Hm) as Dp.
  pose proof (bpow_pos e) as Pe.
  assert (L : bpow (Zdigits2 m - 1 + e) <= IZR m * bpow e).
  { rewrite bpow_add. rewrite (bpow_IZR (Zdigits2 m - 1)) by lia.
    apply IZR_le in Dl. nra. }
  assert (bpow e <= IZR m * bpow e).
  { assert (1 <= IZR m) by (apply IZR_le; lia). nra. }
  split.
  - assert (Zdigits2 m - 1 + e < k)%Z by (apply bpow_lt_inv; lra). lia.
  - apply bpow_lt_inv; lra.
Qed.

(** ** The error of one rounding *)

Lemma bra_result_value (s : bool) (m e : Z) :
  (0 <= m)%Z -> F32.isfinite (bra_result s m e) = true ->
  F2R_abs (bra_result s m e) = IZR m * bpow e
  /\ F2R (bra_result s m e) = (if s then -1 else 1) * (IZR m * bpow e).
Proof.
  intros Hm. destruct m as [|p|p]; simpl; try lia.
  - intros _. destruct s; split; lra.
  - destruct (_ <=? _)%Z; simpl; [|discriminate]. intros _.
    split; [reflexivity|]. destruct s; simpl.
    + change (Z.neg p) with (- Zpos p)%Z. rewrite opp_IZR. unfold bpow. lra.
    + unfold bpow. lra.
Qed.

Lemma bra_value (s : bool) (m e : Z) (l : location) :
  (0 < m)%Z -> F32.isfinite (bra s m e l) = true ->
  let n1 := (fexp32 (Zdigits2 m + e) - e)%Z in
  let v := IZR (rnd_shift m l n1) * bpow (e + Z.max 0 n1) in
  F2R_abs (bra s m e l) = v
  /\ F2R (bra s m e l) = (if s then -1 else 1) * v.
Proof.
  intros Hm. destruct (bra_eq2 s m e l Hm) as (B & _ & ->). cbv zeta.
  set (n1 := (fexp32 (Zdigits2 m + e) - e)%Z) in *.
  set (m1 := rnd_shift m l n1) in *.
  destruct (Z.eqb_spec m1 16777216) as [C|C]; intros F.
  - destruct (bra_result_value s 8388608 (e + Z.max 0 n1 + 1) ltac:(lia) F)
      as [-> ->].
    rewrite C, bpow_add. replace (bpow 1) with 2 by (unfold bpow; simpl; lra).
    split; [|destruct s]; lra.
  - destruct (bra_result_value s m1 (e + Z.max 0 n1) ltac:(lia) F) as [-> ->].
    split; reflexivity.
Qed.

Lemma bra_finite_if (s : bool) (m e : Z) (l : location) :
  (0 < m)%Z -> (e <= 102)%Z -> (Zdigits2 m + e <= 126)%Z ->
  F32.isfinite (bra s m e l) = true.
Proof.
  intros Hm He Hd. destruct (bra_eq2 s m e l Hm) as (B & _ & ->).
  pose proof (Zdigits2_pos m Hm).
  set (n1 := (fexp32 (Zdigits2 m + e) - e)%Z) in *.
  assert (Hn1 : n1 = Z.max (Zdigits2 m - 24) (-149 - e))
    by (subst n1; rewrite fexp32_eq; lia).
  destruct (_ =? _)%Z; apply bra_result_finite; lia.
Qed.

Lemma u32_eq : u32 = / 8388608.
Proof. unfold u32, bpow. simpl. lra. Qed.

Lemma bra_error (s : bool) (m e : Z) (l : location) (x : R) :
  (0 < m)%Z -> F32.isfinite (bra s m e l) = true ->
  l = loc_Exact \/ (24 <= Zdigits2 m)%Z ->
  (l = loc_Exact -> x = IZR m * bpow e) ->
  IZR m * bpow e <= x <= (IZR m + 1) * bpow e ->
  Rabs (F2R_abs (bra s m e l) - x) <= u32 * x + eta32.
Proof.
  intros Hm F Hl Hx Bx.
  destruct (bra_value s m e l Hm F) as [-> _].
  set (n1 := (fexp32 (Zdigits2 m + e) - e)%Z).
  set (k := Z.max 0 n1).
  set (m1 := rnd_shift m l n1).
  pose proof (Zdigits2_pos m Hm) as Dp.
  destruct (Zdigits2_bounds m Hm) as [Dl Du].
  assert (Hn1 : n1 = Z.max (Zdigits2 m - 24) (-149 - e))
    by (subst n1; rewrite fexp32_eq; lia).
  pose proof (bpow_pos e) as Pe.
  assert (Pm : 1 <= IZR m) by (apply IZR_le; lia).
  assert (Pu : 0 < u32) by apply bpow_pos.
  assert (Peta : 0 < eta32) by apply bpow_pos.
  assert (Px : 0 < x) by nra.
  assert (P2k : (0 < 2 ^ k)%Z) by (apply Z.pow_pos_nonneg; lia).
  set (q := (m / 2 ^ k)%Z).
  assert (Q1 : (q * 2 ^ k <= m)%Z)
    by (subst q; rewrite Z.mul_comm; apply Z.mul_div_le; lia).
  assert (Q2 : (m + 1 <= (q + 1) * 2 ^ k)%Z).
  { subst q. pose proof (Z.mul_succ_div_gt m (2 ^ k) P2k). lia. }
  assert (C1 : m1 = q \/ m1 = (q + 1)%Z)
    by (subst m1 q k; apply rnd_shift_cases; lia).
  rewrite bpow_add, (bpow_IZR k) by lia.
  apply IZR_le in Q1, Q2. rewrite mult_IZR in Q1, Q2.
  rewrite plus_IZR in Q2. rewrite (plus_IZR q 1) in Q2.
  assert (PK : 1 <= IZR (2 ^ k)) by (apply IZR_le; lia).
  assert (E : Rabs (IZR m1 * (bpow e * IZR (2 ^ k)) - x) <= IZR (2 ^ k) * bpow e).
  { apply Rabs_le.
    destruct C1 as [-> | ->]; [|rewrite plus_IZR]; split; nra. }
  destruct (Z_le_gt_dec n1 0) as [N|N].
  - (* no bit is dropped *)
    assert (K0 : k = 0%Z) by lia.
    destruct Hl as [-> | Hd].
    + subst m1. rewrite rnd_shift_noshift by assumption. simpl round_nearest_even.
      rewrite K0. simpl (2 ^ 0)%Z.
      replace (IZR m * (bpow e * 1) - x) with 0
        by (rewrite (Hx eq_refl); ring).
      rewrite Rabs_R0. nra.
    + assert (D : Zdigits2 m = 24%Z) by lia.
      rewrite D in Dl. change (2 ^ (24 - 1))%Z with 8388608%Z in Dl.
      apply IZR_le in Dl.
      apply Rle_trans with (1 := E). rewrite K0. simpl (2 ^ 0)%Z.
      rewrite u32_eq. nra.
  - apply Rle_trans with (1 := E).
    assert (Kn : k = n1) by lia.
    destruct (Z_le_gt_dec (-149 - e) (Zdigits2 m - 24)) as [T|T].
    + (* the result is normal *)
      assert (Kd : k = (Zdigits2 m - 24)%Z) by lia.
      assert (L : IZR (2 ^ k) * 8388608 <= IZR m).
      { change 8388608 with (IZR (2 ^ 23)). rewrite <- mult_IZR.
        apply IZR_le. rewrite <- Z.pow_add_r by lia.
        replace (k + 23)%Z with (Zdigits2 m - 1)%Z by lia. exact Dl. }
      rewrite u32_eq. nra.
    + (* the result is subnormal *)
      assert (Ke : (e + k = -149)%Z) by lia.
      rewrite <- (bpow_IZR k) by lia. rewrite Rmult_comm, <- bpow_add, Ke.
      fold eta32. nra.
Qed.

(** ** The error of each operation *)

Lemma F2R_signed (s : bool) (m : positive) (e : Z) :
  F2R (S754_finite s m e) = (if s then -1 else 1) * (IZR (Zpos m) * bpow e).
Proof.
  destruct s; simpl.
  - change (Z.neg m) with (- Zpos m)%Z. rewrite opp_IZR. unfold bpow. lra.
  - unfold bpow. lra.
Qed.

Lemma sign_xorb (a b : bool) :
  (if xorb a b then -1 else 1)
  = (if a then -1 else 1) * (if b then -1 else 1).
Proof. destruct a, b; simpl; lra. Qed.

Lemma u32_pos : 0 < u32.
Proof. apply bpow_pos. Qed.

Lemma eta32_pos : 0 < eta32.
Proof. apply bpow_pos. Qed.

Lemma mul_error (a b : float) :
  F32.isfinite a = true -> F32.isfinite b = true ->
  F32.isfinite (a * b)%f32 = true ->
  Rabs (F2R (a * b)%f32 - F2R a * F2R b)
  <= u32 * Rabs (F2R a * F2R b) + eta32.
Proof.
  pose proof u32_pos. pose proof eta32_pos.
  destruct a as [sa| | |sa ma ea], b as [sb| | |sb mb eb]; try discriminate;
    intros _ _ F;
    try (simpl F2R; rewrite ?Rmult_0_l, ?Rmult_0_r, Rminus_0_r, Rabs_R0; lra).
  change (F32.isfinite (bra (xorb sa sb) (Zpos (ma * mb)) (ea + eb) loc_Exact)
          = true) in F.
  change (S754_finite sa ma ea * S754_finite sb mb eb)%f32
    with (bra (xorb sa sb) (Zpos (ma * mb)) (ea + eb) loc_Exact).
  set (x := IZR (Zpos (ma * mb)) * bpow (ea + eb)).
  assert (Px : 0 < x).
  { subst x. pose proof (bpow_pos (ea + eb)).
    assert (0 < IZR (Zpos (ma * mb))) by (apply IZR_lt; lia). nra. }
  assert (E := bra_error (xorb sa sb) (Zpos (ma * mb)) (ea + eb) loc_Exact x
                 ltac:(lia) F (or_introl eq_refl) (fun _ => eq_refl)).
  assert (Bx : x <= x <= (IZR (Zpos (ma * mb)) + 1) * bpow (ea + eb)).
  { subst x. pose proof (bpow_pos (ea + eb)). split; nra. }
  specialize (E Bx).
  destruct (bra_value (xorb sa sb) (Zpos (ma * mb)) (ea + eb) loc_Exact
              ltac:(lia) F) as [Va Vs].
  cbv zeta in Va, Vs. rewrite Vs. rewrite <- Va.
  rewrite !F2R_signed.
  replace ((if sa then -1 else 1) * (IZR (Zpos ma) * bpow ea)
           * ((if sb then -1 else 1) * (IZR (Zpos mb) * bpow eb)))
    with ((if xorb sa sb then -1 else 1) * x)
    by (subst x; rewrite sign_xorb, Pos2Z.inj_mul, mult_IZR, bpow_add; ring).
  set (r := F2R_abs _) in *.
  destruct (xorb sa sb).
  - replace (-1 * r - -1 * x) with (- (r - x)) by ring.
    rewrite Rabs_Ropp.
    replace (Rabs (-1 * x)) with x
      by (rewrite Rabs_left; lra).
    exact E.
  - rewrite !Rmult_1_l. rewrite (Rabs_right x) by lra. exact E.
Qed.

Lemma mul_finite_if (a b : float) :
  F32.isfinite a = true -> F32.isfinite b = true ->
  Rabs (F2R a * F2R b) < bpow 100 ->
  F32.isfinite (a * b)%f32 = true.
Proof.
  destruct a as [sa| | |sa ma ea], b as [sb| | |sb mb eb]; try discriminate;
    intros _ _ B; try reflexivity.
  change (F32.isfinite (bra (xorb sa sb) (Zpos (ma * mb)) (ea + eb) loc_Exact)
          = true).
  rewrite !F2R_signed in B.
  replace ((if sa then -1 else 1) * (IZR (Zpos ma) * bpow ea)
           * ((if sb then -1 else 1) * (IZR (Zpos mb) * bpow eb)))
    with ((if xorb sa sb then -1 else 1)
          * (IZR (Zpos (ma * mb)) * bpow (ea + eb))) in B
    by (rewrite sign_xorb, Pos2Z.inj_mul, mult_IZR, bpow_add; ring).
  set (x := IZR (Zpos (ma * mb)) * bpow (ea + eb)) in *.
  assert (Px : 0 < x).
  { subst x. pose proof (bpow_pos (ea + eb)).
    assert (0 < IZR (Zpos (ma * mb))) by (apply IZR_lt; lia). nra. }
  assert (Bx : x < bpow 100).
  { destruct (xorb sa sb).
    - rewrite Rabs_left in B by lra. lra.
    - rewrite Rabs_right in B by lra. lra. }
  destruct (value_lt_digits (Zpos (ma * mb)) (ea + eb) 100 ltac:(lia) Bx).
  apply bra_finite_if; lia.
Qed.

Lemma square_nonneg_finite (x : float) :
  F32.isfinite (x * x)%f32 = true -> nonneg_finite (x * x)%f32.
Proof.
  destruct x as [s| | |s m e]; try discriminate; intros F.
  - now destruct s.
  - change (S754_finite s m e * S754_finite s m e)%f32
      with (bra (xorb s s) (Zpos (m * m)) (e + e) loc_Exact) in *.
    rewrite xorb_nilpotent in *.
    destruct (bra false (Zpos (m * m)) (e + e) loc_Exact) as [| | |s' m' e'] eqn:E;
      try discriminate; simpl; trivial.
    apply bra_sign in E; [now subst s'|lia].
Qed.

Lemma bpow_opp_IZR (d : Z) : (0 <= d)%Z -> IZR (2 ^ d) * bpow (- d) = 1.
Proof.
  intros Hd. rewrite <- bpow_IZR by assumption. rewrite <- bpow_add.
  replace (d + - d)%Z with 0%Z by lia. apply bpow_0.
Qed.

Lemma shl_align_value (m : positive) (e e' : Z) :
  IZR (Zpos (fst (shl_align m e e'))) * bpow (snd (shl_align m e e'))
  = IZR (Zpos m) * bpow e.
Proof.
  unfold shl_align. destruct (e' - e)%Z as [|d|d] eqn:E; cbn [fst snd];
    try reflexivity.
  rewrite pos_iter_xO, mult_IZR.
  replace e' with (e + - Zpos d)%Z by lia. rewrite bpow_add.
  pose proof (bpow_opp_IZR (Zpos d) ltac:(lia)) as W.
  replace (IZR (Zpos m) * IZR (2 ^ Zpos d) * (bpow e * bpow (- Zpos d)))
    with (IZR (Zpos m) * bpow e * (IZR (2 ^ Zpos d) * bpow (- Zpos d)))
    by ring.
  rewrite W. ring.
Qed.

Lemma add_pos_bra (ma mb : positive) (ea eb : Z) :
  exists mz ez,
    (S754_finite false ma ea + S754_finite false mb eb)%f32
    = bra false (Zpos mz) ez loc_Exact
    /\ IZR (Zpos mz) * bpow ez
       = IZR (Zpos ma) * bpow ea + IZR (Zpos mb) * bpow eb.
Proof.
  unfold F32.add, SFadd. cbn [cond_Zopp].
  rewrite !shl_align_fst by lia.
  set (ez := Z.min ea eb).
  assert (Pa : (0 < 2 ^ (ea - ez))%Z) by (apply Z.pow_pos_nonneg; lia).
  assert (Pb : (0 < 2 ^ (eb - ez))%Z) by (apply Z.pow_pos_nonneg; lia).
  assert (V : IZR (Zpos ma * 2 ^ (ea - ez) + Zpos mb * 2 ^ (eb - ez)) * bpow ez
              = IZR (Zpos ma) * bpow ea + IZR (Zpos mb) * bpow eb).
  { rewrite plus_IZR, !mult_IZR.
    rewrite <- !bpow_IZR by (subst ez; lia).
    assert (A : bpow (ea - ez) * bpow ez = bpow ea)
      by (rewrite <- bpow_add; f_equal; lia).
    assert (B : bpow (eb - ez) * bpow ez = bpow eb)
      by (rewrite <- bpow_add; f_equal; lia).
    rewrite Rmult_plus_distr_r, !Rmult_assoc, A, B. reflexivity. }
  destruct (Zpos ma * 2 ^ (ea - ez) + Zpos mb * 2 ^ (eb - ez))%Z
    as [|p|p] eqn:ES; try lia.
  unfold binary_normalize, binary_round.
  pose proof (shl_align_value p ez
                (fexp F32.prec F32.emax (Zpos (digits2_pos p) + ez))) as W.
  destruct (shl_align p ez _) as [mz ez0]. cbn [fst snd] in W.
  exists mz, ez0. split; [reflexivity|]. now rewrite W.
Qed.

Lemma nonneg_finite_F2R (a : float) : nonneg_finite a -> 0 <= F2R a.
Proof.
  destruct a as [| | |[] m e]; simpl; try contradiction; intros _; try lra.
  pose proof (powerRZ_lt 2 e ltac:(lra)).
  assert (0 < IZR (Zpos m)) by (apply IZR_lt; lia). nra.
Qed.

Lemma bra_false_nonneg (m e : Z) (l : location) :
  (0 <= m)%Z -> F32.isfinite (bra false m e l) = true ->
  nonneg_finite (bra false m e l).
Proof.
  intros Hm F.
  destruct (bra false m e l) as [| | |s' m' e'] eqn:E; try discriminate;
    simpl; trivial.
  apply bra_sign in E; [now subst s' | exact Hm].
Qed.

Lemma add_error (a b : float) :
  nonneg_finite a -> nonneg_finite b ->
  F32.isfinite (a + b)%f32 = true ->
  nonneg_finite (a + b)%f32
  /\ Rabs (F2R (a + b)%f32 - (F2R a + F2R b))
     <= u32 * (F2R a + F2R b) + eta32.
Proof.
  pose proof u32_pos. pose proof eta32_pos.
  intros Na Nb F.
  pose proof (nonneg_finite_F2R a Na) as Pa.
  pose proof (nonneg_finite_F2R b Nb) as Pb.
  assert (Z0 : forall x, x = F2R a + F2R b ->
                  Rabs (x - (F2R a + F2R b)) <= u32 * (F2R a + F2R b) + eta32).
  { intros x ->. replace (_ - _) with 0 by ring. rewrite Rabs_R0. nra. }
  destruct a as [sa| | |[] ma ea], b as [sb| | |[] mb eb]; try contradiction.
  - split; [destruct sa, sb; exact I|]. apply Z0.
    destruct sa, sb; simpl; lra.
  - split; [exact I|]. apply Z0. simpl. lra.
  - split; [exact I|]. apply Z0. simpl. lra.
  - destruct (add_pos_bra ma mb ea eb) as (mz & ez & E & V).
    rewrite E in *. split; [apply bra_false_nonneg; [lia|exact F]|].
    destruct (bra_value false (Zpos mz) ez loc_Exact ltac:(lia) F) as [Va Vs].
    cbv zeta in Va, Vs. rewrite Vs, <- Va, Rmult_1_l.
    rewrite !F2R_pos, <- V.
    assert (Px : 0 < IZR (Zpos mz) * bpow ez).
    { pose proof (bpow_pos ez).
      assert (0 < IZR (Zpos mz)) by (apply IZR_lt; lia). nra. }
    apply bra_error; try assumption; try lia.
    + now left.
    + reflexivity.
    + pose proof (bpow_pos ez). split; nra.
Qed.

Lemma add_finite_if (a b : float) :
  nonneg_finite a -> nonneg_finite b ->
  F2R a + F2R b < bpow 100 ->
  F32.isfinite (a + b)%f32 = true.
Proof.
  intros Na Nb B.
  destruct a as [sa| | |[] ma ea], b as [sb| | |[] mb eb]; try contradiction;
    try reflexivity.
  - now destruct sa, sb.
  - destruct (add_pos_bra ma mb ea eb) as (mz & ez & -> & V).
    rewrite !F2R_pos, <- V in B.
    destruct (value_lt_digits (Zpos mz) ez 100 ltac:(lia) B).
    apply bra_finite_if; lia.
Qed.

Lemma sqrt_error (s : float) :
  nonneg_finite s -> bounded32 s ->
  F32.isfinite (F32.sqrtf s) = true
  /\ 0 <= F2R (F32.sqrtf s)
  /\ (1 - u32) * (1 - u32) * F2R s
     <= F2R (F32.sqrtf s) * F2R (F32.sqrtf s)
     <= (1 + u32) * (1 + u32) * F2R s.
Proof.
  destruct s as [ss| | |[] m e]; try contradiction; intros _ B.
  { destruct ss; simpl; repeat split; lra. }
  destruct (sqrtf_eq m e B) as (mq & Bq & _ & -> & Hsh & q & Hq & Hqq & Hmq).
  cbv zeta in *.
  set (g := (Z.div2 (Zpos (digits2_pos m) + e + 1) - 24)%Z) in *.
  set (sh := (e - 2 * g)%Z) in *.
  split; [reflexivity|].
  rewrite !F2R_pos.
  pose proof (bpow_pos g) as Pg.
  assert (Pmq : 0 < IZR (Zpos mq)) by (apply IZR_lt; lia).
  split; [nra|].
  assert (Ee : bpow e = IZR (2 ^ sh) * (bpow g * bpow g)).
  { rewrite <- bpow_IZR by lia. rewrite <- !bpow_add. f_equal. subst sh. lia. }
  rewrite Ee.
  set (N := IZR (Zpos m) * IZR (2 ^ sh)).
  replace (IZR (Zpos m) * (IZR (2 ^ sh) * (bpow g * bpow g)))
    with (N * (bpow g * bpow g)) by (subst N; ring).
  set (Q := IZR q).
  assert (HQ : 8388608 <= Q) by (subst Q; apply IZR_le; lia).
  assert (N1 : Q * Q <= N).
  { subst Q N. rewrite <- !mult_IZR. apply IZR_le. lia. }
  assert (N2 : N <= (Q + 1) * (Q + 1)).
  { subst Q N. rewrite <- (plus_IZR q 1), <- !mult_IZR. apply IZR_le. lia. }
  assert (M1 : Q <= IZR (Zpos mq) <= Q + 1).
  { subst Q. destruct Hmq as [-> | ->]; [|rewrite plus_IZR]; lra. }
  rewrite u32_eq.
  set (u := / 8388608).
  assert (Hu : u * 8388608 = 1) by (subst u; lra).
  assert (Pu : 0 < u) by (subst u; lra).
  assert (Pu1 : u < 1) by (subst u; lra).
  assert (UQ : 1 <= u * Q) by nra.
  set (B2 := bpow g * bpow g).
  assert (PB2 : 0 < B2) by (subst B2; nra).
  set (r := IZR (Zpos mq)) in *.
  assert (Lo : (1 - u) * (1 - u) * N <= r * r).
  { assert (A1 : (1 - u) * (Q + 1) <= r) by nra.
    assert (A2 : 0 <= (1 - u) * (Q + 1)) by nra.
    assert (A3 : ((1 - u) * (Q + 1)) * ((1 - u) * (Q + 1)) <= r * r) by nra.
    assert (A4 : (1 - u) * (1 - u) * N
                 <= ((1 - u) * (Q + 1)) * ((1 - u) * (Q + 1))).
    { replace (((1 - u) * (Q + 1)) * ((1 - u) * (Q + 1)))
        with ((1 - u) * (1 - u) * ((Q + 1) * (Q + 1))) by ring.
      apply Rmult_le_compat_l; [nra | exact N2]. }
    lra. }
  assert (Hi : r * r <= (1 + u) * (1 + u) * N).
  { assert (A1 : r <= (1 + u) * Q) by nra.
    assert (A3 : r * r <= ((1 + u) * Q) * ((1 + u) * Q)) by nra.
    assert (A4 : ((1 + u) * Q) * ((1 + u) * Q) <= (1 + u) * (1 + u) * N).
    { replace (((1 + u) * Q) * ((1 + u) * Q))
        with ((1 + u) * (1 + u) * (Q * Q)) by ring.
      apply Rmult_le_compat_l; [nra | exact N1]. }
    lra. }
  split.
  - replace (r * bpow g * (r * bpow g)) with (r * r * B2) by (subst B2; ring).
    replace ((1 - u) * (1 - u) * (N * B2)) with ((1 - u) * (1 - u) * N * B2) by ring.
    apply Rmult_le_compat_r; lra.
  - replace (r * bpow g * (r * bpow g)) with (r * r * B2) by (subst B2; ring).
    replace ((1 + u) * (1 + u) * (N * B2)) with ((1 + u) * (1 + u) * N * B2) by ring.
    apply Rmult_le_compat_r; lra.
Qed.

Lemma new_location_exact (nb k : Z) :
  new_location nb k = loc_Exact -> k = 0%Z.
Proof.
  unfold new_location, new_location_even, new_location_odd.
  destruct (Z.even nb); destruct (Z.eqb_spec k 0); trivial; discriminate.
Qed.

Lemma div_error (m : positive) (e : Z) :
  (8388608 <= Zpos m < 16777216)%Z -> (-98 <= e <= 40)%Z ->
  let inv := (F32.one / S754_finite false m e)%f32 in
  normal_pos (-47 - e) (-45 - e) inv
  /\ Rabs (F2R inv * F2R (S754_finite false m e) - 1) <= 2 * u32.
Proof.
  intros Bm Be inv.
  pose proof (div_one_normal m e Bm Be) as N. fold inv in N.
  split; [exact N|].
  assert (F : F32.isfinite inv = true)
    by (destruct inv as [| | |[] mi ei]; try contradiction; reflexivity).
  subst inv. rewrite div_one_eq in * by lia.
  destruct (div_one_quotient m Bm) as [Q D]. cbv zeta in Q, D.
  set (q := (140737488355328 / Zpos m)%Z) in *.
  set (rm := (140737488355328 mod Zpos m)%Z) in *.
  set (loc := new_location (Zpos m) rm) in *.
  assert (Edm : (140737488355328 = Zpos m * q + rm)%Z)
    by (subst q rm; apply Z.div_mod; lia).
  assert (Brm : (0 <= rm < Zpos m)%Z)
    by (subst rm; apply Z.mod_pos_bound; lia).
  destruct (bra_value false q (-47 - e) loc Q F) as [Va Vs].
  cbv zeta in Va, Vs. rewrite Vs, <- Va, Rmult_1_l. clear Vs Va.
  rewrite F2R_pos.
  set (Mr := IZR (Zpos m)). set (Bev := bpow e).
  set (l := Mr * Bev).
  assert (PM : 8388608 <= Mr < 16777216)
    by (subst Mr; split; [apply IZR_le | apply IZR_lt]; lia).
  assert (PB : 0 < Bev) by apply bpow_pos.
  assert (Pl : 0 < l) by (subst l; nra).
  set (x := / l).
  assert (Xl : x * l = 1) by (subst x; field; lra).
  assert (Px : 0 < x) by (subst x; now apply Rinv_0_lt_compat).
  set (c := bpow (-47 - e)).
  assert (Pc : 0 < c) by apply bpow_pos.
  assert (Cl : c * l * 140737488355328 = Mr).
  { subst c l Bev. replace (-47 - e)%Z with (-47 + - e)%Z by lia.
    rewrite bpow_add.
    assert (A : bpow (- e) * bpow e = 1)
      by (rewrite <- bpow_add; replace (- e + e)%Z with 0%Z by lia; apply bpow_0).
    assert (A' : bpow (-47) * 140737488355328 = 1)
      by (unfold bpow; simpl; lra).
    replace (bpow (-47) * bpow (- e) * (Mr * bpow e) * 140737488355328)
      with (Mr * (bpow (- e) * bpow e) * (bpow (-47) * 140737488355328)) by ring.
    rewrite A, A'. ring. }
  assert (I1 : IZR q * Mr <= 140737488355328).
  { subst Mr. rewrite <- mult_IZR. apply IZR_le. lia. }
  assert (I2 : 140737488355328 <= (IZR q + 1) * Mr).
  { subst Mr. rewrite <- (plus_IZR q 1), <- mult_IZR. apply IZR_le. lia. }
  assert (Pq : 0 < IZR q) by (apply IZR_lt; lia).
  assert (J1 : IZR q * c * l <= 1) by nra.
  assert (J2 : 1 <= (IZR q + 1) * c * l) by nra.
  assert (Bx : IZR q * c <= x <= (IZR q + 1) * c) by (split; nra).
  assert (Hx : loc = loc_Exact -> x = IZR q * c).
  { intros HL. apply new_location_exact in HL.
    assert (I3 : IZR q * Mr = 140737488355328).
    { subst Mr. rewrite <- mult_IZR. f_equal. lia. }
    assert (IZR q * c * l = 1) by nra. nra. }
  pose proof (bra_error false q (-47 - e) loc x Q F (or_intror (proj1 D)) Hx Bx)
    as E.
  set (I := F2R_abs (bra false q (-47 - e) loc)) in *.
  replace (I * l - 1) with ((I - x) * l) by (rewrite Rmult_minus_distr_r, Xl; ring).
  rewrite Rabs_mult, (Rabs_right l) by lra.
  assert (El : eta32 * l <= u32).
  { assert (Bev <= bpow 40) by (subst Bev; apply bpow_le; lia).
    assert (eta32 * (16777216 * bpow 40) <= u32).
    { unfold eta32, u32. change 16777216 with (IZR (2 ^ 24)).
      rewrite <- (bpow_IZR 24) by lia. rewrite <- !bpow_add.
      apply bpow_le. lia. }
    assert (Mr * Bev <= 16777216 * bpow 40)
      by (apply Rmult_le_compat; lra).
    pose proof eta32_pos. subst l.
    apply Rle_trans with (eta32 * (16777216 * bpow 40)); [|assumption].
    apply Rmult_le_compat_l; lra. }
  pose proof u32_pos. pose proof (Rabs_pos (I - x)).
  assert (Rabs (I - x) * l <= (u32 * x + eta32) * l)
    by (apply Rmult_le_compat_r; lra).
  nra.
Qed.

(** ** Accumulating the errors *)

Lemma Rabs_le_inv (x a : R) : Rabs x <= a -> - a <= x <= a.
Proof. unfold Rabs. destruct (Rcase_abs x); lra. Qed.

Section SumOfSquares.

Variables u eta : R.
Hypothesis Hu : 0 < u <= / 1000.
Hypothesis Heta : 0 <= eta.

(** Three rounded squares added with two rounded additions. *)
Lemma sumsq_error (a2 b2 c2 X Y Z P s : R) :
  0 <= a2 -> 0 <= b2 -> 0 <= c2 ->
  Rabs (X - a2) <= u * a2 + eta ->
  Rabs (Y - b2) <= u * b2 + eta ->
  Rabs (Z - c2) <= u * c2 + eta ->
  Rabs (P - (X + Y)) <= u * (X + Y) + eta ->
  Rabs (s - (P + Z)) <= u * (P + Z) + eta ->
  (a2 + b2 + c2) * (1 - 4 * u) - 6 * eta <= s
  <= (a2 + b2 + c2) * (1 + 4 * u) + 6 * eta.
Proof.
  intros Ha Hb Hc EX EY EZ EP Es.
  apply Rabs_le_inv in EX, EY, EZ, EP, Es.
  assert (Hlo : 0 <= 1 - u) by lra.
  assert (Hhi : 0 <= 1 + u) by lra.
  assert (Huu : 0 <= u * u <= u * / 1000)
    by (split; [apply Rmult_le_pos | apply Rmult_le_compat_l]; lra).
  assert (Heu : 0 <= eta * u <= eta * / 1000)
    by (split; [apply Rmult_le_pos | apply Rmult_le_compat_l]; lra).
  assert (Heuu : 0 <= eta * (u * u) <= eta * / 1000)
    by (split; [apply Rmult_le_pos | apply Rmult_le_compat_l]; lra).
  assert (Huuu : 0 <= u * (u * u) <= u * / 1000)
    by (split; [apply Rmult_le_pos | apply Rmult_le_compat_l]; lra).
  assert (U3 : (1 + u) * ((1 + u) * (1 + u)) <= 1 + 4 * u) by lra.
  assert (L3 : 1 - 4 * u <= (1 - u) * ((1 - u) * (1 - u))) by lra.
  assert (U2 : (1 + u) * (1 + u) <= 1 + 4 * u) by lra.
  assert (L2 : 1 - 4 * u <= (1 - u) * (1 - u)) by lra.
  assert (Hab : 0 <= a2 + b2) by lra.
  split.
  - assert (S1 : ((a2 + b2) * (1 - u) - 2 * eta) * (1 - u)
                 <= (X + Y) * (1 - u))
      by (apply Rmult_le_compat_r; lra).
    assert (S2 : ((a2 + b2) * ((1 - u) * (1 - u)) - 3 * eta
                  + (c2 * (1 - u) - eta)) * (1 - u)
                 <= (P + Z) * (1 - u))
      by (apply Rmult_le_compat_r; lra).
    assert (B : (a2 + b2) * (1 - 4 * u)
                <= (a2 + b2) * ((1 - u) * ((1 - u) * (1 - u))))
      by (apply Rmult_le_compat_l; lra).
    assert (C : c2 * (1 - 4 * u) <= c2 * ((1 - u) * (1 - u)))
      by (apply Rmult_le_compat_l; lra).
    lra.
  - assert (S1 : (X + Y) * (1 + u)
                 <= ((a2 + b2) * (1 + u) + 2 * eta) * (1 + u))
      by (apply Rmult_le_compat_r; lra).
    assert (S2 : (P + Z) * (1 + u)
                 <= ((a2 + b2) * ((1 + u) * (1 + u)) + 2 * eta * (1 + u)
                     + eta + (c2 * (1 + u) + eta)) * (1 + u))
      by (apply Rmult_le_compat_r; lra).
    assert (B : (a2 + b2) * ((1 + u) * ((1 + u) * (1 + u)))
                <= (a2 + b2) * (1 + 4 * u))
      by (apply Rmult_le_compat_l; lra).
    assert (C : c2 * ((1 + u) * (1 + u)) <= c2 * (1 + 4 * u))
      by (apply Rmult_le_compat_l; lra).
    lra.
Qed.

End SumOfSquares.

Lemma u32_small : 0 < u32 <= / 1000.
Proof. rewrite u32_eq. lra. Qed.

Lemma eta32_small : eta32 <= / 1000.
Proof.
  apply Rle_trans with (bpow (-10)).
  - apply bpow_le. lia.
  - unfold bpow. simpl. lra.
Qed.

Lemma bpow_100_large : 32 <= bpow 100.
Proof.
  apply Rle_trans with (bpow 5).
  - unfold bpow. simpl. lra.
  - apply bpow_le. lia.
Qed.

Lemma finite3_inv (x y z : float) :
  finite3 (x, y, z) = true ->
  F32.isfinite x = true /\ F32.isfinite y = true /\ F32.isfinite z = true.
Proof.
  unfold finite3. intros H.
  apply andb_true_iff in H. destruct H as [H Hz].
  apply andb_true_iff in H. destruct H as [Hx Hy]. auto.
Qed.

Lemma sqr_nonneg (r : R) : 0 <= r * r.
Proof. nra. Qed.

(** The length [v3_length] computes against the Euclidean length, when
    nothing overflows: [s] is the computed sum of squares. *)
Lemma length_error (x y z : float) :
  finite3 (x, y, z) = true ->
  F32.isfinite (length_val (x, y, z)) = true ->
  let S := F2R x * F2R x + F2R y * F2R y + F2R z * F2R z in
  let l := F2R (length_val (x, y, z)) in
  0 <= l
  /\ exists s, 0 <= s
       /\ S * (1 - 4 * u32) - 6 * eta32 <= s <= S * (1 + 4 * u32) + 6 * eta32
       /\ (1 - u32) * (1 - u32) * s <= l * l <= (1 + u32) * (1 + u32) * s.
Proof.
  intros F3 FL. destruct (finite3_inv x y z F3) as (Fx & Fy & Fz).
  unfold length_val in *.
  set (sf := (x * x + y * y + z * z)%f32) in *.
  assert (Fs : F32.isfinite sf = true).
  { destruct (F32.isfinite sf) eqn:E; trivial.
    now rewrite (sqrtf_nonfinite sf E) in FL. }
  subst sf.
  destruct (add_finite_inv _ _ Fs) as [FP FZ].
  destruct (add_finite_inv _ _ FP) as [FX FY].
  pose proof (mul_error x x Fx Fx FX) as EX.
  pose proof (mul_error y y Fy Fy FY) as EY.
  pose proof (mul_error z z Fz Fz FZ) as EZ.
  rewrite (Rabs_right (F2R x * F2R x)) in EX by (apply Rle_ge, sqr_nonneg).
  rewrite (Rabs_right (F2R y * F2R y)) in EY by (apply Rle_ge, sqr_nonneg).
  rewrite (Rabs_right (F2R z * F2R z)) in EZ by (apply Rle_ge, sqr_nonneg).
  destruct (add_error _ _ (square_nonneg_finite x FX)
              (square_nonneg_finite y FY) FP) as [NP EP].
  destruct (add_error _ _ NP (square_nonneg_finite z FZ) Fs) as [Ns Es].
  assert (Bs : bounded32 (x * x + y * y + z * z)%f32)
    by (repeat apply add_bounded; apply mul_bounded).
  destruct (sqrt_error _ Ns Bs) as (_ & Pl & El).
  cbv zeta. split; [exact Pl|].
  exists (F2R (x * x + y * y + z * z)%f32).
  split; [now apply nonneg_finite_F2R|]. split; [|exact El].
  apply (sumsq_error u32 eta32 u32_small (Rlt_le _ _ eta32_pos)
           (F2R x * F2R x) (F2R y * F2R y) (F2R z * F2R z)
           (F2R (x * x)%f32) (F2R (y * y)%f32) (F2R (z * z)%f32)
           (F2R (x * x + y * y)%f32));
    try apply sqr_nonneg; assumption.
Qed.

Lemma length_finite_small (x y z : float) :
  finite3 (x, y, z) = true ->
  F2R x * F2R x + F2R y * F2R y + F2R z * F2R z <= 4 ->
  F32.isfinite (length_val (x, y, z)) = true.
Proof.
  intros F3 HS. destruct (finite3_inv x y z F3) as (Fx & Fy & Fz).
  pose proof u32_small as Hu. pose proof eta32_small as He.
  pose proof eta32_pos as Pe. pose proof bpow_100_large as HB.
  pose proof (sqr_nonneg (F2R x)) as Px.
  pose proof (sqr_nonneg (F2R y)) as Py.
  pose proof (sqr_nonneg (F2R z)) as Pz.
  assert (FX : F32.isfinite (x * x)%f32 = true)
    by (apply mul_finite_if; trivial; rewrite Rabs_right; lra).
  assert (FY : F32.isfinite (y * y)%f32 = true)
    by (apply mul_finite_if; trivial; rewrite Rabs_right; lra).
  assert (FZ : F32.isfinite (z * z)%f32 = true)
    by (apply mul_finite_if; trivial; rewrite Rabs_right; lra).
  pose proof (mul_error x x Fx Fx FX) as EX.
  pose proof (mul_error y y Fy Fy FY) as EY.
  pose proof (mul_error z z Fz Fz FZ) as EZ.
  rewrite (Rabs_right (F2R x * F2R x)) in EX by lra.
  rewrite (Rabs_right (F2R y * F2R y)) in EY by lra.
  rewrite (Rabs_right (F2R z * F2R z)) in EZ by lra.
  apply Rabs_le_inv in EX, EY, EZ.
  pose proof (square_nonneg_finite x FX) as NX.
  pose proof (square_nonneg_finite y FY) as NY.
  pose proof (square_nonneg_finite z FZ) as NZ.
  pose proof (nonneg_finite_F2R _ NX). pose proof (nonneg_finite_F2R _ NY).
  pose proof (nonneg_finite_F2R _ NZ).
  assert (Ux : u32 * (F2R x * F2R x) <= / 1000 * (F2R x * F2R x))
    by (apply Rmult_le_compat_r; lra).
  assert (Uy : u32 * (F2R y * F2R y) <= / 1000 * (F2R y * F2R y))
    by (apply Rmult_le_compat_r; lra).
  assert (Uz : u32 * (F2R z * F2R z) <= / 1000 * (F2R z * F2R z))
    by (apply Rmult_le_compat_r; lra).
  assert (FP : F32.isfinite (x * x + y * y)%f32 = true)
    by (apply add_finite_if; trivial; lra).
  destruct (add_error _ _ NX NY FP) as [NP EP].
  apply Rabs_le_inv in EP.
  assert (Up : u32 * (F2R (x * x)%f32 + F2R (y * y)%f32)
               <= / 1000 * (F2R (x * x)%f32 + F2R (y * y)%f32))
    by (apply Rmult_le_compat_r; lra).
  assert (Fs : F32.isfinite (x * x + y * y + z * z)%f32 = true)
    by (apply add_finite_if; trivial; lra).
  destruct (add_error _ _ NP NZ Fs) as [Ns _].
  assert (Bs : bounded32 (x * x + y * y + z * z)%f32)
    by (repeat apply add_bounded; apply mul_bounded).
  unfold length_val. now destruct (sqrt_error _ Ns Bs).
Qed.

Section UnitLength.

Variables u eta : R.
Hypothesis Hu : u = / 8388608.
Hypothesis Heta : 0 <= eta.

(** The normalising factor against the Euclidean length: [S * i * i] is
    within [40 u] of 1. *)
Lemma inverse_length_chain (t S s l i : R) :
  eta <= u * t -> 0 <= t -> t <= l * l ->
  0 <= S -> 0 <= l -> 0 <= i ->
  S * (1 - 4 * u) - 6 * eta <= s <= S * (1 + 4 * u) + 6 * eta ->
  (1 - u) * (1 - u) * s <= l * l <= (1 + u) * (1 + u) * s ->
  Rabs (i * l - 1) <= 2 * u ->
  1 - 40 * u <= S * (i * i) <= 1 + 40 * u.
Proof.
  intros Het Ht Htl HS Hl Hi Hs Hls Hil.
  apply Rabs_le_inv in Hil.
  assert (Pu : 0 < u < / 1000000) by lra.
  assert (S1 : t <= 2 * S) by nra.
  assert (E1 : eta <= 2 * u * S) by nra.
  assert (s1 : S * (1 - 16 * u) <= s <= S * (1 + 16 * u)) by nra.
  assert (l1 : S * (1 - 19 * u) <= l * l <= S * (1 + 19 * u)) by nra.
  assert (il1 : 1 - 5 * u <= (i * l) * (i * l) <= 1 + 5 * u) by nra.
  assert (ii : 0 <= i * i) by nra.
  assert (A1 : (i * i) * (S * (1 - 19 * u)) <= (i * i) * (l * l))
    by (apply Rmult_le_compat_l; lra).
  assert (A2 : (i * i) * (l * l) <= (i * i) * (S * (1 + 19 * u)))
    by (apply Rmult_le_compat_l; lra).
  set (T := S * (i * i)).
  assert (B1 : T * (1 - 19 * u) <= 1 + 5 * u) by (subst T; nra).
  assert (B2 : 1 - 5 * u <= T * (1 + 19 * u)) by (subst T; nra).
  assert (PT : 0 <= T) by (subst T; nra).
  split; nra.
Qed.

(** One rounded component of the normalised vector. *)
Lemma component_chain (A x' : R) :
  eta <= u -> A * A <= 2 ->
  Rabs (x' - A) <= u * Rabs A + eta ->
  A * A * (1 - 3 * u) - 5 * eta <= x' * x' <= A * A * (1 + 3 * u) + 5 * eta.
Proof.
  intros Het HA E.
  assert (Pu : 0 < u < / 1000000) by lra.
  apply Rabs_le_inv in E.
  assert (HA2 : Rabs A <= 2).
  { unfold Rabs. destruct (Rcase_abs A); nra. }
  assert (PA : 0 <= Rabs A) by apply Rabs_pos.
  assert (AA : Rabs A * Rabs A = A * A).
  { unfold Rabs. destruct (Rcase_abs A); ring. }
  set (d := x' - A) in *.
  assert (Hd : Rabs d <= u * Rabs A + eta) by (apply Rabs_le; lra).
  assert (Pd : 0 <= Rabs d) by apply Rabs_pos.
  assert (dd : d * d = Rabs d * Rabs d).
  { unfold Rabs. destruct (Rcase_abs d); ring. }
  assert (Ad : - (Rabs A * Rabs d) <= A * d <= Rabs A * Rabs d).
  { unfold Rabs. destruct (Rcase_abs A), (Rcase_abs d); nra. }
  replace (x' * x') with (A * A + 2 * (A * d) + d * d) by (subst d; ring).
  set (b := u * Rabs A + eta) in *.
  assert (Pb : 0 <= b) by (subst b; nra).
  assert (K0 : Rabs A * Rabs d <= Rabs A * b)
    by (apply Rmult_le_compat_l; lra).
  assert (K1 : Rabs A * Rabs d <= u * (A * A) + 2 * eta).
  { apply Rle_trans with (1 := K0). subst b.
    replace (Rabs A * (u * Rabs A + eta))
      with (u * (Rabs A * Rabs A) + eta * Rabs A) by ring.
    rewrite AA. nra. }
  assert (K3 : Rabs d * Rabs d <= b * b)
    by (apply Rmult_le_compat; lra).
  assert (K4 : b * b <= u * (A * A) + eta).
  { subst b.
    replace ((u * Rabs A + eta) * (u * Rabs A + eta))
      with (u * u * (Rabs A * Rabs A) + eta * (2 * u * Rabs A + eta)) by ring.
    rewrite AA.
    assert (u * u * (A * A) <= u * (A * A)) by nra.
    assert (eta * (2 * u * Rabs A + eta) <= eta * 1)
      by (apply Rmult_le_compat_l; nra).
    lra. }
  assert (K2 : d * d <= u * (A * A) + eta) by lra.
  assert (P2 : 0 <= d * d) by nra.
  split; lra.
Qed.

(** The length of the normalised vector. *)
Lemma unit_length_chain (S' s' L : R) :
  eta <= u ->
  1 - 60 * u <= S' <= 1 + 60 * u ->
  S' * (1 - 4 * u) - 6 * eta <= s' <= S' * (1 + 4 * u) + 6 * eta ->
  (1 - u) * (1 - u) * s' <= L * L <= (1 + u) * (1 + u) * s' ->
  0 <= L ->
  Rabs (L - 1) <= / 10000.
Proof.
  intros Het HS Hs HL PL.
  assert (Pu : 0 < u < / 1000000) by lra.
  assert (s1 : 1 - 71 * u <= s' <= 1 + 71 * u) by nra.
  assert (L1 : 1 - 74 * u <= L * L <= 1 + 74 * u) by nra.
  apply Rabs_le. split; nra.
Qed.

End UnitLength.

(** ** The length of a normalised vector *)

Lemma finite3_of_length (v : vec3) :
  F32.isfinite (length_val v) = true -> finite3 v = true.
Proof.
  intros F. destruct (has_nonfinite v) eqn:E.
  - now rewrite (length_val_nonfinite v E) in F.
  - destruct v as [[x y] z]. unfold has_nonfinite, finite3 in *.
    destruct (F32.isfinite x), (F32.isfinite y), (F32.isfinite z);
      simpl in *; congruence.
Qed.

Lemma len_normal (v : vec3) :
  F32.isfinite (length_val v) = true ->
  (pow2 (-63) <= length_val v)%f32 = true ->
  exists ml el,
    length_val v = S754_finite false ml el
    /\ (8388608 <= Zpos ml < 16777216)%Z /\ (-86 <= el <= 40)%Z.
Proof.
  destruct v as [[x y] z]. unfold length_val.
  set (sf := (x * x + y * y + z * z)%f32).
  assert (Bs : bounded32 sf)
    by (subst sf; repeat apply add_bounded; apply mul_bounded).
  intros F L.
  destruct sf as [ss|ss| |[] m e];
    try (destruct ss; discriminate); try discriminate.
  destruct (sqrtf_eq m e Bs) as (mq & Bq & _ & E & _). cbv zeta in E.
  rewrite E in *. exists mq, (Z.div2 (Zpos (digits2_pos m) + e + 1) - 24)%Z.
  split; [reflexivity|]. split; [exact Bq|].
  set (g := (Z.div2 (Zpos (digits2_pos m) + e + 1) - 24)%Z) in *.
  split.
  - unfold F32.leb, SFleb, pow2, SFcompare in L.
    change (-63 - 23)%Z with (-86)%Z in L.
    change (IntDef.Z.compare (-86) g) with (Z.compare (-86) g) in L.
    destruct (Z.compare_spec (-86) g); try lia; discriminate.
  - destruct Bs as [Hm He].
    pose proof (div2_bounds (Zpos (digits2_pos m) + e + 1)).
    assert (Zpos (digits2_pos m) <= 24)%Z
      by (apply Zdigits2_le with (m := Zpos m); lia).
    subst g. lia.
Qed.

Lemma eta32_u32 : eta32 = u32 * bpow (-126).
Proof. unfold eta32, u32. rewrite <- bpow_add. reflexivity. Qed.

Lemma sq_le_2_abs (A : R) : A * A <= 2 -> Rabs A < bpow 100.
Proof.
  intros H. pose proof bpow_100_large.
  unfold Rabs. destruct (Rcase_abs A); nra.
Qed.

(** Where the computed length is finite and at least [2^-63], the
    normalised vector has length 1 within [1e-4]. *)
Lemma normalize_unit_val (v : vec3) :
  F32.isfinite (length_val v) = true ->
  (pow2 (-63) <= length_val v)%f32 = true ->
  F32.isfinite (length_val (normalize_val v)) = true
  /\ Rabs (F2R (length_val (normalize_val v)) - 1) <= / 10000.
Proof.
  intros FL HL.
  pose proof (finite3_of_length v FL) as F3.
  destruct (len_normal v FL HL) as (ml & el & E & Bm & Be).
  destruct v as [[x y] z].
  destruct (finite3_inv x y z F3) as (Fx & Fy & Fz).
  destruct (length_error x y z F3 FL) as (Pl & s & Ps & Hs & Hls).
  cbv zeta in *.
  set (S := F2R x * F2R x + F2R y * F2R y + F2R z * F2R z) in *.
  unfold normalize_val. rewrite E in *.
  change (degenerate (S754_finite false ml el)) with false. cbv iota.
  destruct (div_error ml el Bm ltac:(lia)) as [N Hil]. cbv zeta in N, Hil.
  set (inv := (F32.one / S754_finite false ml el)%f32) in *.
  assert (Fi : F32.isfinite inv = true)
    by (destruct inv as [| | |[] mi ei]; try contradiction; reflexivity).
  assert (Pi : 0 <= F2R inv).
  { destruct inv as [| | |[] mi ei]; try contradiction.
    apply nonneg_finite_F2R. exact I. }
  set (i := F2R inv) in *. set (l := F2R (S754_finite false ml el)) in *.
  (* the length is at least 2^-63 *)
  assert (Tl : bpow (-126) <= l * l).
  { assert (L63 : bpow (-63) <= l).
    { subst l. rewrite F2R_pos.
      replace (-63)%Z with (23 + -86)%Z by lia. rewrite bpow_add.
      rewrite (bpow_IZR 23) by lia.
      assert (IZR (2 ^ 23) <= IZR (Zpos ml)) by (apply IZR_le; simpl; lia).
      assert (bpow (-86) <= bpow el) by (apply bpow_le; lia).
      pose proof (bpow_pos (-86)).
      assert (0 < IZR (2 ^ 23)) by (apply IZR_lt; reflexivity).
      apply Rmult_le_compat; lra. }
    replace (-126)%Z with (-63 + -63)%Z by lia. rewrite bpow_add.
    pose proof (bpow_pos (-63)). apply Rmult_le_compat; lra. }
  assert (PS : 0 <= S) by (subst S; nra).
  assert (HT : 1 - 40 * u32 <= S * (i * i) <= 1 + 40 * u32).
  { apply (inverse_length_chain u32 eta32) with (t := bpow (-126)) (s := s) (l := l);
      trivial.
    - apply u32_eq.
    - apply Req_le, eta32_u32.
    - apply Rlt_le, bpow_pos. }
  pose proof u32_small as Hu. pose proof eta32_pos as Peta.
  assert (Heu : eta32 <= u32).
  { unfold eta32, u32. apply bpow_le. lia. }
  rewrite u32_eq in Hu.
  assert (Pii : 0 <= i * i) by nra.
  assert (HT2 : S * (i * i) <= 2) by (rewrite u32_eq in HT; lra).
  assert (G : forall a, a * a <= S -> a * i * (a * i) <= 2).
  { intros a Ha.
    replace (a * i * (a * i)) with (a * a * (i * i)) by ring.
    apply Rle_trans with (2 := HT2). apply Rmult_le_compat_r; lra. }
  pose proof (sqr_nonneg (F2R x)). pose proof (sqr_nonneg (F2R y)).
  pose proof (sqr_nonneg (F2R z)).
  assert (HA : F2R x * i * (F2R x * i) <= 2) by (apply G; subst S; lra).
  assert (HB : F2R y * i * (F2R y * i) <= 2) by (apply G; subst S; lra).
  assert (HC : F2R z * i * (F2R z * i) <= 2) by (apply G; subst S; lra).
  assert (FX : F32.isfinite (x * inv)%f32 = true)
    by (apply mul_finite_if; trivial; now apply sq_le_2_abs).
  assert (FY : F32.isfinite (y * inv)%f32 = true)
    by (apply mul_finite_if; trivial; now apply sq_le_2_abs).
  assert (FZ : F32.isfinite (z * inv)%f32 = true)
    by (apply mul_finite_if; trivial; now apply sq_le_2_abs).
  assert (CX := component_chain u32 eta32 u32_eq (Rlt_le _ _ eta32_pos)
                  _ _ Heu HA (mul_error x inv Fx Fi FX)).
  assert (CY := component_chain u32 eta32 u32_eq (Rlt_le _ _ eta32_pos)
                  _ _ Heu HB (mul_error y inv Fy Fi FY)).
  assert (CZ := component_chain u32 eta32 u32_eq (Rlt_le _ _ eta32_pos)
                  _ _ Heu HC (mul_error z inv Fz Fi FZ)).
  fold i in CX, CY, CZ.
  set (x' := F2R (x * inv)%f32) in *.
  set (y' := F2R (y * inv)%f32) in *.
  set (z' := F2R (z * inv)%f32) in *.
  assert (ET : F2R x * i * (F2R x * i) + F2R y * i * (F2R y * i)
               + F2R z * i * (F2R z * i) = S * (i * i)) by (subst S; ring).
  rewrite u32_eq in *.
  assert (HS' : 1 - 60 * / 8388608 <= x' * x' + y' * y' + z' * z'
                <= 1 + 60 * / 8388608) by lra.
  assert (F3' : finite3 ((x * inv)%f32, (y * inv)%f32, (z * inv)%f32) = true)
    by (unfold finite3; now rewrite FX, FY, FZ).
  assert (FL' : F32.isfinite
                  (length_val ((x * inv)%f32, (y * inv)%f32, (z * inv)%f32))
                = true)
    by (apply length_finite_small; [exact F3' | fold x' y' z'; lra]).
  split; [exact FL'|].
  destruct (length_error _ _ _ F3' FL') as (PL & s' & Ps' & Hs' & HLs').
  cbv zeta in *. fold x' y' z' in Hs'. rewrite u32_eq in *.
  apply (unit_length_chain (/ 8388608) eta32)
    with (S' := x' * x' + y' * y' + z' * z') (s' := s'); trivial.
Qed.

(** ** Sums and differences of any signs *)

Lemma binary_round_error (s : bool) (p : positive) (e : Z) :
  F32.isfinite (binary_round F32.prec F32.emax s p e) = true ->
  Rabs (F2R (binary_round F32.prec F32.emax s p e)
        - (if s then -1 else 1) * (IZR (Zpos p) * bpow e))
  <= u32 * (IZR (Zpos p) * bpow e) + eta32.
Proof.
  unfold binary_round.
  pose proof (shl_align_value p e
                (fexp F32.prec F32.emax (Zpos (digits2_pos p) + e))) as W.
  destruct (shl_align p e _) as [mz ez]. cbn [fst snd] in W. fold bra.
  intros F. rewrite <- W.
  set (x := IZR (Zpos mz) * bpow ez).
  assert (Px : 0 < x).
  { subst x. pose proof (bpow_pos ez).
    assert (0 < IZR (Zpos mz)) by (apply IZR_lt; lia). nra. }
  assert (E := bra_error s (Zpos mz) ez loc_Exact x
                 ltac:(lia) F (or_introl eq_refl) (fun _ => eq_refl)).
  assert (Bx : x <= x <= (IZR (Zpos mz) + 1) * bpow ez).
  { subst x. pose proof (bpow_pos ez). split; nra. }
  specialize (E Bx).
  destruct (bra_value s (Zpos mz) ez loc_Exact ltac:(lia) F) as [Va Vs].
  cbv zeta in Va, Vs. rewrite Vs, <- Va.
  set (r := F2R_abs _) in *.
  destruct s.
  - replace (-1 * r - -1 * x) with (- (r - x)) by ring.
    now rewrite Rabs_Ropp.
  - now rewrite !Rmult_1_l.
Qed.

Lemma binary_normalize_error (z e : Z) :
  F32.isfinite (binary_normalize F32.prec F32.emax z e false) = true ->
  Rabs (F2R (binary_normalize F32.prec F32.emax z e false) - IZR z * bpow e)
  <= u32 * Rabs (IZR z * bpow e) + eta32.
Proof.
  pose proof u32_pos. pose proof eta32_pos. pose proof (bpow_pos e).
  destruct z as [|p|p]; cbn [binary_normalize]; intros F.
  - simpl F2R. rewrite Rmult_0_l, Rminus_0_r, Rabs_R0. lra.
  - assert (0 < IZR (Zpos p)) by (apply IZR_lt; lia).
    rewrite (Rabs_right (IZR (Zpos p) * bpow e)) by nra.
    pose proof (binary_round_error false p e F) as E.
    now rewrite Rmult_1_l in E.
  - assert (0 < IZR (Zpos p)) by (apply IZR_lt; lia).
    change (Zneg p) with (- Zpos p)%Z. rewrite opp_IZR.
    replace (Rabs (- IZR (Zpos p) * bpow e)) with (IZR (Zpos p) * bpow e)
      by (rewrite Rabs_left; nra).
    pose proof (binary_round_error true p e F) as E.
    replace (- IZR (Zpos p) * bpow e) with (-1 * (IZR (Zpos p) * bpow e))
      by ring.
    exact E.
Qed.

Lemma aligned_value (s : bool) (m : positive) (e ez : Z) :
  (ez <= e)%Z ->
  IZR (cond_Zopp s (Zpos (fst (shl_align m e ez)))) * bpow ez
  = F2R (S754_finite s m e).
Proof.
  intros H. rewrite shl_align_fst by assumption.
  rewrite F2R_signed.
  assert (V : IZR (Zpos m * 2 ^ (e - ez)) * bpow ez = IZR (Zpos m) * bpow e).
  { rewrite mult_IZR, <- bpow_IZR by lia.
    rewrite Rmult_assoc, <- bpow_add. do 2 f_equal. lia. }
  destruct s; cbn [cond_Zopp].
  - rewrite opp_IZR, <- V. ring.
  - rewrite <- V. ring.
Qed.

(** The rounding error of an addition and of a subtraction that do not
    overflow. *)
Lemma add_error_signed (a b : float) :
  F32.isfinite a = true -> F32.isfinite b = true ->
  F32.isfinite (a + b)%f32 = true ->
  Rabs (F2R (a + b)%f32 - (F2R a + F2R b))
  <= u32 * Rabs (F2R a + F2R b) + eta32.
Proof.
  pose proof u32_pos. pose proof eta32_pos.
  assert (Z0 : forall x y, x = y -> Rabs (x - y) <= u32 * Rabs y + eta32).
  { intros x y ->. replace (y - y) with 0 by ring. rewrite Rabs_R0.
    pose proof (Rabs_pos y). nra. }
  destruct a as [sa| | |sa ma ea], b as [sb| | |sb mb eb]; try discriminate;
    intros _ _ F.
  - apply Z0. destruct sa, sb; simpl; lra.
  - apply Z0. simpl. lra.
  - apply Z0. simpl. lra.
  - unfold F32.add, SFadd in *. change IntDef.Z.min with Z.min in *.
    cbv zeta in *.
    pose proof (binary_normalize_error _ _ F) as E.
    rewrite plus_IZR, Rmult_plus_distr_r in E.
    rewrite !aligned_value in E by lia. exact E.
Qed.

Lemma sub_error_signed (a b : float) :
  F32.isfinite a = true -> F32.isfinite b = true ->
  F32.isfinite (a - b)%f32 = true ->
  Rabs (F2R (a - b)%f32 - (F2R a - F2R b))
  <= u32 * Rabs (F2R a - F2R b) + eta32.
Proof.
  pose proof u32_pos. pose proof eta32_pos.
  assert (Z0 : forall x y, x = y -> Rabs (x - y) <= u32 * Rabs y + eta32).
  { intros x y ->. replace (y - y) with 0 by ring. rewrite Rabs_R0.
    pose proof (Rabs_pos y). nra. }
  destruct a as [sa| | |sa ma ea], b as [sb| | |sb mb eb]; try discriminate;
    intros _ _ F.
  - apply Z0. destruct sa, sb; simpl; lra.
  - apply Z0. unfold F32.sub, SFsub. rewrite !F2R_signed.
    destruct sb; simpl; lra.
  - apply Z0. simpl. lra.
  - unfold F32.sub, SFsub in *. change IntDef.Z.min with Z.min in *.
    cbv zeta in *.
    pose proof (binary_normalize_error _ _ F) as E.
    rewrite minus_IZR, Rmult_minus_distr_r in E.
    rewrite !aligned_value in E by lia. exact E.
Qed.

Lemma mul_finite_inv (a b : float) :
  F32.isfinite (a * b)%f32 = true ->
  F32.isfinite a = true /\ F32.isfinite b = true.
Proof. destruct a as [| | |], b as [| | |]; try discriminate; auto. Qed.

Lemma sub_finite_inv (a b : float) :
  F32.isfinite (a - b)%f32 = true ->
  F32.isfinite a = true /\ F32.isfinite b = true.
Proof.
  destruct a as [| | |], b as [| | |]; try discriminate; auto;
    now destruct s, s0.
Qed.


(** ** Rounding errors through a reflection *)

Lemma abs_mul_le (x y X Y : R) :
  Rabs x <= X -> Rabs y <= Y -> Rabs (x * y) <= X * Y.
Proof.
  intros Hx Hy. rewrite Rabs_mult.
  apply Rmult_le_compat; trivial; apply Rabs_pos.
Qed.

Lemma abs_close (x y X E : R) :
  Rabs (y - x) <= E -> Rabs x <= X -> Rabs y <= X + E.
Proof.
  intros H1 H2. apply Rabs_le_inv in H1, H2. apply Rabs_le. lra.
Qed.

Lemma close_trans (x y z E1 E2 : R) :
  Rabs (x - y) <= E1 -> Rabs (y - z) <= E2 -> Rabs (x - z) <= E1 + E2.
Proof.
  intros H1 H2. apply Rabs_le_inv in H1, H2. apply Rabs_le. lra.
Qed.

Lemma close_add (x x' y y' Ex Ey : R) :
  Rabs (x - x') <= Ex -> Rabs (y - y') <= Ey ->
  Rabs (x + y - (x' + y')) <= Ex + Ey.
Proof.
  intros H1 H2. apply Rabs_le_inv in H1, H2. apply Rabs_le. lra.
Qed.

Lemma close_mul (x x' y y' X Y' Ex Ey : R) :
  Rabs (x - x') <= Ex -> Rabs (y - y') <= Ey ->
  Rabs x <= X -> Rabs y' <= Y' ->
  Rabs (x * y - x' * y') <= X * Ey + Y' * Ex.
Proof.
  intros H1 H2 H3 H4.
  replace (x * y - x' * y') with (x * (y - y') + y' * (x - x')) by ring.
  apply Rle_trans with (1 := Rabs_triang _ _).
  apply Rplus_le_compat; apply abs_mul_le; assumption.
Qed.

Lemma abs_add_le (x y X Y : R) :
  Rabs x <= X -> Rabs y <= Y -> Rabs (x + y) <= X + Y.
Proof.
  intros H1 H2. apply Rle_trans with (1 := Rabs_triang _ _). lra.
Qed.

Lemma abs_sub_le (x y X Y : R) :
  Rabs x <= X -> Rabs y <= Y -> Rabs (x - y) <= X + Y.
Proof.
  intros H1 H2. apply Rabs_le_inv in H1, H2. apply Rabs_le. lra.
Qed.

(** One rounding of a quantity that is at most [X] in magnitude. *)
Lemma rounded (u eta M x y X : R) :
  0 <= u -> eta <= u * M ->
  Rabs x <= X -> Rabs (y - x) <= u * Rabs x + eta ->
  Rabs (y - x) <= u * X + u * M.
Proof.
  intros Hu Heta H1 H2. assert (u * Rabs x <= u * X)
    by (apply Rmult_le_compat_l; lra). lra.
Qed.

(** A component [r] of the reflection computed from a direction
    [(m0, m1, m2)] that is within [27 u] of [(a0, a1, a2)], against the
    same formula on [(a0, a1, a2)] in real numbers. *)
Lemma reflect_chain (u eta M : R)
    (v0 v1 v2 a0 a1 a2 m0 m1 m2 p0 p1 p2 s1 d t2 vi ai mi q r : R) :
  u = / 8388608 -> 0 <= eta <= u * M -> 0 < M ->
  Rabs v0 <= M -> Rabs v1 <= M -> Rabs v2 <= M -> Rabs vi <= M ->
  Rabs a0 <= 101 / 100 -> Rabs a1 <= 101 / 100 -> Rabs a2 <= 101 / 100 ->
  Rabs ai <= 101 / 100 ->
  Rabs (m0 - a0) <= 27 * u -> Rabs (m1 - a1) <= 27 * u ->
  Rabs (m2 - a2) <= 27 * u -> Rabs (mi - ai) <= 27 * u ->
  Rabs (p0 - v0 * m0) <= u * Rabs (v0 * m0) + eta ->
  Rabs (p1 - v1 * m1) <= u * Rabs (v1 * m1) + eta ->
  Rabs (p2 - v2 * m2) <= u * Rabs (v2 * m2) + eta ->
  Rabs (s1 - (p0 + p1)) <= u * Rabs (p0 + p1) + eta ->
  Rabs (d - (s1 + p2)) <= u * Rabs (s1 + p2) + eta ->
  Rabs (t2 - 2 * d) <= u * Rabs (2 * d) + eta ->
  Rabs (q - t2 * mi) <= u * Rabs (t2 * mi) + eta ->
  Rabs (r - (vi - q)) <= u * Rabs (vi - q) + eta ->
  Rabs (r - (vi - 2 * (v0 * a0 + v1 * a1 + v2 * a2) * ai))
  <= 49 / 1000000 * M.
Proof.
  intros Hu Heta HM V0 V1 V2 Vi A0 A1 A2 Ai D0 D1 D2 Di P0 P1 P2 S1 Dd T2 Q Rr.
  subst u.
  assert (Pu : 0 <= / 8388608) by lra.
  assert (He : eta <= / 8388608 * M) by lra.
  pose proof (fun x y X => rounded (/ 8388608) eta M x y X Pu He) as rounded'.
  assert (B0 : Rabs m0 <= 1012 / 1000)
    by (apply Rle_trans with (1 := abs_close _ _ _ _ D0 A0); lra).
  assert (B1 : Rabs m1 <= 1012 / 1000)
    by (apply Rle_trans with (1 := abs_close _ _ _ _ D1 A1); lra).
  assert (B2 : Rabs m2 <= 1012 / 1000)
    by (apply Rle_trans with (1 := abs_close _ _ _ _ D2 A2); lra).
  assert (Bi : Rabs mi <= 1012 / 1000)
    by (apply Rle_trans with (1 := abs_close _ _ _ _ Di Ai); lra).
  (* the three products *)
  assert (G : forall v a m p,
             Rabs v <= M -> Rabs a <= 101 / 100 -> Rabs m <= 1012 / 1000 ->
             Rabs (m - a) <= 27 * / 8388608 ->
             Rabs (p - v * m) <= / 8388608 * Rabs (v * m) + eta ->
             Rabs (p - v * a) <= 30 * / 8388608 * M /\ Rabs p <= 1013 / 1000 * M).
  { intros v a m p Hv Ha Hm Hd Hp.
    pose proof (abs_mul_le _ _ _ _ Hv Hm) as W.
    pose proof (rounded' _ _ _ W Hp) as Hp'.
    assert (C : Rabs (v * m - v * a) <= M * (27 * / 8388608) + 101 / 100 * 0).
    { apply close_mul; trivial.
      replace (v - v) with 0 by ring. rewrite Rabs_R0. lra. }
    split.
    - apply Rle_trans with (1 := close_trans _ _ _ _ _ Hp' C). lra.
    - apply Rle_trans with (1 := abs_close _ _ _ _ Hp' W). lra. }
  destruct (G _ _ _ _ V0 A0 B0 D0 P0) as [E0 Q0].
  destruct (G _ _ _ _ V1 A1 B1 D1 P1) as [E1 Q1].
  destruct (G _ _ _ _ V2 A2 B2 D2 P2) as [E2 Q2].
  clear G.
  (* the two additions *)
  pose proof (abs_add_le _ _ _ _ Q0 Q1) as W01.
  pose proof (rounded' _ _ _ W01 S1) as S1'.
  pose proof (abs_close _ _ _ _ S1' W01) as Bs1.
  pose proof (abs_add_le _ _ _ _ Bs1 Q2) as W012.
  pose proof (rounded' _ _ _ W012 Dd) as Dd'.
  set (D := v0 * a0 + v1 * a1 + v2 * a2).
  assert (ED : Rabs (d - D) <= 99 * / 8388608 * M).
  { assert (C1 : Rabs (s1 + p2 - (p0 + p1 + p2)) <= (/ 8388608 * (1013 / 1000 * M + 1013 / 1000 * M) + / 8388608 * M) + 0).
    { apply close_add; trivial.
      replace (p2 - p2) with 0 by ring. rewrite Rabs_R0. lra. }
    assert (C2 : Rabs (p0 + p1 + p2 - D) <= 30 * / 8388608 * M + 30 * / 8388608 * M + 30 * / 8388608 * M).
    { subst D. apply close_add; [apply close_add|]; assumption. }
    pose proof (close_trans _ _ _ _ _ Dd' C1) as C3.
    apply Rle_trans with (1 := close_trans _ _ _ _ _ C3 C2). lra. }
  assert (BD : Rabs D <= 303 / 100 * M).
  { subst D.
    pose proof (abs_mul_le _ _ _ _ V0 A0). pose proof (abs_mul_le _ _ _ _ V1 A1).
    pose proof (abs_mul_le _ _ _ _ V2 A2).
    apply Rle_trans with (M * (101 / 100) + M * (101 / 100) + M * (101 / 100));
      [|lra].
    apply abs_add_le; [apply abs_add_le|]; assumption. }
  assert (Bd : Rabs d <= 304 / 100 * M)
    by (apply Rle_trans with (1 := abs_close _ _ _ _ ED BD); nra).
  (* twice the dot product *)
  assert (W2d : Rabs (2 * d) <= 608 / 100 * M).
  { rewrite Rabs_mult, (Rabs_right 2) by lra. lra. }
  pose proof (rounded' _ _ _ W2d T2) as T2'.
  assert (ET : Rabs (t2 - 2 * D) <= 206 * / 8388608 * M).
  { assert (C : Rabs (2 * d - 2 * D) <= 2 * (99 * / 8388608 * M)).
    { replace (2 * d - 2 * D) with (2 * (d - D)) by ring.
      rewrite Rabs_mult, (Rabs_right 2) by lra. lra. }
    apply Rle_trans with (1 := close_trans _ _ _ _ _ T2' C). lra. }
  assert (Bt : Rabs t2 <= 607 / 100 * M).
  { assert (Rabs (2 * D) <= 606 / 100 * M)
      by (rewrite Rabs_mult, (Rabs_right 2) by lra; lra).
    apply Rle_trans with (1 := abs_close _ _ _ _ ET H). lra. }
  (* times the component of the direction *)
  pose proof (abs_mul_le _ _ _ _ Bt Bi) as Wq.
  pose proof (rounded' _ _ _ Wq Q) as Q'.
  assert (EQ : Rabs (q - 2 * D * ai) <= 380 * / 8388608 * M).
  { assert (C : Rabs (t2 * mi - 2 * D * ai)
                <= 607 / 100 * M * (27 * / 8388608) + 101 / 100 * (206 * / 8388608 * M))
      by (apply close_mul; assumption).
    apply Rle_trans with (1 := close_trans _ _ _ _ _ Q' C). lra. }
  assert (Bq : Rabs q <= 62 / 10 * M).
  { assert (Rabs (2 * D * ai) <= 606 / 100 * M * (101 / 100)).
    { apply abs_mul_le; trivial.
      rewrite Rabs_mult, (Rabs_right 2) by lra. lra. }
    apply Rle_trans with (1 := abs_close _ _ _ _ EQ H). lra. }
  (* the subtraction *)
  pose proof (abs_sub_le _ _ _ _ Vi Bq) as Wr.
  pose proof (rounded' _ _ _ Wr Rr) as Rr'.
  assert (C : Rabs (vi - q - (vi - 2 * D * ai)) <= 380 * / 8388608 * M).
  { replace (vi - q - (vi - 2 * D * ai)) with (- (q - 2 * D * ai)) by ring.
    now rewrite Rabs_Ropp. }
  apply Rle_trans with (1 := close_trans _ _ _ _ _ Rr' C). lra.
Qed.


(** ** The direction of a scaled normal *)

Lemma sq_le (a b : R) : 0 <= a -> 0 <= b -> a * a <= b * b -> a <= b.
Proof.
  intros Ha Hb H. destruct (Rle_lt_dec a b) as [L|L]; [exact L|].
  assert (b * b < a * a) by (apply Rmult_le_0_lt_compat; lra). lra.
Qed.

Lemma sq_abs_le (a c : R) : 0 <= c -> a * a <= c * c -> Rabs a <= c.
Proof.
  intros Hc H. apply sq_le; [apply Rabs_pos | exact Hc|].
  replace (Rabs a * Rabs a) with (a * a); [exact H|].
  unfold Rabs. destruct (Rcase_abs a); ring.
Qed.

(** The normalising factor [i] of a vector of squared length [S], within
    [18 u]. *)
Lemma inverse_length_tight (u eta t S s l i : R) :
  u = / 8388608 -> 0 <= eta <= u * t -> 0 <= t <= l * l ->
  0 <= S -> 0 <= l -> 0 <= i ->
  S * (1 - 4 * u) - 6 * eta <= s <= S * (1 + 4 * u) + 6 * eta ->
  (1 - u) * (1 - u) * s <= l * l <= (1 + u) * (1 + u) * s ->
  Rabs (i * l - 1) <= 2 * u ->
  1 - 18 * u <= S * (i * i) <= 1 + 18 * u.
Proof.
  intros -> Het Ht HS Hl Hi Hs Hls Hil.
  apply Rabs_le_inv in Hil.
  assert (S1 : (1 - 13 * / 8388608) * (l * l) <= S
               <= (1 + 13 * / 8388608) * (l * l)) by lra.
  assert (Pii : 0 <= i * i) by (apply Rmult_le_pos; lra).
  assert (IL : (1 - 2 * / 8388608) * (1 - 2 * / 8388608) <= (i * l) * (i * l)
               <= (1 + 2 * / 8388608) * (1 + 2 * / 8388608)).
  { split; apply Rmult_le_compat; lra. }
  assert (A1 : (1 - 13 * / 8388608) * (l * l) * (i * i) <= S * (i * i))
    by (apply Rmult_le_compat_r; lra).
  assert (A2 : S * (i * i) <= (1 + 13 * / 8388608) * (l * l) * (i * i))
    by (apply Rmult_le_compat_r; lra).
  replace ((1 - 13 * / 8388608) * (l * l) * (i * i))
    with ((1 - 13 * / 8388608) * ((i * l) * (i * l))) in A1 by ring.
  replace ((1 + 13 * / 8388608) * (l * l) * (i * i))
    with ((1 + 13 * / 8388608) * ((i * l) * (i * l))) in A2 by ring.
  lra.
Qed.

(** A vector [c] within rounding of [g * x], where [x] has the
    normalising factor [i] and [c] has length about 1: then [g] is [i]
    within [23 u], and [c] is the direction [i * x] within [25 u]. *)
Lemma scaled_direction (u tau i g x0 x1 x2 c0 c1 c2 : R) :
  u = / 8388608 -> 0 <= tau <= u / 1000000 -> 0 <= i -> 0 <= g ->
  1 - 18 * u <= (x0 * x0 + x1 * x1 + x2 * x2) * (i * i) <= 1 + 18 * u ->
  Rabs (c0 - x0 * g) <= u * Rabs (x0 * g) + tau ->
  Rabs (c1 - x1 * g) <= u * Rabs (x1 * g) + tau ->
  Rabs (c2 - x2 * g) <= u * Rabs (x2 * g) + tau ->
  1 - 18 * u <= c0 * c0 + c1 * c1 + c2 * c2 <= 1 + 18 * u ->
  Rabs (c0 - x0 * i) <= 25 * u /\ Rabs (c1 - x1 * i) <= 25 * u
  /\ Rabs (c2 - x2 * i) <= 25 * u.
Proof.
  intros -> Ht Hi Hg HQ C0 C1 C2 HC.
  set (X := x0 * x0 + x1 * x1 + x2 * x2) in *.
  pose proof (sqr_nonneg x0) as S0. pose proof (sqr_nonneg x1) as S1.
  pose proof (sqr_nonneg x2) as S2.
  pose proof (sqr_nonneg c0) as T0. pose proof (sqr_nonneg c1) as T1.
  pose proof (sqr_nonneg c2) as T2.
  assert (Pii : 0 <= i * i) by (apply Rmult_le_pos; lra).
  assert (Pgg : 0 <= g * g) by (apply Rmult_le_pos; lra).
  assert (PX : 0 < X).
  { assert (0 <= X) by (subst X; lra).
    destruct (Req_dec X 0) as [E|E]; [|lra].
    rewrite E, Rmult_0_l in HQ. lra. }
  (* magnitudes *)
  assert (Bc : forall c, c * c <= c0 * c0 + c1 * c1 + c2 * c2 ->
                    Rabs c <= 1001 / 1000).
  { intros c Hc. apply sq_abs_le; lra. }
  assert (Ba : forall x, 0 <= x * x <= X -> Rabs (x * i) <= 101 / 100).
  { intros x Hx. apply sq_abs_le; [lra|].
    replace (x * i * (x * i)) with (x * x * (i * i)) by ring.
    assert (x * x * (i * i) <= X * (i * i))
      by (apply Rmult_le_compat_r; lra).
    lra. }
  assert (Bb : forall c x, Rabs c <= 1001 / 1000 ->
                      Rabs (c - x * g) <= / 8388608 * Rabs (x * g) + tau ->
                      Rabs (x * g) <= 101 / 100
                      /\ Rabs (c - x * g) <= 102 / 100 * / 8388608).
  { intros c x Hc E.
    assert (Rabs (x * g) <= Rabs c + Rabs (c - x * g)).
    { replace (x * g) with (c + - (c - x * g)) at 1 by ring.
      apply Rle_trans with (1 := Rabs_triang _ _).
      rewrite Rabs_Ropp. lra. }
    pose proof (Rabs_pos (x * g)). split; lra. }
  destruct (Bb c0 x0 (Bc c0 ltac:(lra)) C0) as [B0 E0].
  destruct (Bb c1 x1 (Bc c1 ltac:(lra)) C1) as [B1 E1].
  destruct (Bb c2 x2 (Bc c2 ltac:(lra)) C2) as [B2 E2].
  (* the squared length of [g * x] *)
  assert (Sq : forall c x, Rabs c <= 1001 / 1000 -> Rabs (x * g) <= 101 / 100 ->
                      Rabs (c - x * g) <= 102 / 100 * / 8388608 ->
                      Rabs (c * c - x * g * (x * g)) <= 21 / 10 * / 8388608).
  { intros c x Hc Hb E.
    apply Rle_trans with (1 := close_mul _ _ _ _ _ _ _ _ E E Hc Hb). lra. }
  pose proof (Sq _ _ (Bc c0 ltac:(lra)) B0 E0) as Q0.
  pose proof (Sq _ _ (Bc c1 ltac:(lra)) B1 E1) as Q1.
  pose proof (Sq _ _ (Bc c2 ltac:(lra)) B2 E2) as Q2.
  apply Rabs_le_inv in Q0, Q1, Q2.
  assert (GX : 1 - 25 * / 8388608 <= X * (g * g) <= 1 + 25 * / 8388608).
  { replace (X * (g * g))
      with (x0 * g * (x0 * g) + x1 * g * (x1 * g) + x2 * g * (x2 * g))
      by (subst X; ring).
    lra. }
  (* [g] against [i] *)
  assert (G1 : g * g <= (1 + 44 * / 8388608) * (i * i)).
  { apply Rmult_le_reg_l with (1 := PX).
    replace (X * ((1 + 44 * / 8388608) * (i * i)))
      with ((1 + 44 * / 8388608) * (X * (i * i))) by ring.
    lra. }
  assert (G2 : (1 - 44 * / 8388608) * (i * i) <= g * g).
  { apply Rmult_le_reg_l with (1 := PX).
    replace (X * ((1 - 44 * / 8388608) * (i * i)))
      with ((1 - 44 * / 8388608) * (X * (i * i))) by ring.
    lra. }
  assert (U1 : g <= (1 + 22 * / 8388608) * i).
  { apply sq_le; [lra | apply Rmult_le_pos; lra |].
    replace ((1 + 22 * / 8388608) * i * ((1 + 22 * / 8388608) * i))
      with ((1 + 22 * / 8388608) * (1 + 22 * / 8388608) * (i * i)) by ring.
    apply Rle_trans with (1 := G1). apply Rmult_le_compat_r; lra. }
  assert (U2 : (1 - 23 * / 8388608) * i <= g).
  { apply sq_le; [apply Rmult_le_pos; lra | lra |].
    replace ((1 - 23 * / 8388608) * i * ((1 - 23 * / 8388608) * i))
      with ((1 - 23 * / 8388608) * (1 - 23 * / 8388608) * (i * i)) by ring.
    apply Rle_trans with (2 := G2). apply Rmult_le_compat_r; lra. }
  assert (Fin : forall c x, 0 <= x * x <= X ->
                       Rabs (c - x * g) <= 102 / 100 * / 8388608 ->
                       Rabs (c - x * i) <= 25 * / 8388608).
  { intros c x Hx E.
    pose proof (Ba x Hx) as A.
    assert (D : Rabs (x * g - x * i) <= 23 * / 8388608 * (101 / 100)).
    { replace (x * g - x * i) with ((x * i) * ((g - i) * / i)).
      - apply Rle_trans with (101 / 100 * (23 * / 8388608)); [|lra].
        apply abs_mul_le; [exact A|].
        assert (Pi : 0 < i).
        { destruct (Req_dec i 0) as [E0'|E0']; [|lra].
          rewrite E0' in HQ. rewrite !Rmult_0_r in HQ. lra. }
        apply Rabs_le.
        assert (0 < / i) by now apply Rinv_0_lt_compat.
        split.
        + apply Rmult_le_reg_r with (1 := Pi).
          rewrite Rmult_assoc, Rinv_l by lra. lra.
        + apply Rmult_le_reg_r with (1 := Pi).
          rewrite Rmult_assoc, Rinv_l by lra. lra.
      - assert (Pi : i <> 0).
        { intros E0'. rewrite E0' in HQ. rewrite !Rmult_0_r in HQ. lra. }
        field. exact Pi. }
    apply Rle_trans with (1 := close_trans _ _ _ _ _ E D). lra. }
  repeat split; apply Fin; trivial; subst X; lra.
Qed.

(** ** Normalisation, in real numbers *)

Lemma eqb_zero_F2R (x : float) :
  F32.isfinite x = true -> F2R x <> 0 -> (x == F32.zero)%f32 = false.
Proof.
  destruct x as [s| | |[] m e]; try discriminate; try reflexivity.
  intros _ H. now elim H.
Qed.

(** What [v3_normalize] computes for a vector whose length as computed is
    finite and at least [2^-63]: the components times a factor [inv]
    with [S * inv^2] within [18 u] of 1, where [S] is the squared
    length. *)
Lemma normalize_frame (x y z : float) :
  F32.isfinite (length_val (x, y, z)) = true ->
  (pow2 (-63) <= length_val (x, y, z))%f32 = true ->
  exists inv,
    normalize_val (x, y, z) = ((x * inv)%f32, (y * inv)%f32, (z * inv)%f32)
    /\ F32.isfinite inv = true
    /\ finite3 (x, y, z) = true
    /\ 0 <= F2R inv <= bpow 65
    /\ 1 - 18 * u32
       <= (F2R x * F2R x + F2R y * F2R y + F2R z * F2R z) * (F2R inv * F2R inv)
       <= 1 + 18 * u32
    /\ finite3 (normalize_val (x, y, z)) = true
    /\ degenerate (length_val (normalize_val (x, y, z))) = false.
Proof.
  intros FL HL.
  pose proof (normalize_unit_val (x, y, z) FL HL) as [FN EN].
  pose proof (finite3_of_length _ FL) as F3.
  destruct (len_normal _ FL HL) as (ml & el & E & Bm & Be).
  destruct (finite3_inv x y z F3) as (Fx & Fy & Fz).
  destruct (length_error x y z F3 FL) as (Pl & s & Ps & Hs & Hls).
  cbv zeta in *.
  set (S := F2R x * F2R x + F2R y * F2R y + F2R z * F2R z) in *.
  assert (DG : degenerate (length_val (normalize_val (x, y, z))) = false).
  { unfold degenerate. rewrite FN. cbn [negb]. rewrite orb_false_r.
    apply eqb_zero_F2R; [exact FN|].
    apply Rabs_le_inv in EN. lra. }
  pose proof (finite3_of_length _ FN) as F3N.
  clear FN EN. revert F3N DG.
  unfold normalize_val. rewrite E in *.
  change (degenerate (S754_finite false ml el)) with false. cbv iota.
  intros F3N DG.
  destruct (div_error ml el Bm ltac:(lia)) as [N Hil]. cbv zeta in N, Hil.
  exists (F32.one / S754_finite false ml el)%f32.
  set (inv := (F32.one / S754_finite false ml el)%f32) in *.
  assert (Fi : F32.isfinite inv = true)
    by (destruct inv as [| | |[] mi ei]; try contradiction; reflexivity).
  assert (Pi : 0 <= F2R inv <= bpow 65).
  { destruct inv as [| | |[] mi ei]; try contradiction.
    destruct N as [Nm Ne]. rewrite F2R_pos.
    assert (0 < IZR (Zpos mi) <= IZR (2 ^ 24))
      by (split; [apply IZR_lt; lia | apply IZR_le; simpl; lia]).
    pose proof (bpow_pos ei).
    assert (bpow ei <= bpow 41) by (apply bpow_le; lia).
    replace 65%Z with (24 + 41)%Z by lia. rewrite bpow_add.
    rewrite (bpow_IZR 24) by lia.
    split; [apply Rmult_le_pos; lra | apply Rmult_le_compat; lra]. }
  set (i := F2R inv) in *. set (l := F2R (S754_finite false ml el)) in *.
  assert (Tl : bpow (-126) <= l * l).
  { assert (L63 : bpow (-63) <= l).
    { subst l. rewrite F2R_pos.
      replace (-63)%Z with (23 + -86)%Z by lia. rewrite bpow_add.
      rewrite (bpow_IZR 23) by lia.
      assert (IZR (2 ^ 23) <= IZR (Zpos ml)) by (apply IZR_le; simpl; lia).
      assert (bpow (-86) <= bpow el) by (apply bpow_le; lia).
      pose proof (bpow_pos (-86)).
      assert (0 < IZR (2 ^ 23)) by (apply IZR_lt; reflexivity).
      apply Rmult_le_compat; lra. }
    replace (-126)%Z with (-63 + -63)%Z by lia. rewrite bpow_add.
    pose proof (bpow_pos (-63)). apply Rmult_le_compat; lra. }
  assert (PS : 0 <= S)
    by (subst S; pose proof (sqr_nonneg (F2R x));
        pose proof (sqr_nonneg (F2R y)); pose proof (sqr_nonneg (F2R z)); lra).
  assert (HT : 1 - 18 * u32 <= S * (i * i) <= 1 + 18 * u32).
  { apply (inverse_length_tight u32 eta32 (bpow (-126)) S s l i); trivial.
    - apply u32_eq.
    - split; [apply Rlt_le, eta32_pos | apply Req_le, eta32_u32].
    - split; [apply Rlt_le, bpow_pos | exact Tl].
    - lra. }
  repeat split; trivial; try lra.
Qed.

(** ** The reflection, in real numbers *)

Lemma F2R_two : F2R F32.two = 2.
Proof.
  unfold F32.two. rewrite F2R_pos.
  change 8388608%Z with (2 ^ 23)%Z. rewrite <- bpow_IZR by lia.
  rewrite <- bpow_add. unfold bpow. simpl. lra.
Qed.

Lemma eta32_tiny : 0 < eta32 <= / 8388608 * / 1000000.
Proof.
  split; [apply eta32_pos|].
  apply Rle_trans with (bpow (-43)); [apply bpow_le; lia|].
  replace (-43)%Z with (-23 + -20)%Z by lia. rewrite bpow_add.
  fold u32. rewrite u32_eq.
  assert (bpow (-20) <= / 1000000).
  { pose proof (bpow_opp_IZR 20 ltac:(lia)) as W.
    change (IZR (2 ^ 20) * bpow (-20) = 1) in W.
    change (IZR (2 ^ 20)) with 1048576 in W.
    pose proof (bpow_pos (-20)). lra. }
  apply Rmult_le_compat_l; lra.
Qed.

(** A component of the reflection as the library computes it from a
    direction [(m0, m1, m2)], against the formula on a direction
    [(a0, a1, a2)] of real numbers that is within [27 u] of it. *)
Lemma reflect_float_chain (M : R) (v0 v1 v2 m0 m1 m2 vi mi : float)
    (a0 a1 a2 ai : R) :
  F32.isfinite (vi - F32.two * (v0 * m0 + v1 * m1 + v2 * m2) * mi)%f32 = true ->
  bpow (-126) <= M ->
  Rabs (F2R v0) <= M -> Rabs (F2R v1) <= M -> Rabs (F2R v2) <= M ->
  Rabs (F2R vi) <= M ->
  Rabs a0 <= 101 / 100 -> Rabs a1 <= 101 / 100 -> Rabs a2 <= 101 / 100 ->
  Rabs ai <= 101 / 100 ->
  Rabs (F2R m0 - a0) <= 27 * u32 -> Rabs (F2R m1 - a1) <= 27 * u32 ->
  Rabs (F2R m2 - a2) <= 27 * u32 -> Rabs (F2R mi - ai) <= 27 * u32 ->
  Rabs (F2R (vi - F32.two * (v0 * m0 + v1 * m1 + v2 * m2) * mi)%f32
        - (F2R vi - 2 * (F2R v0 * a0 + F2R v1 * a1 + F2R v2 * a2) * ai))
  <= 49 / 1000000 * M.
Proof.
  intros F HM V0 V1 V2 Vi A0 A1 A2 Ai D0 D1 D2 Di.
  destruct (sub_finite_inv _ _ F) as [Fvi Fq].
  destruct (mul_finite_inv _ _ Fq) as [Ft Fmi].
  destruct (mul_finite_inv _ _ Ft) as [_ Fd].
  destruct (add_finite_inv _ _ Fd) as [Fs Fp2].
  destruct (add_finite_inv _ _ Fs) as [Fp0 Fp1].
  destruct (mul_finite_inv _ _ Fp0) as [Fv0 Fm0].
  destruct (mul_finite_inv _ _ Fp1) as [Fv1 Fm1].
  destruct (mul_finite_inv _ _ Fp2) as [Fv2 Fm2].
  pose proof (mul_error _ _ Fv0 Fm0 Fp0) as P0.
  pose proof (mul_error _ _ Fv1 Fm1 Fp1) as P1.
  pose proof (mul_error _ _ Fv2 Fm2 Fp2) as P2.
  pose proof (add_error_signed _ _ Fp0 Fp1 Fs) as S1.
  pose proof (add_error_signed _ _ Fs Fp2 Fd) as Dd.
  pose proof (mul_error F32.two _ eq_refl Fd Ft) as T2. rewrite F2R_two in T2.
  pose proof (mul_error _ _ Ft Fmi Fq) as Q.
  pose proof (sub_error_signed _ _ Fvi Fq F) as Rr.
  assert (PM : 0 < M) by (pose proof (bpow_pos (-126)); lra).
  assert (He : 0 <= eta32 <= u32 * M).
  { split; [apply Rlt_le, eta32_pos|]. rewrite eta32_u32.
    apply Rmult_le_compat_l; [apply Rlt_le, u32_pos | exact HM]. }
  exact (reflect_chain u32 eta32 M _ _ _ _ _ _ _ _ _ _ _ _ _ _ _ _ _ _ _ _
           u32_eq He PM V0 V1 V2 Vi A0 A1 A2 Ai D0 D1 D2 Di
           P0 P1 P2 S1 Dd T2 Q Rr).
Qed.

Lemma bpow_m43 : bpow (-43) <= / 8388608 * / 1000000.
Proof.
  replace (-43)%Z with (-23 + -20)%Z by lia. rewrite bpow_add.
  fold u32. rewrite u32_eq.
  assert (bpow (-20) <= / 1000000).
  { pose proof (bpow_opp_IZR 20 ltac:(lia)) as W.
    change (IZR (2 ^ 20) * bpow (-20) = 1) in W.
    change (IZR (2 ^ 20)) with 1048576 in W.
    pose proof (bpow_pos (-20)). lra. }
  apply Rmult_le_compat_l; lra.
Qed.

Lemma tau_small (i : R) :
  0 <= i <= bpow 65 -> 0 <= eta32 * i <= u32 / 1000000.
Proof.
  intros Hi. pose proof eta32_pos. split; [apply Rmult_le_pos; lra|].
  apply Rle_trans with (bpow (-149) * bpow 65).
  - apply Rmult_le_compat_l; [apply Rlt_le, bpow_pos | lra].
  - rewrite <- bpow_add. rewrite u32_eq.
    apply Rle_trans with (bpow (-43)); [apply bpow_le; lia|].
    pose proof bpow_m43. lra.
Qed.

(** The rounding of [x * K], carried to [x * (K * i)]. *)
Lemma scaled_component (y x K i : R) :
  0 <= i ->
  Rabs (y - x * K) <= u32 * Rabs (x * K) + eta32 ->
  Rabs (y * i - x * (K * i)) <= u32 * Rabs (x * (K * i)) + eta32 * i.
Proof.
  intros Hi H.
  replace (y * i - x * (K * i)) with ((y - x * K) * i) by ring.
  replace (x * (K * i)) with (x * K * i) by ring.
  rewrite (Rabs_mult (y - x * K) i), (Rabs_mult (x * K) i), (Rabs_right i) by lra.
  replace (u32 * (Rabs (x * K) * i) + eta32 * i)
    with ((u32 * Rabs (x * K) + eta32) * i) by ring.
  apply Rmult_le_compat_r; trivial.
Qed.

(** A component of a normalised vector against the direction. *)
Lemma direction_component (x inv : float) (S : R) :
  F32.isfinite x = true -> F32.isfinite inv = true ->
  F32.isfinite (x * inv)%f32 = true ->
  0 <= F2R x * F2R x <= S ->
  S * (F2R inv * F2R inv) <= 1 + 18 * u32 ->
  Rabs (F2R x * F2R inv) <= 101 / 100
  /\ Rabs (F2R (x * inv)%f32 - F2R x * F2R inv) <= 27 * u32.
Proof.
  intros Fx Fi F Hx HS. pose proof u32_eq as U. pose proof eta32_tiny as T.
  pose proof (sqr_nonneg (F2R inv)).
  assert (A : Rabs (F2R x * F2R inv) <= 101 / 100).
  { apply sq_abs_le; [lra|].
    replace (F2R x * F2R inv * (F2R x * F2R inv))
      with (F2R x * F2R x * (F2R inv * F2R inv)) by ring.
    assert (F2R x * F2R x * (F2R inv * F2R inv) <= S * (F2R inv * F2R inv))
      by (apply Rmult_le_compat_r; lra).
    lra. }
  split; [exact A|].
  pose proof (mul_error x inv Fx Fi F) as E.
  assert (u32 * Rabs (F2R x * F2R inv) <= u32 * (101 / 100))
    by (apply Rmult_le_compat_l; lra).
  lra.
Qed.

Lemma scaled_direction_component (xk inv : float) (a : R) :
  F32.isfinite xk = true -> F32.isfinite inv = true ->
  F32.isfinite (xk * inv)%f32 = true ->
  Rabs a <= 101 / 100 ->
  Rabs (F2R xk * F2R inv - a) <= 25 * u32 ->
  Rabs (F2R (xk * inv)%f32 - a) <= 27 * u32.
Proof.
  intros Fx Fi F A C. pose proof u32_eq as U. pose proof eta32_tiny as T.
  pose proof (mul_error xk inv Fx Fi F) as E.
  assert (B : Rabs (F2R xk * F2R inv) <= 102 / 100).
  { apply Rabs_le_inv in A, C. apply Rabs_le. lra. }
  assert (u32 * Rabs (F2R xk * F2R inv) <= u32 * (102 / 100))
    by (apply Rmult_le_compat_l; lra).
  apply Rabs_le_inv in C, E. apply Rabs_le. lra.
Qed.

Lemma positive_value (k : float) :
  (F32.zero < k)%f32 = true -> F32.isfinite k = true -> 0 < F2R k.
Proof.
  destruct k as [[]|[]| |[] m e]; try discriminate; intros _ _.
  rewrite F2R_pos. apply Rmult_lt_0_compat; [apply IZR_lt; lia | apply bpow_pos].
Qed.

(** The reflections of [v] about [n] and about [n] scaled by [k > 0]
    agree to a ten-thousandth of the size of [v], whenever both normals
    have a length in the normal range and both results are finite. *)
Lemma reflect_scale_val (v n : vec3) (k : float) (M : R) :
  (F32.zero < k)%f32 = true ->
  F32.isfinite (length_val n) = true ->
  (pow2 (-63) <= length_val n)%f32 = true ->
  F32.isfinite (length_val (scale_val n k)) = true ->
  (pow2 (-63) <= length_val (scale_val n k))%f32 = true ->
  finite3 (reflect_val v n) = true ->
  finite3 (reflect_val v (scale_val n k)) = true ->
  bpow (-126) <= M -> within3 v M ->
  close3 (reflect_val v n) (reflect_val v (scale_val n k)) (M / 10000).
Proof.
  destruct v as [[vx vy] vz], n as [[x y] z].
  intros Hk FL HL FL' HL' FR FR' HM (Vx & Vy & Vz).
  unfold scale_val in *.
  destruct (normalize_frame x y z FL HL)
    as (inv & EN & Fi & F3 & Pi & HQ & F3N & DG).
  destruct (normalize_frame _ _ _ FL' HL')
    as (inv' & EN' & Fi' & F3' & Pi' & HQ' & F3N' & DG').
  destruct (finite3_inv _ _ _ F3) as (Fx & Fy & Fz).
  destruct (finite3_inv _ _ _ F3') as (Fxk & Fyk & Fzk).
  destruct (mul_finite_inv _ _ Fxk) as [_ Fk].
  pose proof (positive_value k Hk Fk) as PK.
  revert FR FR'. unfold reflect_val. cbv zeta. rewrite DG, DG'.
  rewrite EN in F3N |- *. rewrite EN' in F3N' |- *.
  cbv beta iota. intros FR FR'.
  destruct (finite3_inv _ _ _ F3N) as (Nx & Ny & Nz).
  destruct (finite3_inv _ _ _ F3N') as (Nx' & Ny' & Nz').
  destruct (finite3_inv _ _ _ FR) as (Rx & Ry & Rz).
  destruct (finite3_inv _ _ _ FR') as (Rx' & Ry' & Rz').
  pose proof u32_eq as U.
  pose proof (sqr_nonneg (F2R x)) as Sx. pose proof (sqr_nonneg (F2R y)) as Sy.
  pose proof (sqr_nonneg (F2R z)) as Sz.
  (* the direction of [n] *)
  set (SS := F2R x * F2R x + F2R y * F2R y + F2R z * F2R z) in *.
  destruct (direction_component x inv SS Fx Fi Nx
              ltac:(subst SS; lra) (proj2 HQ)) as [Ax Dx].
  destruct (direction_component y inv SS Fy Fi Ny
              ltac:(subst SS; lra) (proj2 HQ)) as [Ay Dy].
  destruct (direction_component z inv SS Fz Fi Nz
              ltac:(subst SS; lra) (proj2 HQ)) as [Az Dz].
  (* the direction of the scaled normal *)
  subst SS.
  pose proof (tau_small (F2R inv') Pi') as Tau.
  pose proof (scaled_component _ _ _ _ (proj1 Pi') (mul_error x k Fx Fk Fxk)) as Cx.
  pose proof (scaled_component _ _ _ _ (proj1 Pi') (mul_error y k Fy Fk Fyk)) as Cy.
  pose proof (scaled_component _ _ _ _ (proj1 Pi') (mul_error z k Fz Fk Fzk)) as Cz.
  assert (Pg : 0 <= F2R k * F2R inv') by (apply Rmult_le_pos; lra).
  assert (HC : 1 - 18 * u32
               <= F2R (x * k)%f32 * F2R inv' * (F2R (x * k)%f32 * F2R inv')
                  + F2R (y * k)%f32 * F2R inv' * (F2R (y * k)%f32 * F2R inv')
                  + F2R (z * k)%f32 * F2R inv' * (F2R (z * k)%f32 * F2R inv')
               <= 1 + 18 * u32).
  { replace (F2R (x * k)%f32 * F2R inv' * (F2R (x * k)%f32 * F2R inv')
             + F2R (y * k)%f32 * F2R inv' * (F2R (y * k)%f32 * F2R inv')
             + F2R (z * k)%f32 * F2R inv' * (F2R (z * k)%f32 * F2R inv'))
      with ((F2R (x * k)%f32 * F2R (x * k)%f32
             + F2R (y * k)%f32 * F2R (y * k)%f32
             + F2R (z * k)%f32 * F2R (z * k)%f32) * (F2R inv' * F2R inv'))
      by ring.
    exact HQ'. }
  destruct (scaled_direction u32 (eta32 * F2R inv') (F2R inv)
              (F2R k * F2R inv') (F2R x) (F2R y) (F2R z) _ _ _
              U Tau (proj1 Pi) Pg HQ Cx Cy Cz HC) as (Ex & Ey & Ez).
  pose proof (scaled_direction_component _ _ _ Fxk Fi' Nx' Ax Ex) as Dx'.
  pose proof (scaled_direction_component _ _ _ Fyk Fi' Ny' Ay Ey) as Dy'.
  pose proof (scaled_direction_component _ _ _ Fzk Fi' Nz' Az Ez) as Dz'.
  (* both reflections against the exact one *)
  assert (HM' : 0 <= M) by (pose proof (bpow_pos (-126)); lra).
  unfold close3.
  repeat apply conj.
  - pose proof (reflect_float_chain M vx vy vz _ _ _ vx _ _ _ _ _
                  Rx HM Vx Vy Vz Vx Ax Ay Az Ax Dx Dy Dz Dx) as P.
    pose proof (reflect_float_chain M vx vy vz _ _ _ vx _ _ _ _ _
                  Rx' HM Vx Vy Vz Vx Ax Ay Az Ax Dx' Dy' Dz' Dx') as Q.
    apply Rabs_le_inv in P, Q. apply Rabs_le. lra.
  - pose proof (reflect_float_chain M vx vy vz _ _ _ vy _ _ _ _ _
                  Ry HM Vx Vy Vz Vy Ax Ay Az Ay Dx Dy Dz Dy) as P.
    pose proof (reflect_float_chain M vx vy vz _ _ _ vy _ _ _ _ _
                  Ry' HM Vx Vy Vz Vy Ax Ay Az Ay Dx' Dy' Dz' Dy') as Q.
    apply Rabs_le_inv in P, Q. apply Rabs_le. lra.
  - pose proof (reflect_float_chain M vx vy vz _ _ _ vz _ _ _ _ _
                  Rz HM Vx Vy Vz Vz Ax Ay Az Az Dx Dy Dz Dz) as P.
    pose proof (reflect_float_chain M vx vy vz _ _ _ vz _ _ _ _ _
                  Rz' HM Vx Vy Vz Vz Ax Ay Az Az Dx' Dy' Dz' Dz') as Q.
    apply Rabs_le_inv in P, Q. apply Rabs_le. lra.
Qed.

Local Close Scope R_scope.

Lemma eval_seq {A : Type} (c : M unit) (k : M A) (st : state) :
  eval (c ;; k) st = eval k (exec c st).
Proof. unfold eval, exec, bind. now destruct (c st). Qed.

(** C6, amended.  Whenever the length [v3_length] computes for the
    source is finite and at least [2^-63], [v3_normalize] prints nothing
    and the length [v3_length] computes for its result is a finite float
    within [1e-4] of 1. *)
Theorem normalize_unit (st : state) (dst a : ptr) :
  dst <> NULL -> a <> NULL ->
  F32.isfinite (eval (v3_length a) st) = true ->
  (pow2 (-63) <= eval (v3_length a) st)%f32 = true ->
  let len := eval (v3_normalize dst a ;; v3_length dst) st in
  F32.isfinite len = true
  /\ (Rabs (F2R len - 1) <= 1 / 10000)%R
  /\ stderr (exec (v3_normalize dst a) st) = stderr st.
Proof.
  intros Hd Ha F L. cbv zeta.
  unfold eval in F, L. rewrite v3_length_run in F, L by assumption.
  cbn [fst] in F, L.
  rewrite eval_seq. unfold eval at 1 2. rewrite v3_length_run by assumption.
  cbn [fst]. rewrite v3_normalize_result by assumption.
  destruct (normalize_unit_val (load3 st a) F L) as [FL E].
  split; [exact FL|]. split; [lra|].
  rewrite v3_normalize_stderr by assumption.
  destruct (len_normal _ F L) as (ml & el & -> & _).
  change (degenerate (S754_finite false ml el)) with false.
  apply app_nil_r.
Qed.

(** [test_v3_normalize]: the vector [(3, 0, 4)]. *)
Lemma normalize_unit_witness :
  let st := state_of [vec_of_Z 3 0 4; vec_of_Z 0 0 0] in
  let len := eval (v3_normalize (Ptr 1 0) (Ptr 0 0) ;; v3_length (Ptr 1 0)) st in
  F32.isfinite len = true
  /\ (Rabs (F2R len - 1) <= 1 / 10000)%R
  /\ stderr (exec (v3_normalize (Ptr 1 0) (Ptr 0 0)) st) = stderr st.
Proof.
  intros st.
  exact (normalize_unit st (Ptr 1 0) (Ptr 0 0)
           ltac:(discriminate) ltac:(discriminate) eq_refl eq_refl).
Defined.

(** ** Reflection about a scaled normal *)

Lemma bpow_m126_le_1 : (bpow (-126) <= 1)%R.
Proof. change 1%R with (bpow 0). apply bpow_le. lia. Qed.

(** C8, amended.  Scaling the normal in place by any [k > 0] changes the
    result of [v3_reflect] by at most a ten-thousandth of the size [M] of
    [v] in each component ([1e-4] for a [v] with components up to 1),
    whenever the length [v3_length] computes for the normal is finite and
    at least [2^-63], before and after the scaling, and neither
    reflection overflows. *)
Theorem reflect_scale_invariant (st : state) (dst v n : ptr) (k : float)
    (M : R) :
  valid_ptr st dst -> valid_ptr st v -> valid_ptr st n ->
  same_or_separate dst v -> separate n v ->
  (F32.zero < k)%f32 = true ->
  F32.isfinite (eval (v3_length n) st) = true ->
  (pow2 (-63) <= eval (v3_length n) st)%f32 = true ->
  F32.isfinite (eval (v3_scale n k ;; v3_length n) st) = true ->
  (pow2 (-63) <= eval (v3_scale n k ;; v3_length n) st)%f32 = true ->
  finite3 (load3 (exec (v3_reflect dst v n) st) dst) = true ->
  finite3 (load3 (exec (v3_scale n k ;; v3_reflect dst v n) st) dst) = true ->
  (bpow (-126) <= M)%R -> within3 (load3 st v) M ->
  close3 (load3 (exec (v3_reflect dst v n) st) dst)
         (load3 (exec (v3_scale n k ;; v3_reflect dst v n) st) dst)
         (M / 10000).
Proof.
  intros Hd Hv Hn Sdv Snv Hk.
  assert (Nn : n <> NULL) by (destruct n; [contradiction | discriminate]).
  rewrite eval_seq, exec_seq, v3_scale_exec by assumption.
  set (st1 := exec (store3 n _) st).
  assert (N1 : nextblock st1 = nextblock st) by apply nextblock_store3.
  assert (Hd1 : valid_ptr st1 dst) by (destruct dst; simpl in *; lia).
  assert (Hv1 : valid_ptr st1 v) by (destruct v; simpl in *; lia).
  assert (Hn1 : valid_ptr st1 n) by (destruct n; simpl in *; lia).
  destruct (v3_reflect_spec st1 dst v n Hd1 Hv1 Hn1 Sdv) as [-> _].
  destruct (v3_reflect_spec st dst v n Hd Hv Hn Sdv) as [-> _].
  assert (Ev : load3 st1 v = load3 st v)
    by (subst st1; now apply load3_store3_separate).
  assert (En : load3 st1 n = scale_val (load3 st n) k).
  { subst st1. destruct n; [contradiction | apply load3_store3]. }
  unfold eval. rewrite !v3_length_run by assumption. cbn [fst].
  rewrite Ev, En. intros FL HL FL' HL' FR FR' HM W.
  now apply reflect_scale_val.
Qed.

(** [test_v3_reflect]: [v = (0,-1,0)] and the normal [(0,1,0)] scaled by
    10, the non-unit normal [n2] of the test. *)
Lemma reflect_scale_invariant_witness :
  let st := state_of [vec_of_Z 0 (-1) 0; vec_of_Z 0 1 0; vec_of_Z 0 0 0] in
  close3 (load3 (exec (v3_reflect (Ptr 2 0) (Ptr 0 0) (Ptr 1 0)) st) (Ptr 2 0))
         (load3 (exec (v3_scale (Ptr 1 0) (of_Z 10)
                       ;; v3_reflect (Ptr 2 0) (Ptr 0 0) (Ptr 1 0)) st)
            (Ptr 2 0))
         (1 / 10000).
Proof.
  intros st.
  assert (V : valid_ptr st (Ptr 2 0) /\ valid_ptr st (Ptr 0 0)
              /\ valid_ptr st (Ptr 1 0)) by (simpl; lia).
  destruct V as (V2 & V0 & V1).
  assert (S20 : same_or_separate (Ptr 2 0) (Ptr 0 0)) by (right; left; lia).
  assert (S10 : separate (Ptr 1 0) (Ptr 0 0)) by (left; lia).
  assert (W : within3 (load3 st (Ptr 0 0)) 1).
  { change (load3 st (Ptr 0 0))
      with (S754_zero false, S754_finite true 8388608 (-23), S754_zero false).
    unfold within3, F2R. simpl.
    repeat split; apply Rabs_le; lra. }
  exact (reflect_scale_invariant st (Ptr 2 0) (Ptr 0 0) (Ptr 1 0) (of_Z 10) 1
           V2 V0 V1 S20 S10 eq_refl eq_refl eq_refl eq_refl eq_refl
           eq_refl eq_refl bpow_m126_le_1 W).
Defined.

(** * Further properties of the library *)

(** ** Algebra of the machine operations *)

Lemma add_comm (x y : float) : (x + y)%f32 = (y + x)%f32.
Proof.
  unfold F32.add, SFadd.
  destruct x as [[]|[]| |sx mx ex], y as [[]|[]| |sy my ey]; try reflexivity.
  change IntDef.Z.min with Z.min.
  rewrite (Z.min_comm ey ex). cbv zeta. f_equal. apply Z.add_comm.
Qed.

Lemma mul_comm (x y : float) : (x * y)%f32 = (y * x)%f32.
Proof.
  unfold F32.mul, SFmul.
  destruct x as [[]|[]| |sx mx ex], y as [[]|[]| |sy my ey]; try reflexivity;
    try (now destruct sy); try (now destruct sx).
  now rewrite (xorb_comm sy sx), (Pos.mul_comm my mx), (Z.add_comm ey ex).
Qed.

Lemma bra_abs (s : bool) (m e : Z) (l : location) :
  F32.fabsf (bra s m e l) = bra false m e l.
Proof.
  unfold bra, binary_round_aux, F32.fabsf.
  destruct (shr_fexp _ _ m e l) as [mrs' e'].
  destruct (shr_fexp _ _ _ e' loc_Exact) as [mrs'' e''].
  destruct (shr_m mrs''); [reflexivity | | reflexivity].
  now destruct (e'' <=? _).
Qed.

Lemma binary_normalize_abs (m e : Z) :
  F32.fabsf (binary_normalize F32.prec F32.emax (- m) e false)
  = F32.fabsf (binary_normalize F32.prec F32.emax m e false).
Proof.
  destruct m as [|p|p]; try reflexivity;
    cbn [Z.opp binary_normalize]; unfold binary_round;
    destruct (shl_align p e _) as [mz ez];
    fold bra; now rewrite !bra_abs.
Qed.

(** [|x - y|] does not depend on the order of the operands. *)
Lemma abs_sub_comm (x y : float) :
  F32.fabsf (x - y)%f32 = F32.fabsf (y - x)%f32.
Proof.
  unfold F32.sub, SFsub.
  destruct x as [[]|[]| |sx mx ex], y as [[]|[]| |sy my ey]; try reflexivity.
  change IntDef.Z.min with Z.min.
  rewrite (Z.min_comm ey ex). cbv zeta.
  rewrite <- binary_normalize_abs. f_equal. f_equal. lia.
Qed.

(** A finite number minus itself is [+0]. *)
Lemma sub_self (x : float) :
  F32.isfinite x = true -> (x - x)%f32 = F32.zero.
Proof.
  unfold F32.sub, SFsub.
  destruct x as [[]| | |s m e]; try discriminate; try reflexivity.
  intros _. change IntDef.Z.min with Z.min. cbv zeta.
  now rewrite Z.sub_diag.
Qed.

Lemma sub_self_nonfinite (x : float) :
  F32.isfinite x = false -> (x - x)%f32 = F32.NAN.
Proof. now destruct x as [|[]| |]. Qed.

Lemma Zdigits2_shift (m : positive) (k : Z) :
  0 <= k -> Zdigits2 (Zpos m * 2 ^ k) = Zpos (digits2_pos m) + k.
Proof.
  intros Hk. pose proof (digits2_pos_bounds m) as [L U].
  apply Zdigits2_unique; [|lia].
  replace (Zpos (digits2_pos m) + k - 1) with (Zpos (digits2_pos m) - 1 + k)
    by lia.
  rewrite !Z.pow_add_r by lia.
  assert (0 < 2 ^ k) by (apply Z.pow_pos_nonneg; lia).
  split; nia.
Qed.

(** Multiplying a well-formed float by [1.0f] gives it back. *)
Lemma mul_one (x : float) : F32.valid x = true -> (x * F32.one)%f32 = x.
Proof.
  destruct x as [[]|[]| |s m e]; try reflexivity.
  intros V. destruct (valid_finite_inv s m e V) as (C & He & Hm).
  unfold F32.mul, SFmul, F32.one. fold bra.
  rewrite xorb_false_r.
  replace (Zpos (m * 8388608)) with (Zpos m * 2 ^ 23) by reflexivity.
  rewrite bra_eq by lia. cbv zeta.
  rewrite Zdigits2_shift by lia.
  replace (Zpos (digits2_pos m) + 23 + (e + -23))
    with (Zpos (digits2_pos m) + e) by lia.
  rewrite fexp32_eq, C.
  replace (e - (e + -23)) with 23 by lia.
  rewrite rnd_shift_exact by lia.
  replace (e + -23 + Z.max 0 23) with e by lia.
  change (Zdigits2 (Zpos m)) with (Zpos (digits2_pos m)).
  rewrite fexp32_eq, C, Z.max_id, Z.sub_diag. change (2 ^ 0) with 1.
  rewrite Z.div_1_r. unfold bra_result.
  destruct (Z.leb_spec e 104); [reflexivity | lia].
Qed.

(** ** Differences and comparisons *)

Lemma bra_nonzero (s : bool) (m e : Z) :
  0 < m -> -149 <= e -> F32.is_zero (bra s m e loc_Exact) = false.
Proof.
  intros Hm He.
  destruct (bra_eq2 s m e loc_Exact Hm) as (B1 & B2 & E). cbv zeta in *.
  set (n1 := fexp32 (Zdigits2 m + e) - e) in *.
  set (m1 := rnd_shift m loc_Exact n1) in *.
  assert (P : 0 < m1).
  { destruct (Z.le_gt_cases n1 0) as [N|N].
    - subst m1. rewrite rnd_shift_noshift by assumption. exact Hm.
    - assert (D : n1 = Zdigits2 m - 24)
        by (subst n1; rewrite fexp32_eq in *; lia).
      pose proof (Zdigits2_bounds m Hm) as [L _].
      assert (Q : 2 ^ 23 <= m / 2 ^ Z.max 0 n1).
      { apply Z.div_le_lower_bound; [apply Z.pow_pos_nonneg; lia|].
        rewrite <- Z.pow_add_r by lia.
        replace (Z.max 0 n1 + 23) with (Zdigits2 m - 1) by lia. exact L. }
      change (2 ^ 23) with 8388608 in Q.
      destruct (rnd_shift_cases m loc_Exact n1 ltac:(lia)) as [R|R];
        fold m1 in R; lia. }
  rewrite E. destruct (m1 =? 16777216).
  - unfold bra_result. now destruct (_ <=? 104).
  - unfold bra_result. destruct m1; try lia. now destruct (_ <=? 104).
Qed.

Lemma binary_normalize_nonzero (m e : Z) :
  m <> 0 -> -149 <= e ->
  F32.is_zero (binary_normalize F32.prec F32.emax m e false) = false.
Proof.
  intros Hm He.
  assert (G : forall s p,
             F32.is_zero (binary_round F32.prec F32.emax s p e) = false).
  { intros s p. unfold binary_round.
    set (e' := fexp F32.prec F32.emax (Zpos (digits2_pos p) + e)).
    assert (He' : -149 <= e')
      by (subst e'; change (fexp F32.prec F32.emax) with fexp32;
          rewrite fexp32_eq; lia).
    unfold shl_align. destruct (e' - e) eqn:D; fold bra;
      apply bra_nonzero; lia. }
  destruct m as [|p|p]; [congruence | apply G | apply G].
Qed.

(** Two well-formed finite floats that stand for the same number are the
    same float. *)
Lemma canonical_unique (mx my : positive) (ex ey : Z) (sx sy : bool) :
  F32.valid (S754_finite sx mx ex) = true ->
  F32.valid (S754_finite sy my ey) = true ->
  Zpos mx * 2 ^ (ex - Z.min ex ey) = Zpos my * 2 ^ (ey - Z.min ex ey) ->
  mx = my /\ ex = ey.
Proof.
  intros Vx Vy H.
  destruct (valid_finite_inv _ _ _ Vx) as (Cx & _ & _).
  destruct (valid_finite_inv _ _ _ Vy) as (Cy & _ & _).
  assert (D : Zpos (digits2_pos mx) + ex = Zpos (digits2_pos my) + ey).
  { pose proof (Zdigits2_shift mx (ex - Z.min ex ey) ltac:(lia)) as Dx.
    pose proof (Zdigits2_shift my (ey - Z.min ex ey) ltac:(lia)) as Dy.
    rewrite H in Dx. lia. }
  assert (ex = ey) by lia. subst ey.
  rewrite Z.min_id, Z.sub_diag in H. change (2 ^ 0) with 1 in H.
  split; [lia | reflexivity].
Qed.

Lemma leb_abs_zero (d : float) : (F32.fabsf d <= F32.zero)%f32 = F32.is_zero d.
Proof. now destruct d as [[]|[]| |[] m e]. Qed.

Lemma eqb_finite_inv (sx sy : bool) (mx my : positive) (ex ey : Z) :
  (S754_finite sx mx ex == S754_finite sy my ey)%f32 = true ->
  sx = sy /\ mx = my /\ ex = ey.
Proof.
  unfold F32.eqb, SFeqb, SFcompare.
  change (PosDef.Pos.compare_cont Eq mx my) with (mx ?= my)%positive.
  destruct sx, sy; try discriminate;
    destruct (Z.compare_spec ex ey); try discriminate;
    destruct (Pos.compare_spec mx my); try discriminate; auto.
Qed.

Lemma eqb_refl_finite (s : bool) (m : positive) (e : Z) :
  (S754_finite s m e == S754_finite s m e)%f32 = true.
Proof.
  unfold F32.eqb, SFeqb, SFcompare.
  change (PosDef.Pos.compare_cont Eq m m) with (m ?= m)%positive.
  rewrite Z.compare_refl, Pos.compare_refl. now destruct s.
Qed.

(** With tolerance zero, the test of [v3_equals] on two finite floats is
    [==]. *)
Lemma sub_zero_iff (x y : float) :
  F32.valid x = true -> F32.valid y = true ->
  F32.isfinite x = true -> F32.isfinite y = true ->
  (F32.fabsf (x - y) <= F32.zero)%f32 = (x == y)%f32.
Proof.
  intros Vx Vy Fx Fy. rewrite leb_abs_zero.
  destruct x as [sx| | |sx mx ex], y as [sy| | |sy my ey]; try discriminate.
  - now destruct sx, sy.
  - now destruct sy.
  - now destruct sx.
  - destruct (S754_finite sx mx ex == S754_finite sy my ey)%f32 eqn:E.
    + apply eqb_finite_inv in E. destruct E as (-> & -> & ->).
      now rewrite sub_self.
    + unfold F32.sub, SFsub. change IntDef.Z.min with Z.min. cbv zeta.
      destruct (valid_finite_inv _ _ _ Vx) as (Cx & _ & _).
      destruct (valid_finite_inv _ _ _ Vy) as (Cy & _ & _).
      apply binary_normalize_nonzero; [|lia].
      rewrite !shl_align_fst by lia.
      intros H.
      assert (S : sx = sy).
      { assert (0 < Zpos mx * 2 ^ (ex - Z.min ex ey))
          by (apply Z.mul_pos_pos; [lia | apply Z.pow_pos_nonneg; lia]).
        assert (0 < Zpos my * 2 ^ (ey - Z.min ex ey))
          by (apply Z.mul_pos_pos; [lia | apply Z.pow_pos_nonneg; lia]).
        destruct sx, sy; cbn [cond_Zopp] in H; try reflexivity; lia. }
      subst sy.
      assert (Q : Zpos mx * 2 ^ (ex - Z.min ex ey)
                  = Zpos my * 2 ^ (ey - Z.min ex ey))
        by (destruct sx; cbn [cond_Zopp] in H; lia).
      destruct (canonical_unique mx my ex ey sx sx Vx Vy Q) as [-> ->].
      now rewrite eqb_refl_finite in E.
Qed.

Lemma leb_trans (x y z : float) :
  (x <= y)%f32 = true -> (y <= z)%f32 = true -> (x <= z)%f32 = true.
Proof.
  unfold F32.leb, SFleb, SFcompare.
  destruct x as [sx|sx| |sx mx ex], y as [sy|sy| |sy my ey],
    z as [sz|sz| |sz mz ez];
    try discriminate; try reflexivity;
    repeat match goal with
           | |- context [PosDef.Pos.compare_cont Eq ?a ?b] =>
               change (PosDef.Pos.compare_cont Eq a b) with (a ?= b)%positive
           end;
    repeat match goal with
           | s : bool |- _ => destruct s
           end;
    try discriminate; try reflexivity;
    repeat match goal with
           | |- context [(?a ?= ?b)%Z] => destruct (Z.compare_spec a b)
           | |- context [(?a ?= ?b)%positive] => destruct (Pos.compare_spec a b)
           end;
    cbn [CompOpp]; try discriminate; try reflexivity; intros _ _; lia.
Qed.

(** ** NULL arguments *)

Lemma only_reports_error (msg : string) (st : state) :
  only_reports msg st (exec (v3_error msg) st).
Proof. unfold only_reports, exec, v3_error; simpl. auto. Qed.

(** X1.  A function that writes a vector does nothing but print its
    diagnostic when one of its pointers is NULL: memory is left as it
    was. *)
Theorem null_argument_writers (st : state) (dst a b : ptr) (s : float) :
  (dst = NULL \/ a = NULL \/ b = NULL ->
   only_reports (null_msg "v3_from_points") st (exec (v3_from_points dst a b) st)
   /\ only_reports (null_msg "v3_add") st (exec (v3_add dst a b) st)
   /\ only_reports (null_msg "v3_subtract") st (exec (v3_subtract dst a b) st)
   /\ only_reports (null_msg "v3_cross_product") st
        (exec (v3_cross_product dst a b) st)
   /\ only_reports (null_msg "v3_reflect") st (exec (v3_reflect dst a b) st))
  /\ (dst = NULL \/ a = NULL ->
      only_reports (null_msg "v3_normalize") st (exec (v3_normalize dst a) st))
  /\ (dst = NULL ->
      only_reports (null_msg "v3_scale") st (exec (v3_scale dst s) st)).
Proof.
  split; [intros H | split; intros H].
  - destruct dst as [|bd od]; [repeat apply conj; apply only_reports_error|].
    destruct a as [|ba oa]; [repeat apply conj; apply only_reports_error|].
    destruct b as [|bb ob]; [repeat apply conj; apply only_reports_error|].
    destruct H as [H|[H|H]]; discriminate.
  - destruct dst as [|bd od]; [apply only_reports_error|].
    destruct a as [|ba oa]; [apply only_reports_error|].
    destruct H; discriminate.
  - subst dst. apply only_reports_error.
Qed.

Lemma null_argument_writers_witness :
  only_reports (null_msg "v3_cross_product") (state_of [vec_of_Z 1 2 3])
    (exec (v3_cross_product (Ptr 0 0) NULL (Ptr 0 0)) (state_of [vec_of_Z 1 2 3]))
  /\ only_reports (null_msg "v3_scale") (state_of [vec_of_Z 1 2 3])
       (exec (v3_scale NULL F32.two) (state_of [vec_of_Z 1 2 3])).
Proof.
  pose proof (null_argument_writers (state_of [vec_of_Z 1 2 3])
                (Ptr 0 0) NULL (Ptr 0 0) F32.two) as (H & _ & _).
  pose proof (null_argument_writers (state_of [vec_of_Z 1 2 3])
                NULL NULL NULL F32.two) as (_ & _ & K).
  split.
  - apply H. right. left. reflexivity.
  - apply K. reflexivity.
Defined.

Section NullAngle.

Variable acosf : float -> float.

(** X2.  A function that returns a number returns NaN on a NULL pointer,
    after printing its diagnostic; [v3_angle] has no test of its own and
    answers with the diagnostic of [v3_angle_quick], without calling
    [acosf]. *)
Theorem null_argument_queries (st : state) (a b : ptr) :
  (a = NULL -> v3_length a st = (F32.NAN, exec (v3_error (null_msg "v3_length")) st))
  /\ (a = NULL \/ b = NULL ->
      v3_dot_product a b st
      = (F32.NAN, exec (v3_error (null_msg "v3_dot_product")) st)
      /\ v3_angle_quick a b st
         = (F32.NAN, exec (v3_error (null_msg "v3_angle_quick")) st)
      /\ v3_angle acosf a b st
         = (F32.NAN, exec (v3_error (null_msg "v3_angle_quick")) st)).
Proof.
  split.
  - intros ->. reflexivity.
  - intros H.
    destruct a as [|ba oa]; [repeat split; reflexivity|].
    destruct b as [|bb ob]; [repeat split; reflexivity|].
    destruct H; discriminate.
Qed.

End NullAngle.

Lemma null_argument_queries_witness :
  v3_angle (fun _ => F32.one) (Ptr 0 0) NULL (state_of [vec_of_Z 1 2 3])
  = (F32.NAN,
     exec (v3_error (null_msg "v3_angle_quick")) (state_of [vec_of_Z 1 2 3])).
Proof.
  pose proof (null_argument_queries (fun _ => F32.one)
                (state_of [vec_of_Z 1 2 3]) (Ptr 0 0) NULL) as (_ & H).
  apply H. right. reflexivity.
Defined.

(** X3.  [v3_equals] answers false on a NULL pointer, and is the one
    function of the library that prints nothing for it. *)
Theorem equals_null_silent (st : state) (a b : ptr) (t : float) :
  a = NULL \/ b = NULL -> v3_equals a b t st = (false, st).
Proof.
  intros H.
  destruct a as [|ba oa]; [reflexivity|].
  destruct b as [|bb ob]; [reflexivity|].
  destruct H; discriminate.
Qed.

Lemma equals_null_silent_witness :
  v3_equals NULL NULL F32.pinf (state_of []) = (false, state_of []).
Proof. apply equals_null_silent. left. reflexivity. Defined.

(** ** What a call leaves alone *)

Ltac frame_simpl :=
  cbn -[Z.add Z.eqb String.append];
  repeat rewrite upd_other by lia; try reflexivity.

(** X4.  A function that writes a vector writes the three cells of [dst]
    and no other cell, whatever its arguments are; it allocates
    nothing. *)
Theorem writers_frame (st : state) (dst a b : ptr) (s : float) (c : block) (o : Z) :
  ~ in_buffer dst c o ->
  heap (exec (v3_from_points dst a b) st) c o = heap st c o
  /\ heap (exec (v3_add dst a b) st) c o = heap st c o
  /\ heap (exec (v3_subtract dst a b) st) c o = heap st c o
  /\ heap (exec (v3_cross_product dst a b) st) c o = heap st c o
  /\ heap (exec (v3_normalize dst a) st) c o = heap st c o
  /\ heap (exec (v3_scale dst s) st) c o = heap st c o.
Proof.
  intros H.
  destruct dst as [|bd od]; [repeat split; reflexivity|].
  cbn [in_buffer] in H.
  repeat apply conj.
  1-4: destruct a as [|ba oa]; [reflexivity|];
       destruct b as [|bb ob]; [reflexivity|];
       unfold v3_from_points, v3_add, v3_subtract, v3_cross_product,
         exec, bind, load, store;
       frame_simpl.
  - destruct a as [|ba oa]; [reflexivity|].
    unfold v3_normalize, exec, bind, load, store, v3_error.
    cbn -[Z.add Z.eqb String.append].
    match goal with
    | |- context [if ?c then _ else _] => destruct c
    end; frame_simpl.
  - unfold v3_scale, exec, bind, load, store. frame_simpl.
Qed.

Lemma writers_frame_witness :
  heap (exec (v3_add (Ptr 0 0) (Ptr 0 0) (Ptr 1 0))
          (state_of [vec_of_Z 1 2 3; vec_of_Z 4 5 6])) 1 2
  = heap (state_of [vec_of_Z 1 2 3; vec_of_Z 4 5 6]) 1 2
  /\ heap (exec (v3_scale (Ptr 0 0) F32.two)
             (state_of [vec_of_Z 1 2 3; vec_of_Z 4 5 6])) 0 3
     = heap (state_of [vec_of_Z 1 2 3; vec_of_Z 4 5 6]) 0 3.
Proof.
  assert (H1 : ~ in_buffer (Ptr 0 0) 1 2) by (cbn; lia).
  assert (H2 : ~ in_buffer (Ptr 0 0) 0 3) by (cbn; lia).
  pose proof (writers_frame (state_of [vec_of_Z 1 2 3; vec_of_Z 4 5 6])
                (Ptr 0 0) (Ptr 0 0) (Ptr 1 0) F32.two 1 2 H1) as (_ & A & _).
  pose proof (writers_frame (state_of [vec_of_Z 1 2 3; vec_of_Z 4 5 6])
                (Ptr 0 0) (Ptr 0 0) (Ptr 1 0) F32.two 0 3 H2)
    as (_ & _ & _ & _ & _ & B).
  exact (conj A B).
Defined.

(** X5.  [v3_reflect] writes the three cells of [dst] and no other cell
    of the buffers that exist at the call; its work array [nn] is gone
    when it returns. *)
Theorem reflect_frame (st : state) (dst v n : ptr) (c : block) (o : Z) :
  c < nextblock st -> ~ in_buffer dst c o ->
  heap (exec (v3_reflect dst v n) st) c o = heap st c o
  /\ nextblock (exec (v3_reflect dst v n) st) = nextblock st.
Proof.
  intros Hc H.
  destruct dst as [|bd od]; [split; reflexivity|].
  destruct v as [|bv ov]; [split; reflexivity|].
  destruct n as [|bn on]; [split; reflexivity|].
  cbn [in_buffer] in H.
  unfold v3_reflect, with_local, exec, v3_normalize, v3_length, bind, load,
    store, ret, v3_error.
  cbn -[Z.add Z.eqb String.append].
  match goal with
  | |- context [if ?c then _ else _] => destruct c
  end;
    cbn -[Z.add Z.eqb String.append];
    match goal with
    | |- context [if ?c then _ else _] => destruct c
    end;
    cbn -[Z.add Z.eqb String.append];
    (split; [repeat rewrite upd_other by lia; reflexivity | reflexivity]).
Qed.

Lemma reflect_frame_witness :
  let st := state_of [vec_of_Z 0 (-1) 0; vec_of_Z 0 1 0; vec_of_Z 7 7 7] in
  heap (exec (v3_reflect (Ptr 2 0) (Ptr 0 0) (Ptr 1 0)) st) 1 1 = heap st 1 1
  /\ nextblock (exec (v3_reflect (Ptr 2 0) (Ptr 0 0) (Ptr 1 0)) st)
     = nextblock st.
Proof.
  intros st.
  assert (H1 : 1 < nextblock st) by (cbn; lia).
  assert (H2 : ~ in_buffer (Ptr 2 0) 1 1) by (cbn; lia).
  exact (reflect_frame st (Ptr 2 0) (Ptr 0 0) (Ptr 1 0) 1 1 H1 H2).
Defined.

Section QueriesPure.

Variable acosf : float -> float.

(** X6.  The functions that return a value write to no cell: memory is
    the same after the call, whatever the arguments are. *)
Theorem queries_keep_memory (st : state) (a b : ptr) (t : float) :
  heap (exec (v3_dot_product a b) st) = heap st
  /\ heap (exec (v3_length a) st) = heap st
  /\ heap (exec (v3_angle_quick a b) st) = heap st
  /\ heap (exec (v3_angle acosf a b) st) = heap st
  /\ exec (v3_equals a b t) st = st.
Proof.
  destruct a as [|ba oa]; [repeat split; reflexivity|].
  destruct b as [|bb ob]; [repeat split; reflexivity|].
  repeat apply conj; try reflexivity.
  - unfold v3_angle_quick, v3_length, v3_dot_product, exec, bind, load, ret,
      v3_error.
    cbn -[Z.add String.append].
    match goal with
    | |- context [if ?c then _ else _] => destruct c
    end; reflexivity.
  - unfold v3_angle, v3_angle_quick, v3_length, v3_dot_product, exec, bind,
      load, ret, v3_error.
    cbn -[Z.add String.append].
    match goal with
    | |- context [if ?c then _ else _] => destruct c
    end; cbn -[Z.add String.append].
    + reflexivity.
    + match goal with
      | |- context [if ?c then _ else _] => destruct c
      end; reflexivity.
Qed.

End QueriesPure.

(** ** Symmetries *)


Lemma dot_val_comm (a b : vec3) : dot_val a b = dot_val b a.
Proof.
  destruct a as [[a0 a1] a2], b as [[b0 b1] b2]. unfold dot_val.
  now rewrite (mul_comm a0), (mul_comm a1), (mul_comm a2).
Qed.

Lemma angle_quick_val_comm (a b : vec3) :
  angle_quick_val a b = angle_quick_val b a.
Proof.
  unfold angle_quick_val.
  rewrite (orb_comm (degenerate (length_val b))), (dot_val_comm b a),
    (mul_comm (length_val b)).
  reflexivity.
Qed.

Lemma v3_angle_quick_comm (st : state) (a b : ptr) :
  v3_angle_quick a b st = v3_angle_quick b a st.
Proof.
  destruct a as [|ba oa]; [now destruct b|].
  destruct b as [|bb ob]; [reflexivity|].
  rewrite !v3_angle_quick_run by discriminate.
  rewrite (orb_comm (degenerate (length_val (load3 st (Ptr bb ob))))),
    (angle_quick_val_comm (load3 st (Ptr bb ob))).
  reflexivity.
Qed.

Section Symmetry.

Variable acosf : float -> float.

(** X8.  The dot product and the two angle functions are symmetric in
    their arguments: same value, same diagnostics. *)
Theorem dot_and_angle_symmetric (st : state) (a b : ptr) :
  v3_dot_product a b st = v3_dot_product b a st
  /\ v3_angle_quick a b st = v3_angle_quick b a st
  /\ v3_angle acosf a b st = v3_angle acosf b a st.
Proof.
  split; [|split].
  - destruct a as [|ba oa]; [now destruct b|].
    destruct b as [|bb ob]; [reflexivity|].
    rewrite !v3_dot_product_run by discriminate.
    now rewrite dot_val_comm.
  - apply v3_angle_quick_comm.
  - unfold v3_angle, bind. now rewrite v3_angle_quick_comm.
Qed.

End Symmetry.

(** ** [v3_equals] *)

Lemma v3_equals_run (st : state) (a b : ptr) (t : float) :
  a <> NULL -> b <> NULL ->
  v3_equals a b t st = (equals_val (load3 st a) (load3 st b) t, st).
Proof.
  destruct a as [|ba oa]; [congruence|].
  destruct b as [|bb ob]; [congruence|]. intros _ _. reflexivity.
Qed.

Lemma equals_val_comm (a b : vec3) (t : float) :
  equals_val a b t = equals_val b a t.
Proof.
  destruct a as [[a0 a1] a2], b as [[b0 b1] b2]. unfold equals_val.
  now rewrite (abs_sub_comm a0), (abs_sub_comm a1), (abs_sub_comm a2).
Qed.

(** X9.  [v3_equals] is symmetric in the two vectors. *)
Theorem equals_symmetric (st : state) (a b : ptr) (t : float) :
  v3_equals a b t st = v3_equals b a t st.
Proof.
  destruct a as [|ba oa]; [now destruct b|].
  destruct b as [|bb ob]; [reflexivity|].
  rewrite !v3_equals_run by discriminate.
  now rewrite equals_val_comm.
Qed.

Lemma leb_abs_tol (x t : float) :
  (x <= abs_tol t)%f32 = (x <= F32.fabsf t)%f32.
Proof.
  destruct t as [[]|[]| |[] m e]; reflexivity.
Qed.

Lemma equals_val_abs (a b : vec3) (t : float) :
  equals_val a b t
  = (let '(a0, a1, a2) := a in
     let '(b0, b1, b2) := b in
     (F32.fabsf (a0 - b0) <= F32.fabsf t)%f32
     && (F32.fabsf (a1 - b1) <= F32.fabsf t)%f32
     && (F32.fabsf (a2 - b2) <= F32.fabsf t)%f32).
Proof.
  destruct a as [[a0 a1] a2], b as [[b0 b1] b2]. unfold equals_val.
  now rewrite !leb_abs_tol.
Qed.

Lemma fabsf_neg (t : float) : F32.fabsf (F32.neg t) = F32.fabsf t.
Proof. now destruct t. Qed.

Lemma fabsf_fabsf (t : float) : F32.fabsf (F32.fabsf t) = F32.fabsf t.
Proof. now destruct t. Qed.

(** X10.  Only the magnitude of the tolerance counts: [v3_equals]
    answers the same for [t], [-t] and [fabsf(t)]. *)
Theorem equals_tolerance_sign (st : state) (a b : ptr) (t : float) :
  v3_equals a b (F32.neg t) st = v3_equals a b t st
  /\ v3_equals a b (F32.fabsf t) st = v3_equals a b t st.
Proof.
  destruct a as [|ba oa]; [split; reflexivity|].
  destruct b as [|bb ob]; [split; reflexivity|].
  rewrite !v3_equals_run by discriminate.
  rewrite !equals_val_abs, fabsf_neg, fabsf_fabsf. split; reflexivity.
Qed.

(** X11.  A wider tolerance accepts whatever a narrower one accepts. *)
Theorem equals_monotone (st : state) (a b : ptr) (t t' : float) :
  eval (v3_equals a b t) st = true ->
  (F32.fabsf t <= F32.fabsf t')%f32 = true ->
  eval (v3_equals a b t') st = true.
Proof.
  destruct a as [|ba oa]; [discriminate|].
  destruct b as [|bb ob]; [discriminate|].
  unfold eval. rewrite !v3_equals_run by discriminate. cbn [fst].
  rewrite !equals_val_abs.
  destruct (load3 st (Ptr ba oa)) as [[a0 a1] a2].
  destruct (load3 st (Ptr bb ob)) as [[b0 b1] b2].
  intros H T.
  apply andb_true_iff in H. destruct H as [H H2].
  apply andb_true_iff in H. destruct H as [H0 H1].
  now rewrite (leb_trans _ _ _ H0 T), (leb_trans _ _ _ H1 T),
    (leb_trans _ _ _ H2 T).
Qed.

Lemma equals_monotone_witness :
  eval (v3_equals (Ptr 0 0) (Ptr 1 0) F32.two)
    (state_of [vec_of_Z 1 2 3; vec_of_Z 2 3 4]) = true.
Proof.
  apply (equals_monotone _ (Ptr 0 0) (Ptr 1 0) F32.neg_one F32.two);
    reflexivity.
Defined.

Lemma leb_zero_abs (t : float) :
  (F32.zero <= F32.fabsf t)%f32 = negb (F32.isnan t).
Proof. now destruct t as [[]|[]| |[] m e]. Qed.

Lemma abs_sub_self (x t : float) :
  (F32.fabsf (x - x) <= F32.fabsf t)%f32
  = F32.isfinite x && negb (F32.isnan t).
Proof.
  destruct (F32.isfinite x) eqn:F.
  - rewrite (sub_self x F). apply leb_zero_abs.
  - now rewrite (sub_self_nonfinite x F).
Qed.

(** X12.  A vector is equal to itself exactly when its three components
    are finite and the tolerance is not NaN: an infinite component, like
    a NaN one, makes [v3_equals(a, a, t)] false for every [t]. *)
Theorem equals_reflexive (st : state) (a : ptr) (t : float) :
  a <> NULL ->
  eval (v3_equals a a t) st = finite3 (load3 st a) && negb (F32.isnan t).
Proof.
  intros Ha. unfold eval. rewrite v3_equals_run by assumption. cbn [fst].
  rewrite equals_val_abs.
  destruct (load3 st a) as [[x y] z]. unfold finite3.
  rewrite !abs_sub_self.
  destruct (F32.isfinite x), (F32.isfinite y), (F32.isfinite z),
    (F32.isnan t); reflexivity.
Qed.

Lemma equals_reflexive_witness :
  eval (v3_equals (Ptr 0 0) (Ptr 0 0) F32.pinf)
    (state_of [(F32.one, F32.pinf, F32.zero)]) = false
  /\ eval (v3_equals (Ptr 0 0) (Ptr 0 0) F32.zero)
       (state_of [vec_of_Z 1 2 3]) = true.
Proof.
  split.
  - exact (equals_reflexive (state_of [(F32.one, F32.pinf, F32.zero)])
             (Ptr 0 0) F32.pinf ltac:(discriminate)).
  - exact (equals_reflexive (state_of [vec_of_Z 1 2 3])
             (Ptr 0 0) F32.zero ltac:(discriminate)).
Defined.

Lemma valid3_inv (x y z : float) :
  valid3 (x, y, z) = true ->
  F32.valid x = true /\ F32.valid y = true /\ F32.valid z = true.
Proof.
  unfold valid3. intros H.
  apply andb_true_iff in H. destruct H as [H Hz].
  apply andb_true_iff in H. destruct H as [Hx Hy]. auto.
Qed.

(** X13.  With tolerance [0.0f], [v3_equals] on finite vectors is the
    componentwise [==] of the machine: no two distinct numbers are
    taken for equal (the difference of two floats is zero only if they
    are equal), and [-0] equals [+0]. *)
Theorem equals_zero_tolerance (st : state) (a b : ptr) :
  a <> NULL -> b <> NULL ->
  valid3 (load3 st a) = true -> valid3 (load3 st b) = true ->
  finite3 (load3 st a) = true -> finite3 (load3 st b) = true ->
  eval (v3_equals a b F32.zero) st = eqb3 (load3 st a) (load3 st b).
Proof.
  intros Ha Hb Va Vb Fa Fb.
  unfold eval. rewrite v3_equals_run by assumption. cbn [fst].
  destruct (load3 st a) as [[a0 a1] a2], (load3 st b) as [[b0 b1] b2].
  destruct (valid3_inv _ _ _ Va) as (? & ? & ?).
  destruct (valid3_inv _ _ _ Vb) as (? & ? & ?).
  destruct (finite3_inv _ _ _ Fa) as (? & ? & ?).
  destruct (finite3_inv _ _ _ Fb) as (? & ? & ?).
  unfold equals_val, eqb3.
  change (abs_tol F32.zero) with F32.zero.
  now rewrite !sub_zero_iff by assumption.
Qed.

Lemma equals_zero_tolerance_witness :
  eval (v3_equals (Ptr 0 0) (Ptr 1 0) F32.zero)
    (state_of [vec_of_Z 1 0 3; (F32.one, S754_zero true, of_Z 3)])
  = true.
Proof.
  exact (equals_zero_tolerance
           (state_of [vec_of_Z 1 0 3; (F32.one, S754_zero true, of_Z 3)])
           (Ptr 0 0) (Ptr 1 0) ltac:(discriminate) ltac:(discriminate)
           eq_refl eq_refl eq_refl eq_refl).
Defined.

(** ** Identities of the vector operations *)

(** X14.  A finite vector minus itself is the vector of three [+0]; so
    is the vector from a point to itself. *)
Theorem subtract_self (st : state) (dst a : ptr) :
  dst <> NULL -> a <> NULL -> finite3 (load3 st a) = true ->
  load3 (exec (v3_subtract dst a a) st) dst = zero3
  /\ load3 (exec (v3_from_points dst a a) st) dst = zero3.
Proof.
  intros Hd Ha F.
  rewrite v3_subtract_result, v3_from_points_result by assumption.
  destruct (load3 st a) as [[x y] z].
  destruct (finite3_inv _ _ _ F) as (Fx & Fy & Fz).
  unfold subtract_val, from_points_val, zero3.
  now rewrite !sub_self by assumption.
Qed.

Lemma subtract_self_witness :
  let st := state_of [vec_of_Z 10 5 (-2)] in
  load3 (exec (v3_subtract (Ptr 0 0) (Ptr 0 0) (Ptr 0 0)) st) (Ptr 0 0) = zero3
  /\ load3 (exec (v3_from_points (Ptr 0 0) (Ptr 0 0) (Ptr 0 0)) st) (Ptr 0 0)
     = zero3.
Proof.
  intros st.
  exact (subtract_self st (Ptr 0 0) (Ptr 0 0) ltac:(discriminate)
           ltac:(discriminate) eq_refl).
Defined.

Lemma length_finite_small3 (x y z : float) :
  valid3 (x, y, z) = true -> F32.isfinite (length_val (x, y, z)) = true ->
  small x /\ small y /\ small z.
Proof.
  intros V F. destruct (valid3_inv _ _ _ V) as (Vx & Vy & Vz).
  unfold length_val in F.
  assert (Fs : F32.isfinite (x * x + y * y + z * z)%f32 = true).
  { destruct (F32.isfinite (x * x + y * y + z * z)%f32) eqn:E; trivial.
    now rewrite (sqrtf_nonfinite _ E) in F. }
  destruct (add_finite_inv _ _ Fs) as [FP FZ].
  destruct (add_finite_inv _ _ FP) as [FX FY].
  auto using square_finite_small.
Qed.

(** X15.  The cross product of a vector with itself is the vector of
    three [+0], for every vector whose length [v3_length] computes is
    finite. *)
Theorem cross_self (st : state) (dst a : ptr) :
  dst <> NULL -> a <> NULL ->
  valid3 (load3 st a) = true ->
  F32.isfinite (eval (v3_length a) st) = true ->
  load3 (exec (v3_cross_product dst a a) st) dst = zero3.
Proof.
  intros Hd Ha V F.
  unfold eval in F. rewrite v3_length_run in F by assumption. cbn [fst] in F.
  rewrite v3_cross_product_result by assumption.
  destruct (load3 st a) as [[x y] z].
  destruct (length_finite_small3 x y z V F) as (Sx & Sy & Sz).
  unfold cross_val, zero3.
  rewrite (mul_comm z y), (mul_comm x z), (mul_comm y x).
  now rewrite !sub_self by (apply mul_small_finite; assumption).
Qed.

Lemma cross_self_witness :
  let st := state_of [vec_of_Z 1 2 3; vec_of_Z 9 9 9] in
  load3 (exec (v3_cross_product (Ptr 1 0) (Ptr 0 0) (Ptr 0 0)) st) (Ptr 1 0)
  = zero3.
Proof.
  intros st.
  exact (cross_self st (Ptr 1 0) (Ptr 0 0) ltac:(discriminate)
           ltac:(discriminate) eq_refl eq_refl).
Defined.

Lemma add_zero_r (x : float) : (x + F32.zero)%f32 = plus_zero x.
Proof. now destruct x as [[]|[]| |[] m e]. Qed.

(** X16.  Adding the vector [(0, 0, 0)] gives the vector back, but for
    its [-0] components, which come out as [+0]. *)
Theorem add_zero_vector (st : state) (dst a z : ptr) :
  dst <> NULL -> a <> NULL -> z <> NULL ->
  load3 st z = zero3 ->
  load3 (exec (v3_add dst a z) st) dst
  = (let '(x, y, w) := load3 st a in (plus_zero x, plus_zero y, plus_zero w)).
Proof.
  intros Hd Ha Hz Z.
  rewrite v3_add_result by assumption. rewrite Z.
  destruct (load3 st a) as [[x y] w].
  unfold add_val, zero3. now rewrite !add_zero_r.
Qed.

Lemma add_zero_vector_witness :
  let st := state_of [(of_Z 1, S754_zero true, of_Z 3); vec_of_Z 0 0 0;
                      vec_of_Z 9 9 9] in
  load3 (exec (v3_add (Ptr 2 0) (Ptr 0 0) (Ptr 1 0)) st) (Ptr 2 0)
  = (of_Z 1, F32.zero, of_Z 3).
Proof.
  intros st.
  exact (add_zero_vector st (Ptr 2 0) (Ptr 0 0) (Ptr 1 0) ltac:(discriminate)
           ltac:(discriminate) ltac:(discriminate) eq_refl).
Defined.

(** ** Scaling *)

Lemma v3_scale_result (st : state) (dst : ptr) (s : float) :
  dst <> NULL ->
  load3 (exec (v3_scale dst s) st) dst = scale_val (load3 st dst) s.
Proof.
  intros Hd. rewrite v3_scale_exec by assumption.
  destruct dst as [|b o]; [congruence|]. apply load3_store3.
Qed.

(** X17.  Scaling by [1.0f] changes no well-formed vector. *)
Theorem scale_by_one (st : state) (dst : ptr) :
  dst <> NULL -> valid3 (load3 st dst) = true ->
  load3 (exec (v3_scale dst F32.one) st) dst = load3 st dst.
Proof.
  intros Hd V. rewrite v3_scale_result by assumption.
  destruct (load3 st dst) as [[x y] z].
  destruct (valid3_inv _ _ _ V) as (Vx & Vy & Vz).
  unfold scale_val. now rewrite !mul_one by assumption.
Qed.

Lemma scale_by_one_witness :
  let st := state_of [(of_Z 1, F32.pinf, S754_finite true 1 (-149))] in
  load3 (exec (v3_scale (Ptr 0 0) F32.one) st) (Ptr 0 0) = load3 st (Ptr 0 0).
Proof.
  intros st.
  exact (scale_by_one st (Ptr 0 0) ltac:(discriminate) eq_refl).
Defined.




(** X19.  Scaling a finite vector by [0.0f] leaves three zeros, each
    with the sign of the component it replaces. *)
Theorem scale_by_zero (st : state) (dst : ptr) :
  dst <> NULL -> finite3 (load3 st dst) = true ->
  is_zero3 (load3 (exec (v3_scale dst F32.zero) st) dst) = true
  /\ sign_bit3 (load3 (exec (v3_scale dst F32.zero) st) dst)
     = sign_bit3 (load3 st dst).
Proof.
  intros Hd F. rewrite v3_scale_result by assumption.
  destruct (load3 st dst) as [[x y] z].
  destruct (finite3_inv _ _ _ F) as (Fx & Fy & Fz).
  destruct x as [[]|[]| |[] mx ex]; try discriminate;
    destruct y as [[]|[]| |[] my ey]; try discriminate;
    destruct z as [[]|[]| |[] mz ez]; try discriminate; split; reflexivity.
Qed.

Lemma scale_by_zero_witness :
  let st := state_of [vec_of_Z 1 (-2) 3] in
  is_zero3 (load3 (exec (v3_scale (Ptr 0 0) F32.zero) st) (Ptr 0 0)) = true
  /\ sign_bit3 (load3 (exec (v3_scale (Ptr 0 0) F32.zero) st) (Ptr 0 0))
     = sign_bit3 (load3 st (Ptr 0 0)).
Proof.
  intros st.
  exact (scale_by_zero st (Ptr 0 0) ltac:(discriminate) eq_refl).
Defined.

(** ** The sign and the NaN of a length *)

Lemma bra_sign_bit (s : bool) (m e : Z) (l : location) :
  0 <= m -> sign_bit (bra s m e l) = s.
Proof.
  intros Hm. pose proof (bra_not_nan s m e l Hm) as N. revert N.
  unfold bra, binary_round_aux.
  destruct (shr_fexp _ _ m e l) as [mrs' e'].
  destruct (shr_fexp _ _ _ e' loc_Exact) as [mrs'' e''].
  destruct (shr_m mrs''); [reflexivity | | discriminate].
  now destruct (e'' <=? _).
Qed.

Lemma mul_self_sign (x : float) :
  sign_bit (x * x)%f32 = false /\ F32.isnan (x * x)%f32 = F32.isnan x.
Proof.
  destruct x as [[]|[]| |s m e]; try (split; reflexivity).
  unfold F32.mul, SFmul. fold bra. split.
  - rewrite bra_sign_bit by lia. apply xorb_nilpotent.
  - apply bra_not_nan. lia.
Qed.

Lemma binary_round_sign_bit (s : bool) (p : positive) (e : Z) :
  sign_bit (binary_round F32.prec F32.emax s p e) = s.
Proof.
  unfold binary_round. destruct (shl_align p e _) as [mz ez]. fold bra.
  apply bra_sign_bit. lia.
Qed.

Lemma add_nonneg_sign (x y : float) :
  sign_bit x = false -> sign_bit y = false ->
  sign_bit (x + y)%f32 = false
  /\ F32.isnan (x + y)%f32 = F32.isnan x || F32.isnan y.
Proof.
  destruct x as [[]|[]| |[] mx ex], y as [[]|[]| |[] my ey];
    try discriminate; try (split; reflexivity).
  intros _ _. unfold F32.add, SFadd. cbv zeta. cbn [cond_Zopp]. split.
  - cbn [Z.add binary_normalize]. apply binary_round_sign_bit.
  - apply binary_normalize_not_nan.
Qed.

Lemma sqrtf_nonneg_sign (x : float) :
  sign_bit x = false ->
  sign_bit (F32.sqrtf x) = false /\ F32.isnan (F32.sqrtf x) = F32.isnan x.
Proof.
  destruct x as [[]|[]| |[] m e]; try discriminate; try (split; reflexivity).
  intros _. unfold F32.sqrtf, SFsqrt, SFsqrt_core_binary. cbv zeta.
  set (m' := match _ with 0 => _ | Zpos _ => _ | Zneg _ => _ end).
  pose proof (Z.sqrtrem_sqrt m') as Q.
  change IntDef.Z.sqrtrem with Z.sqrtrem.
  destruct (Z.sqrtrem m') as [q r]. cbn [fst] in Q. fold bra.
  assert (0 <= q) by (subst q; apply Z.sqrt_nonneg).
  split; [now apply bra_sign_bit | now apply bra_not_nan].
Qed.

Lemma length_val_sign (v : vec3) :
  sign_bit (length_val v) = false /\ F32.isnan (length_val v) = has_nan v.
Proof.
  destruct v as [[x y] z]. unfold length_val, has_nan.
  destruct (mul_self_sign x) as [Sx Nx], (mul_self_sign y) as [Sy Ny],
    (mul_self_sign z) as [Sz Nz].
  destruct (add_nonneg_sign _ _ Sx Sy) as [Sp Np].
  destruct (add_nonneg_sign _ _ Sp Sz) as [Ss Ns].
  destruct (sqrtf_nonneg_sign _ Ss) as [Sl Nl].
  split; [exact Sl|]. now rewrite Nl, Ns, Np, Nx, Ny, Nz.
Qed.

(** X20.  [v3_length] never returns a negative number, nor [-0]; and it
    returns NaN exactly when a component of the vector is NaN. *)
Theorem length_sign_and_nan (st : state) (a : ptr) :
  a <> NULL ->
  sign_bit (eval (v3_length a) st) = false
  /\ (eval (v3_length a) st < F32.zero)%f32 = false
  /\ F32.isnan (eval (v3_length a) st) = has_nan (load3 st a).
Proof.
  intros Ha. unfold eval. rewrite v3_length_run by assumption. cbn [fst].
  destruct (length_val_sign (load3 st a)) as [S N].
  repeat split; trivial.
  now destruct (length_val (load3 st a)) as [[]|[]| |[] m e].
Qed.

Lemma length_sign_and_nan_witness :
  let st := state_of [(F32.neg_one, S754_infinity true, S754_zero true)] in
  sign_bit (eval (v3_length (Ptr 0 0)) st) = false
  /\ (eval (v3_length (Ptr 0 0)) st < F32.zero)%f32 = false
  /\ F32.isnan (eval (v3_length (Ptr 0 0)) st) = has_nan (load3 st (Ptr 0 0)).
Proof.
  intros st. exact (length_sign_and_nan st (Ptr 0 0) ltac:(discriminate)).
Defined.

(** ** Underflow *)

Lemma shr_1_r (mrs : shr_record) :
  0 <= shr_m mrs -> shr_r (shr_1 mrs) = Z.odd (shr_m mrs).
Proof.
  destruct mrs as [m r s]. cbn [shr_m]. intros H.
  destruct m as [|[p|p|]|p]; try reflexivity; lia.
Qed.

Lemma iter_pos_shr_1_r (p : positive) (mrs : shr_record) :
  0 <= shr_m mrs ->
  shr_r (SpecFloat.iter_pos shr_1 p mrs)
  = Z.odd (shr_m mrs / 2 ^ (Zpos p - 1)).
Proof.
  revert mrs. induction p as [p IH | p IH |]; intros mrs H;
    simpl SpecFloat.iter_pos.
  - assert (H1 : 0 <= shr_m (shr_1 mrs))
      by (rewrite shr_1_m by assumption; apply Z.div_pos; lia).
    assert (H2 : 0 <= shr_m (SpecFloat.iter_pos shr_1 p (shr_1 mrs)))
      by (rewrite iter_pos_shr_1_m by assumption; apply Z.div_pos; lia).
    rewrite IH by assumption.
    rewrite iter_pos_shr_1_m, shr_1_m by assumption.
    rewrite !Z.div_div by lia. f_equal. f_equal.
    replace (Zpos p~1 - 1) with (1 + Zpos p + (Zpos p - 1)) by lia.
    rewrite !Z.pow_add_r by lia. change (2 ^ 1) with 2. ring.
  - assert (H2 : 0 <= shr_m (SpecFloat.iter_pos shr_1 p mrs))
      by (rewrite iter_pos_shr_1_m by assumption; apply Z.div_pos; lia).
    rewrite IH by assumption.
    rewrite iter_pos_shr_1_m by assumption.
    rewrite !Z.div_div by lia. f_equal. f_equal.
    replace (Zpos p~0 - 1) with (Zpos p + (Zpos p - 1)) by lia.
    rewrite !Z.pow_add_r by lia. ring.
  - rewrite shr_1_r by assumption. change (2 ^ (1 - 1)) with 1.
    now rewrite Z.div_1_r.
Qed.

(** A mantissa below half a unit of the kept bits rounds to zero. *)
Lemma rnd_shift_small (m n : Z) :
  0 <= m < 2 ^ (n - 1) -> 0 < n -> rnd_shift m loc_Exact n = 0.
Proof.
  intros Hm Hn. unfold rnd_shift.
  destruct n as [|p|p]; try lia. cbn [shr shr_record_of_loc fst].
  set (mrs := SpecFloat.iter_pos shr_1 p _).
  assert (M : shr_m mrs = 0).
  { subst mrs. rewrite iter_pos_shr_1_m by (cbn; lia). cbn [shr_m].
    apply Z.div_small. split; [lia|].
    apply Z.lt_le_trans with (1 := proj2 Hm).
    apply Z.pow_le_mono_r; lia. }
  assert (R : shr_r mrs = false).
  { subst mrs. rewrite iter_pos_shr_1_r by (cbn; lia). cbn [shr_m].
    now rewrite Z.div_small by lia. }
  destruct mrs as [m' r' s']. cbn [shr_m shr_r] in *. subst m' r'.
  now destruct s'.
Qed.

Lemma ltb_finite_inv (m m' : positive) (e e' : Z) :
  (S754_finite false m e < S754_finite false m' e')%f32 = true ->
  e < e' \/ (e = e' /\ Zpos m < Zpos m').
Proof.
  unfold F32.ltb, SFltb, SFcompare.
  change (PosDef.Pos.compare_cont Eq m m') with (m ?= m')%positive.
  destruct (Z.compare_spec e e') as [E|E|E]; try discriminate; [|auto].
  destruct (Pos.compare_spec m m') as [Q|Q|Q]; try discriminate.
  intros _. right. split; [exact E | lia].
Qed.

Lemma ltb_pow2_inv (s : bool) (m : positive) (e k : Z) :
  -126 < k ->
  F32.valid (S754_finite s m e) = true ->
  (F32.fabsf (S754_finite s m e) < pow2 k)%f32 = true ->
  e < k - 23 /\ Zpos m < 16777216.
Proof.
  intros Hk V L. destruct (valid_finite_inv _ _ _ V) as (C & _ & Hm).
  split; [|exact Hm].
  apply ltb_finite_inv in L. clear V.
  destruct L as [L|[E Q]]; [exact L|].
  assert (D : Zpos (digits2_pos m) <= 23).
  { change (Zpos (digits2_pos m)) with (Zdigits2 (Zpos m)).
    apply Zdigits2_le; [reflexivity | exact Q | discriminate]. }
  lia.
Qed.

(** The square of a float below [2^-75] in magnitude is [+0]. *)
Lemma mul_self_tiny (x : float) :
  F32.valid x = true -> (F32.fabsf x < pow2 (-75))%f32 = true ->
  (x * x)%f32 = F32.zero.
Proof.
  destruct x as [[]|[]| |s m e]; try discriminate; try reflexivity.
  intros V L. destruct (ltb_pow2_inv s m e (-75) ltac:(lia) V L) as [He Hm].
  unfold F32.mul, SFmul. fold bra. rewrite xorb_nilpotent.
  assert (P : 0 < Zpos (m * m) < 2 ^ 48).
  { rewrite Pos2Z.inj_mul. change (2 ^ 48) with (16777216 * 16777216). nia. }
  assert (D : Zdigits2 (Zpos (m * m)) <= 48) by (apply Zdigits2_le; lia).
  pose proof (Zdigits2_pos (Zpos (m * m)) ltac:(lia)) as D0.
  rewrite bra_eq by lia. cbv zeta.
  rewrite fexp32_eq.
  replace (Z.max (Zdigits2 (Zpos (m * m)) + (e + e) - 24) (-149)) with (-149)
    by lia.
  rewrite rnd_shift_small.
  - rewrite Z.div_0_l; [reflexivity|].
    apply Z.pow_nonzero; [lia|]. lia.
  - split; [lia|]. apply Z.lt_le_trans with (1 := proj2 P).
    apply Z.pow_le_mono_r; lia.
  - lia.
Qed.

Lemma length_val_tiny (v : vec3) :
  valid3 v = true -> tiny3 v = true -> length_val v = F32.zero.
Proof.
  destruct v as [[x y] z]. intros V T.
  destruct (valid3_inv _ _ _ V) as (Vx & Vy & Vz).
  unfold tiny3 in T.
  apply andb_true_iff in T. destruct T as [T Tz].
  apply andb_true_iff in T. destruct T as [Tx Ty].
  unfold length_val. now rewrite !mul_self_tiny by assumption.
Qed.

(** X21.  Underflow: a vector whose components are all below [2^-75] in
    magnitude has the computed length [+0], although it need not be the
    zero vector; [v3_normalize] treats it as a zero-length vector. *)
Theorem tiny_vector_underflow (st : state) (dst a : ptr) :
  dst <> NULL -> a <> NULL ->
  valid3 (load3 st a) = true -> tiny3 (load3 st a) = true ->
  v3_length a st = (F32.zero, st)
  /\ load3 (exec (v3_normalize dst a) st) dst = zero3
  /\ stderr (exec (v3_normalize dst a) st)
     = stderr st ++ [error_line normalize_msg].
Proof.
  intros Hd Ha V T.
  pose proof (length_val_tiny _ V T) as L.
  rewrite v3_length_run, v3_normalize_result, v3_normalize_stderr by assumption.
  rewrite L. repeat split.
  apply normalize_val_degenerate. now rewrite L.
Qed.

Lemma tiny_vector_underflow_witness :
  let st := state_of [(pow2 (-80), F32.zero, S754_finite true 12345 (-149));
                      vec_of_Z 9 9 9] in
  is_zero3 (load3 st (Ptr 0 0)) = false
  /\ v3_length (Ptr 0 0) st = (F32.zero, st)
  /\ load3 (exec (v3_normalize (Ptr 1 0) (Ptr 0 0)) st) (Ptr 1 0) = zero3
  /\ stderr (exec (v3_normalize (Ptr 1 0) (Ptr 0 0)) st)
     = stderr st ++ [error_line normalize_msg].
Proof.
  intros st. split; [reflexivity|].
  exact (tiny_vector_underflow st (Ptr 1 0) (Ptr 0 0) ltac:(discriminate)
           ltac:(discriminate) eq_refl eq_refl).
Defined.

(** ** The argument of [acosf] *)

Lemma between_not_nan (x : float) :
  between F32.neg_one F32.one x = true -> F32.isnan x = false.
Proof. now destruct x. Qed.

Lemma clampf_nan_or_between (x : float) :
  F32.isfinite (clampf x F32.neg_one F32.one) = true ->
  between F32.neg_one F32.one (clampf x F32.neg_one F32.one) = true.
Proof.
  destruct (F32.isnan x) eqn:N.
  - destruct x; discriminate.
  - intros _. now apply clampf_range.
Qed.

Lemma angle_quick_finite_between (st : state) (a b : ptr) :
  F32.isfinite (eval (v3_angle_quick a b) st) = true ->
  between F32.neg_one F32.one (eval (v3_angle_quick a b) st) = true.
Proof.
  destruct a as [|ba oa]; [discriminate|].
  destruct b as [|bb ob]; [discriminate|].
  unfold eval. rewrite v3_angle_quick_run by discriminate.
  destruct (degenerate _ || degenerate _); [discriminate|].
  cbn [fst]. unfold angle_quick_val.
  destruct (degenerate _ || degenerate _); [discriminate|].
  apply clampf_nan_or_between.
Qed.

(** X22.  [v3_angle] gives [acosf] only arguments of [[-1, 1]]: two
    implementations of [acosf] that agree on this interval give the
    same [v3_angle], on all arguments. *)
Theorem angle_acosf_domain (acosf acosf' : float -> float)
    (st : state) (a b : ptr) :
  (forall c, between F32.neg_one F32.one c = true -> acosf c = acosf' c) ->
  v3_angle acosf a b st = v3_angle acosf' a b st.
Proof.
  intros H. unfold v3_angle, bind.
  pose proof (angle_quick_finite_between st a b) as B. unfold eval in B.
  destruct (v3_angle_quick a b st) as [c st']. cbn [fst] in B.
  destruct (F32.isfinite c); cbn [negb]; [|reflexivity].
  unfold ret. now rewrite H by auto.
Qed.

Lemma angle_acosf_domain_witness :
  let st := state_of [vec_of_Z 1 0 0; vec_of_Z 0 1 0] in
  v3_angle (fun c => if between F32.neg_one F32.one c then F32.one else F32.NAN)
    (Ptr 0 0) (Ptr 1 0) st
  = v3_angle (fun _ => F32.one) (Ptr 0 0) (Ptr 1 0) st.
Proof.
  intros st. apply angle_acosf_domain.
  intros c H. now rewrite H.
Defined.

(** ** What [v3_normalize] writes *)

Local Open Scope R_scope.

(** A computed length that is finite and not zero is a positive normal
    number of [[2^-75, 2^64)]. *)
Lemma len_form (v : vec3) :
  degenerate (length_val v) = false ->
  exists ml el,
    length_val v = S754_finite false ml el
    /\ (8388608 <= Zpos ml < 16777216)%Z /\ (-98 <= el <= 40)%Z.
Proof.
  destruct v as [[x y] z]. unfold length_val, degenerate.
  set (sf := (x * x + y * y + z * z)%f32).
  assert (Bs : bounded32 sf)
    by (subst sf; repeat apply add_bounded; apply mul_bounded).
  intros D.
  destruct sf as [ss|ss| |[] m e];
    try (destruct ss; discriminate); try discriminate.
  destruct (sqrtf_eq m e Bs) as (mq & Bq & _ & E & _). cbv zeta in E.
  rewrite E. exists mq, (Z.div2 (Zpos (digits2_pos m) + e + 1) - 24)%Z.
  split; [reflexivity|]. split; [exact Bq|].
  destruct Bs as [Hm He].
  pose proof (div2_bounds (Zpos (digits2_pos m) + e + 1)).
  assert (Zpos (digits2_pos m) <= 24)%Z
    by (apply Zdigits2_le with (m := Zpos m); lia).
  lia.
Qed.

Lemma sq_le_16_abs (A : R) : A * A <= 16 -> Rabs A <= 4.
Proof.
  intros H. unfold Rabs. destruct (Rcase_abs A); nra.
Qed.

Lemma degenerate_false_finite (l : float) :
  degenerate l = false -> F32.isfinite l = true.
Proof.
  unfold degenerate. intros D. apply orb_false_iff in D.
  destruct D as [_ D]. now destruct (F32.isfinite l).
Qed.

(** The components of a normalised vector, before the last rounding. *)
Lemma normalize_products (x y z : float) :
  degenerate (length_val (x, y, z)) = false ->
  exists inv,
    normalize_val (x, y, z) = ((x * inv)%f32, (y * inv)%f32, (z * inv)%f32)
    /\ (exists mi ei, inv = S754_finite false mi ei)
    /\ finite3 (x, y, z) = true
    /\ 0 <= F2R inv
    /\ (F2R x * F2R x + F2R y * F2R y + F2R z * F2R z) * (F2R inv * F2R inv)
       <= 15.
Proof.
  intros D.
  pose proof (degenerate_false_finite _ D) as FL.
  pose proof (finite3_of_length _ FL) as F3.
  destruct (len_form _ D) as (ml & el & E & Bm & Be).
  destruct (length_error x y z F3 FL) as (Pl & s & Ps & Hs & Hls).
  cbv zeta in *.
  set (S := F2R x * F2R x + F2R y * F2R y + F2R z * F2R z) in *.
  destruct (div_error ml el Bm Be) as [N Hil]. cbv zeta in N, Hil.
  exists (F32.one / S754_finite false ml el)%f32.
  set (inv := (F32.one / S754_finite false ml el)%f32) in *.
  unfold normalize_val. rewrite D, E.
  split; [reflexivity|].
  assert (Pi : (exists mi ei, inv = S754_finite false mi ei) /\ 0 <= F2R inv).
  { destruct inv as [| | |[] mi ei]; try contradiction.
    split; [now exists mi, ei | apply nonneg_finite_F2R; exact I]. }
  destruct Pi as [Fi Pi].
  split; [exact Fi|]. split; [exact F3|]. split; [exact Pi|].
  rewrite E in *.
  set (i := F2R inv) in *. set (l := F2R (S754_finite false ml el)) in *.
  assert (L75 : bpow (-75) <= l).
  { subst l. rewrite F2R_pos.
    replace (-75)%Z with (23 + -98)%Z by lia. rewrite bpow_add.
    rewrite (bpow_IZR 23) by lia.
    assert (IZR (2 ^ 23) <= IZR (Zpos ml)) by (apply IZR_le; simpl; lia).
    assert (bpow (-98) <= bpow el) by (apply bpow_le; lia).
    pose proof (bpow_pos (-98)).
    assert (0 < IZR (2 ^ 23)) by (apply IZR_lt; reflexivity).
    apply Rmult_le_compat; lra. }
  assert (Tl : bpow (-150) <= l * l).
  { replace (-150)%Z with (-75 + -75)%Z by lia. rewrite bpow_add.
    pose proof (bpow_pos (-75)). apply Rmult_le_compat; lra. }
  assert (He : eta32 = 2 * bpow (-150)).
  { unfold eta32. replace (-149)%Z with (1 + -150)%Z by lia.
    rewrite bpow_add. f_equal. unfold bpow. simpl. lra. }
  apply Rabs_le_inv in Hil.
  rewrite u32_eq in *.
  assert (S14 : S <= 14 * (l * l)) by lra.
  assert (PS : 0 <= S)
    by (subst S; pose proof (sqr_nonneg (F2R x)); pose proof (sqr_nonneg (F2R y));
        pose proof (sqr_nonneg (F2R z)); lra).
  assert (Pii : 0 <= i * i) by apply sqr_nonneg.
  assert (A1 : S * (i * i) <= 14 * (l * l) * (i * i))
    by (apply Rmult_le_compat_r; lra).
  assert (A2 : 0 <= i * l) by (apply Rmult_le_pos; lra).
  assert (A3 : (i * l) * (i * l) <= (1 + 2 * / 8388608) * (1 + 2 * / 8388608))
    by (apply Rmult_le_compat; lra).
  replace (14 * (l * l) * (i * i)) with (14 * ((i * l) * (i * l))) in A1 by ring.
  lra.
Qed.

Lemma sq_le_15_abs (A : R) : A * A <= 15 -> Rabs A <= 39 / 10.
Proof.
  intros H. unfold Rabs. destruct (Rcase_abs A); nra.
Qed.

Lemma component_bound (x inv : float) :
  F32.isfinite x = true -> F32.isfinite inv = true ->
  F2R x * F2R x * (F2R inv * F2R inv) <= 15 ->
  F32.isfinite (x * inv)%f32 = true /\ Rabs (F2R (x * inv)%f32) <= 4.
Proof.
  intros Fx Fi H.
  assert (A : Rabs (F2R x * F2R inv) <= 39 / 10).
  { apply sq_le_15_abs.
    replace (F2R x * F2R inv * (F2R x * F2R inv))
      with (F2R x * F2R x * (F2R inv * F2R inv)) by ring.
    exact H. }
  assert (F : F32.isfinite (x * inv)%f32 = true).
  { apply mul_finite_if; trivial. pose proof bpow_100_large. lra. }
  split; [exact F|].
  pose proof (mul_error x inv Fx Fi F) as E.
  pose proof u32_small as Hu. pose proof eta32_small as He.
  pose proof eta32_pos.
  assert (U : u32 * Rabs (F2R x * F2R inv) <= / 1000 * (39 / 10)).
  { apply Rmult_le_compat; try lra. apply Rabs_pos. }
  replace (F2R (x * inv)%f32)
    with (F2R (x * inv)%f32 - F2R x * F2R inv + F2R x * F2R inv) by ring.
  apply Rle_trans with (1 := Rabs_triang _ _). lra.
Qed.

Lemma normalize_val_bounded (v : vec3) :
  finite3 (normalize_val v) = true /\ within3 (normalize_val v) 4.
Proof.
  destruct (degenerate (length_val v)) eqn:D.
  - rewrite (normalize_val_degenerate v D). split; [reflexivity|].
    unfold within3, zero3, F32.zero, F2R. rewrite Rabs_R0. lra.
  - destruct v as [[x y] z].
    destruct (normalize_products x y z D)
      as (inv & E & (mi & ei & Ei) & F3 & Pi & H).
    destruct (finite3_inv _ _ _ F3) as (Fx & Fy & Fz).
    assert (Fi : F32.isfinite inv = true) by now rewrite Ei.
    pose proof (sqr_nonneg (F2R x)). pose proof (sqr_nonneg (F2R y)).
    pose proof (sqr_nonneg (F2R z)). pose proof (sqr_nonneg (F2R inv)).
    rewrite !Rmult_plus_distr_r in H.
    assert (0 <= F2R x * F2R x * (F2R inv * F2R inv))
      by (apply Rmult_le_pos; lra).
    assert (0 <= F2R y * F2R y * (F2R inv * F2R inv))
      by (apply Rmult_le_pos; lra).
    assert (0 <= F2R z * F2R z * (F2R inv * F2R inv))
      by (apply Rmult_le_pos; lra).
    destruct (component_bound x inv Fx Fi ltac:(lra)) as [Gx Bx].
    destruct (component_bound y inv Fy Fi ltac:(lra)) as [Gy By].
    destruct (component_bound z inv Fz Fi ltac:(lra)) as [Gz Bz].
    rewrite E. unfold finite3, within3. rewrite Gx, Gy, Gz. auto.
Qed.

Local Close Scope R_scope.

Lemma mul_pos_sign (x : float) (mi : positive) (ei : Z) :
  F32.isfinite x = true ->
  sign_bit (x * S754_finite false mi ei)%f32 = sign_bit x.
Proof.
  destruct x as [[]| | |s m e]; try discriminate; try reflexivity.
  intros _. unfold F32.mul, SFmul. fold bra.
  rewrite bra_sign_bit by lia. apply xorb_false_r.
Qed.

(** X23.  [v3_normalize] never writes an infinity or a NaN, whatever the
    vector it is given: the three numbers it stores are finite and at
    most 4 in magnitude. *)
Theorem normalize_output_bounded (st : state) (dst a : ptr) :
  dst <> NULL -> a <> NULL ->
  finite3 (load3 (exec (v3_normalize dst a) st) dst) = true
  /\ within3 (load3 (exec (v3_normalize dst a) st) dst) 4.
Proof.
  intros Hd Ha. rewrite v3_normalize_result by assumption.
  apply normalize_val_bounded.
Qed.

Lemma normalize_output_bounded_witness :
  let st := state_of [(pow2 100, F32.NAN, F32.one); vec_of_Z 9 9 9] in
  finite3 (load3 (exec (v3_normalize (Ptr 1 0) (Ptr 0 0)) st) (Ptr 1 0)) = true
  /\ within3 (load3 (exec (v3_normalize (Ptr 1 0) (Ptr 0 0)) st) (Ptr 1 0)) 4.
Proof.
  intros st.
  exact (normalize_output_bounded st (Ptr 1 0) (Ptr 0 0) ltac:(discriminate)
           ltac:(discriminate)).
Defined.

(** X24.  Where the length [v3_length] computes is finite and not zero,
    [v3_normalize] keeps the sign of every component, [-0] included. *)
Theorem normalize_keeps_signs (st : state) (dst a : ptr) :
  dst <> NULL -> a <> NULL ->
  degenerate (eval (v3_length a) st) = false ->
  sign_bit3 (load3 (exec (v3_normalize dst a) st) dst)
  = sign_bit3 (load3 st a).
Proof.
  intros Hd Ha D.
  unfold eval in D. rewrite v3_length_run in D by assumption. cbn [fst] in D.
  rewrite v3_normalize_result by assumption.
  destruct (load3 st a) as [[x y] z].
  destruct (normalize_products x y z D)
    as (inv & E & (mi & ei & Ei) & F3 & _).
  destruct (finite3_inv _ _ _ F3) as (Fx & Fy & Fz).
  rewrite E, Ei. unfold sign_bit3.
  now rewrite !mul_pos_sign by assumption.
Qed.

Lemma normalize_keeps_signs_witness :
  let st := state_of [(F32.neg_one, S754_zero true, F32.two); vec_of_Z 9 9 9] in
  sign_bit3 (load3 (exec (v3_normalize (Ptr 1 0) (Ptr 0 0)) st) (Ptr 1 0))
  = (true, true, false).
Proof.
  intros st.
  exact (normalize_keeps_signs st (Ptr 1 0) (Ptr 0 0) ltac:(discriminate)
           ltac:(discriminate) eq_refl).
Defined.

(** ** What [v3_reflect] writes *)

Local Open Scope R_scope.

Lemma binary_round_finite_if (s : bool) (p : positive) (e : Z) :
  IZR (Zpos p) * bpow e < bpow 100 ->
  F32.isfinite (binary_round F32.prec F32.emax s p e) = true.
Proof.
  unfold binary_round.
  pose proof (shl_align_value p e
                (fexp F32.prec F32.emax (Zpos (digits2_pos p) + e))) as W.
  destruct (shl_align p e _) as [mz ez]. cbn [fst snd] in W. fold bra.
  intros B. rewrite <- W in B.
  destruct (value_lt_digits (Zpos mz) ez 100 ltac:(lia) B).
  apply bra_finite_if; lia.
Qed.

Lemma binary_normalize_finite_if (z e : Z) :
  Rabs (IZR z * bpow e) < bpow 100 ->
  F32.isfinite (binary_normalize F32.prec F32.emax z e false) = true.
Proof.
  pose proof (bpow_pos e).
  destruct z as [|p|p]; cbn [binary_normalize]; intros B; [reflexivity| |].
  - assert (0 < IZR (Zpos p)) by (apply IZR_lt; lia).
    rewrite Rabs_right in B by nra.
    now apply binary_round_finite_if.
  - assert (0 < IZR (Zpos p)) by (apply IZR_lt; lia).
    change (Zneg p) with (- Zpos p)%Z in B. rewrite opp_IZR in B.
    rewrite Rabs_left in B by nra.
    apply binary_round_finite_if. lra.
Qed.

(** A sum or a difference of finite floats is finite when the exact one
    is below [2^100] in magnitude. *)
Lemma add_finite_signed (a b : float) :
  F32.isfinite a = true -> F32.isfinite b = true ->
  Rabs (F2R a + F2R b) < bpow 100 ->
  F32.isfinite (a + b)%f32 = true.
Proof.
  destruct a as [sa| | |sa ma ea], b as [sb| | |sb mb eb]; try discriminate;
    intros _ _ B; try reflexivity.
  - now destruct sa, sb.
  - unfold F32.add, SFadd. change IntDef.Z.min with Z.min. cbv zeta.
    apply binary_normalize_finite_if.
    rewrite plus_IZR, Rmult_plus_distr_r, !aligned_value by lia. exact B.
Qed.

Lemma sub_finite_signed (a b : float) :
  F32.isfinite a = true -> F32.isfinite b = true ->
  Rabs (F2R a - F2R b) < bpow 100 ->
  F32.isfinite (a - b)%f32 = true.
Proof.
  destruct a as [sa| | |sa ma ea], b as [sb| | |sb mb eb]; try discriminate;
    intros _ _ B; try reflexivity.
  - now destruct sa, sb.
  - unfold F32.sub, SFsub. change IntDef.Z.min with Z.min. cbv zeta.
    apply binary_normalize_finite_if.
    rewrite minus_IZR, Rmult_minus_distr_r, !aligned_value by lia. exact B.
Qed.

(** A rounded value is hardly larger than the exact one. *)
Lemma rounded_bound (f x X : R) :
  Rabs (f - x) <= u32 * Rabs x + eta32 -> Rabs x <= X -> 1 <= X ->
  Rabs f <= 1002 / 1000 * X.
Proof.
  intros E Hx HX. pose proof u32_small as Hu. pose proof eta32_small as He.
  pose proof (Rabs_pos x).
  assert (u32 * Rabs x <= / 1000 * X) by (apply Rmult_le_compat; lra).
  replace f with (f - x + x) by ring.
  apply Rle_trans with (1 := Rabs_triang _ _). lra.
Qed.

Lemma bpow_100_93 : bpow 100 = 128 * bpow 93.
Proof.
  replace 100%Z with (7 + 93)%Z by lia. rewrite bpow_add.
  f_equal. unfold bpow. simpl. lra.
Qed.

(** A component of the reflection of a vector of components up to [2^93]
    about a direction of components up to 4 does not overflow. *)
Lemma reflect_component_finite (v0 v1 v2 m0 m1 m2 vi mi : float) :
  F32.isfinite v0 = true -> F32.isfinite v1 = true ->
  F32.isfinite v2 = true -> F32.isfinite vi = true ->
  F32.isfinite m0 = true -> F32.isfinite m1 = true ->
  F32.isfinite m2 = true -> F32.isfinite mi = true ->
  Rabs (F2R v0) <= bpow 93 -> Rabs (F2R v1) <= bpow 93 ->
  Rabs (F2R v2) <= bpow 93 -> Rabs (F2R vi) <= bpow 93 ->
  Rabs (F2R m0) <= 4 -> Rabs (F2R m1) <= 4 ->
  Rabs (F2R m2) <= 4 -> Rabs (F2R mi) <= 4 ->
  F32.isfinite (vi - F32.two * (v0 * m0 + v1 * m1 + v2 * m2) * mi)%f32 = true.
Proof.
  intros Fv0 Fv1 Fv2 Fvi Fm0 Fm1 Fm2 Fmi V0 V1 V2 Vi M0 M1 M2 Mi.
  pose proof bpow_100_93 as E100.
  pose proof (bpow_ge_1 93 ltac:(lia)) as B1.
  set (B := bpow 93) in *.
  (* the three products *)
  pose proof (abs_mul_le _ _ _ _ V0 M0) as X0.
  pose proof (abs_mul_le _ _ _ _ V1 M1) as X1.
  pose proof (abs_mul_le _ _ _ _ V2 M2) as X2.
  assert (F0 : F32.isfinite (v0 * m0)%f32 = true)
    by (apply mul_finite_if; trivial; lra).
  assert (F1 : F32.isfinite (v1 * m1)%f32 = true)
    by (apply mul_finite_if; trivial; lra).
  assert (F2 : F32.isfinite (v2 * m2)%f32 = true)
    by (apply mul_finite_if; trivial; lra).
  pose proof (rounded_bound _ _ _ (mul_error _ _ Fv0 Fm0 F0) X0 ltac:(lra)) as P0.
  pose proof (rounded_bound _ _ _ (mul_error _ _ Fv1 Fm1 F1) X1 ltac:(lra)) as P1.
  pose proof (rounded_bound _ _ _ (mul_error _ _ Fv2 Fm2 F2) X2 ltac:(lra)) as P2.
  (* the two additions *)
  assert (Y1 : Rabs (F2R (v0 * m0)%f32 + F2R (v1 * m1)%f32) <= 9 * B)
    by (apply Rle_trans with (1 := Rabs_triang _ _); lra).
  assert (G1 : F32.isfinite (v0 * m0 + v1 * m1)%f32 = true)
    by (apply add_finite_signed; trivial; lra).
  pose proof (rounded_bound _ _ _ (add_error_signed _ _ F0 F1 G1) Y1
                ltac:(lra)) as S1.
  assert (Y2 : Rabs (F2R (v0 * m0 + v1 * m1)%f32 + F2R (v2 * m2)%f32)
               <= 14 * B)
    by (apply Rle_trans with (1 := Rabs_triang _ _); lra).
  assert (G2 : F32.isfinite (v0 * m0 + v1 * m1 + v2 * m2)%f32 = true)
    by (apply add_finite_signed; trivial; lra).
  pose proof (rounded_bound _ _ _ (add_error_signed _ _ G1 F2 G2) Y2
                ltac:(lra)) as S2.
  (* twice the dot product, times the component of the direction *)
  set (d := (v0 * m0 + v1 * m1 + v2 * m2)%f32) in *.
  assert (T2 : Rabs (F2R F32.two) <= 2)
    by (rewrite F2R_two, Rabs_right; lra).
  pose proof (abs_mul_le _ _ _ _ T2 S2) as Y3.
  assert (G3 : F32.isfinite (F32.two * d)%f32 = true)
    by (apply mul_finite_if; trivial; lra).
  pose proof (rounded_bound _ _ _ (mul_error F32.two d eq_refl G2 G3) Y3
                ltac:(lra)) as S3.
  pose proof (abs_mul_le _ _ _ _ S3 Mi) as Y4.
  assert (G4 : F32.isfinite (F32.two * d * mi)%f32 = true)
    by (apply mul_finite_if; trivial; lra).
  pose proof (rounded_bound _ _ _ (mul_error _ _ G3 Fmi G4) Y4 ltac:(lra))
    as S4.
  (* the subtraction *)
  apply sub_finite_signed; trivial.
  apply Rle_lt_trans with (Rabs (F2R vi) + Rabs (F2R (F32.two * d * mi)%f32)).
  - unfold Rminus. apply Rle_trans with (1 := Rabs_triang _ _).
    rewrite Rabs_Ropp. lra.
  - lra.
Qed.

(** The reflection of a finite vector of components up to [2^93] is
    finite, whatever the normal is. *)
Lemma reflect_val_finite (v n : vec3) :
  finite3 v = true -> within3 v (bpow 93) -> finite3 (reflect_val v n) = true.
Proof.
  intros F W. unfold reflect_val. cbv zeta.
  destruct (degenerate (length_val (normalize_val n))); [exact F|].
  destruct (normalize_val_bounded n) as [FN WN].
  destruct (normalize_val n) as [[m0 m1] m2].
  destruct v as [[v0 v1] v2].
  destruct W as (V0 & V1 & V2). destruct WN as (M0 & M1 & M2).
  destruct (finite3_inv _ _ _ F) as (Fv0 & Fv1 & Fv2).
  destruct (finite3_inv _ _ _ FN) as (Fm0 & Fm1 & Fm2).
  unfold finite3.
  rewrite (reflect_component_finite v0 v1 v2 m0 m1 m2 v0 m0),
    (reflect_component_finite v0 v1 v2 m0 m1 m2 v1 m1),
    (reflect_component_finite v0 v1 v2 m0 m1 m2 v2 m2) by assumption.
  reflexivity.
Qed.

Local Close Scope R_scope.

(** X26.  [v3_reflect] stores no infinity and no NaN when the components
    of [v] are finite and at most [2^93] in magnitude, whatever the
    normal is. *)
Theorem reflect_output_finite (st : state) (dst v n : ptr) :
  valid_ptr st dst -> valid_ptr st v -> valid_ptr st n ->
  same_or_separate dst v ->
  finite3 (load3 st v) = true -> within3 (load3 st v) (bpow 93) ->
  finite3 (load3 (exec (v3_reflect dst v n) st) dst) = true.
Proof.
  intros Hd Hv Hn Sdv F W.
  destruct (v3_reflect_spec st dst v n Hd Hv Hn Sdv) as [-> _].
  now apply reflect_val_finite.
Qed.

(** The vector [(1, 2, 3)] and a normal with an infinite and a NaN
    component. *)
Lemma reflect_output_finite_witness :
  let st := state_of [vec_of_Z 1 2 3; (F32.pinf, F32.NAN, F32.one);
                      vec_of_Z 0 0 0] in
  finite3 (load3 (exec (v3_reflect (Ptr 2 0) (Ptr 0 0) (Ptr 1 0)) st) (Ptr 2 0))
  = true.
Proof.
  intros st.
  assert (V : valid_ptr st (Ptr 2 0) /\ valid_ptr st (Ptr 0 0)
              /\ valid_ptr st (Ptr 1 0)) by (simpl; lia).
  destruct V as (V2 & V0 & V1).
  assert (S20 : same_or_separate (Ptr 2 0) (Ptr 0 0)) by (right; left; lia).
  assert (W : within3 (load3 st (Ptr 0 0)) (bpow 93)).
  { change (load3 st (Ptr 0 0))
      with (S754_finite false 8388608 (-23), S754_finite false 8388608 (-22),
            S754_finite false 12582912 (-22)).
    pose proof (bpow_ge_1 93 ltac:(lia)) as B.
    assert (B4 : (4 <= bpow 93)%R).
    { apply Rle_trans with (bpow 2); [unfold bpow; simpl; lra|].
      apply bpow_le. lia. }
    unfold within3, F2R. simpl.
    repeat split; apply Rabs_le; lra. }
  exact (reflect_output_finite st (Ptr 2 0) (Ptr 0 0) (Ptr 1 0)
           V2 V0 V1 S20 eq_refl W).
Defined.
